(** * Repository summariser backend: tree builder, URL parser, request handler

    A shallow embedding of [main.py].  Python dictionaries with a fixed set
    of keys become records, optional keys become [option] fields, exceptions
    become an explicit [outcome] type, and the two network collaborators
    (the hosting API and the completion API) become oracles of a [world]
    record.  Strings are [String.string]; comparison is by character code,
    as Python's is by code point. *)

From Stdlib Require Import List String Ascii Bool ZArith Lia Arith.
From Stdlib Require Import Sorting.Sorted Sorting.Permutation.
From Stdlib Require Import DecimalString OrderedTypeEx.
Import ListNotations.

Local Open Scope string_scope.
Local Open Scope list_scope.

(* ================================================================== *)
(** ** Python string primitives used by the program *)

Module PyStr.

(** [s.split(sep)] for a one-character separator: never returns the
    empty list, [""] splits into [[""]]. *)
Fixpoint split (sep : ascii) (s : string) : list string :=
  match s with
  | EmptyString => [EmptyString]
  | String c s' =>
      if Ascii.eqb c sep then EmptyString :: split sep s'
      else match split sep s' with
           | [] => [String c EmptyString]
           | w :: ws => String c w :: ws
           end
  end.

(** [s[:n]] *)
Definition take (n : nat) (s : string) : string := substring 0 n s.

(** Truthiness of a string: [""] is falsy. *)
Definition truthy (s : string) : bool :=
  match s with EmptyString => false | String _ _ => true end.

(** [str.isspace] on one character, for code points below 256:
    TAB..CR, FS..US, SPACE, NEL and NBSP. *)
Definition isspace (c : ascii) : bool :=
  let n := nat_of_ascii c in
  (Nat.leb 9 n && Nat.leb n 13) || (Nat.leb 28 n && Nat.leb n 32)
  || Nat.eqb n 133 || Nat.eqb n 160.

Fixpoint lstrip (s : string) : string :=
  match s with
  | EmptyString => EmptyString
  | String c s' => if isspace c then lstrip s' else s
  end.

Fixpoint rstrip (s : string) : string :=
  match s with
  | EmptyString => EmptyString
  | String c s' =>
      match rstrip s' with
      | EmptyString => if isspace c then EmptyString else String c EmptyString
      | r => String c r
      end
  end.

(** [s.strip()] *)
Definition strip (s : string) : string := rstrip (lstrip s).

(** [drop_prefix p s] is [Some rest] when [s = p ++ rest]. *)
Fixpoint drop_prefix (p s : string) : option string :=
  match p, s with
  | EmptyString, _ => Some s
  | String a p', String b s' =>
      if Ascii.eqb a b then drop_prefix p' s' else None
  | String _ _, EmptyString => None
  end.

(** [s.replace(old, new)] for a non-empty [old]: a left-to-right scan
    replacing each non-overlapping occurrence.  The fuel bounds the
    number of scan steps; [length s] always suffices. *)
Fixpoint replace_fuel (fuel : nat) (old new s : string) : string :=
  match fuel with
  | O => s
  | S fuel' =>
      match drop_prefix old s with
      | Some rest => new ++ replace_fuel fuel' old new rest
      | None =>
          match s with
          | EmptyString => EmptyString
          | String c s' => String c (replace_fuel fuel' old new s')
          end
      end
  end.

Definition replace (old new s : string) : string :=
  replace_fuel (S (String.length s)) old new s.

(** Decimal rendering of an integer, as [str(int)] / an f-string does. *)
Definition of_Z (z : Z) : string := NilZero.string_of_int (Z.to_int z).

End PyStr.

(* ================================================================== *)
(** ** Data model *)

(** A decoded JSON value, which is also what the completion client hands
    back.  Numbers keep their literal. *)
#[warnings="-register-all"]
Inductive json : Type :=
| JNull
| JBool (b : bool)
| JNum (literal : string)
| JStr (s : string)
| JArr (elems : list json)
| JObj (fields : list (string * json)).

(** A tree node: the dictionary with keys ["name"], ["children"], ["path"],
    and the optional keys ["isFile"] (absent on the root) and ["summary"]
    (absent until the summariser has run; the value is whatever the
    completion client returned, a string in all but degenerate replies). *)
#[warnings="-register-all"]
Inductive node : Type :=
  mk_node (name : string) (children : list node) (path : string)
          (isFile : option bool) (summary : option json).

Definition name (n : node) : string :=
  match n with mk_node nm _ _ _ _ => nm end.
Definition children (n : node) : list node :=
  match n with mk_node _ cs _ _ _ => cs end.
Definition path (n : node) : string :=
  match n with mk_node _ _ p _ _ => p end.
Definition isFile (n : node) : option bool :=
  match n with mk_node _ _ _ f _ => f end.
Definition summary (n : node) : option json :=
  match n with mk_node _ _ _ _ s => s end.

(** [node.get("isFile", False)] and the truth value of [node.get("isFile")]. *)
Definition get_isFile (n : node) : bool :=
  match isFile n with Some b => b | None => false end.

Definition set_children (n : node) (cs : list node) : node :=
  mk_node (name n) cs (path n) (isFile n) (summary n).
Definition set_summary (n : node) (s : json) : node :=
  mk_node (name n) (children n) (path n) (isFile n) (Some s).

(** A record of the flat listing: [{"path": ..., "type": ...}]. *)
Record item : Type := mk_item { item_path : string; item_type : string }.

(** Every node of a tree, the node itself first (pre-order). *)
Fixpoint nodes (n : node) : list node :=
  match n with
  | mk_node _ cs _ _ _ =>
      n :: (fix over (l : list node) : list node :=
              match l with
              | [] => []
              | c :: l' => nodes c ++ over l'
              end) cs
  end.

(** Number of nodes of a tree whose [isFile] is true. *)
Definition count_files (n : node) : nat :=
  List.length (filter get_isFile (nodes n)).

(* ================================================================== *)
(** ** Tree Builder: [build_hierarchy] *)

(** The path given to a freshly created child:
    [node["path"] + "/" + p if node["path"] else p]. *)
Definition child_path (parent_path p : string) : string :=
  if PyStr.truthy parent_path then parent_path ++ "/" ++ p else p.

(** [i == len(parts) - 1], where [rest] are the segments after the [i]-th. *)
Definition is_last (rest : list string) : bool :=
  match rest with [] => true | _ :: _ => false end.

(** The inner [for i, p in enumerate(parts)] loop, started at a node whose
    path is [parent_path] and whose children are [cs]; it returns that
    node's children after the walk.  [p :: rest] are the segments still to
    visit.  The first child named [p] is the one [next(...)] finds; a
    node that is found is kept as it is and the walk continues below it, a
    node that is not found is created and appended. *)
Fixpoint walk (ty : string) (parts : list string) (parent_path : string)
         (cs : list node) {struct parts} : list node :=
  match parts with
  | [] => cs
  | p :: rest =>
      (fix find (l : list node) : list node :=
         match l with
         | [] =>
             let cp := child_path parent_path p in
             [mk_node p (walk ty rest cp []) cp
                      (Some (is_last rest && String.eqb ty "blob")) None]
         | c :: l' =>
             if String.eqb (name c) p
             then set_children c (walk ty rest (path c) (children c)) :: l'
             else c :: find l'
         end) cs
  end.

Definition insert_item (root : node) (it : item) : node :=
  set_children root
    (walk (item_type it) (PyStr.split "/" (item_path it)) (path root)
          (children root)).

Definition empty_root : node := mk_node "/" [] "" None None.

Definition build_hierarchy (items : list item) : node :=
  fold_left insert_item items empty_root.

(* ================================================================== *)
(** ** [sort_tree] *)

(** The sort key [(not x.get("isFile", False), x["name"])]. *)
Definition sort_key (x : node) : bool * string :=
  (negb (get_isFile x), name x).

(** Python's [<] on such pairs: the first components decide unless they are
    equal, [False < True]; equal pairs are not below each other. *)
Definition key_lt (a b : bool * string) : bool :=
  if Bool.eqb (fst a) (fst b)
  then if String.eqb (snd a) (snd b) then false
       else String.ltb (snd a) (snd b)
  else negb (fst a) && fst b.

(** [list.sort(key=...)] is a stable sort that only asks [<] of keys.  A
    stable sort has one possible result, so it is modelled by the simplest
    stable sort: insertion, each element placed before the first element
    on its right that is not strictly below it. *)
Fixpoint insert_sorted (x : node) (l : list node) : list node :=
  match l with
  | [] => [x]
  | y :: l' =>
      if key_lt (sort_key y) (sort_key x) then y :: insert_sorted x l'
      else x :: y :: l'
  end.

Fixpoint sort_children (l : list node) : list node :=
  match l with
  | [] => []
  | x :: l' => insert_sorted x (sort_children l')
  end.

(** [sort_tree] sorts a node's children and then visits each child.  The
    recursion is written on the children before they are reordered, which
    is the same list (see [sort_tree_unfold]) because sorting a child's
    own children leaves its key untouched. *)
Fixpoint sort_tree (n : node) : node :=
  match n with
  | mk_node nm cs p f s =>
      mk_node nm
        (sort_children
           ((fix over (l : list node) : list node :=
               match l with
               | [] => []
               | c :: l' => sort_tree c :: over l'
               end) cs))
        p f s
  end.

(* ================================================================== *)
(** ** The pattern language of [re.search] that [parse_github_url] uses *)

Module Re.

(** Only the constructs of the one pattern in the program: literals,
    a negated character class under [+], greedy [?], sequencing and
    named groups. *)
Inductive regex : Type :=
| Eps
| Lit (c : ascii)
| Seq (r1 r2 : regex)
| Opt (r : regex)
| PlusClass (cls : ascii -> bool)
| Group (nm : string) (r : regex).

Definition captures : Type := list (string * string).

(** A literal string, character by character. *)
Fixpoint lits (s : string) : regex :=
  match s with
  | EmptyString => Eps
  | String c s' => Seq (Lit c) (lits s')
  end.

(** The text consumed between an input [s] and a later suffix [rest]. *)
Definition consumed (s rest : string) : string :=
  substring 0 (String.length s - String.length rest) s.

(** Backtracking matcher in continuation-passing style: greedy choices
    are tried first and abandoned when the continuation fails, as the
    [re] engine does. *)
Fixpoint rmatch {R : Type} (r : regex) (s : string) (caps : captures)
         (k : string -> captures -> option R) {struct r} : option R :=
  match r with
  | Eps => k s caps
  | Lit c =>
      match s with
      | String d s' => if Ascii.eqb c d then k s' caps else None
      | EmptyString => None
      end
  | Seq r1 r2 =>
      rmatch r1 s caps (fun s' caps' => rmatch r2 s' caps' k)
  | Opt r1 =>
      match rmatch r1 s caps k with
      | Some x => Some x
      | None => k s caps
      end
  | PlusClass cls =>
      match s with
      | String d s' =>
          if cls d then
            (fix many (t : string) : option R :=
               match t with
               | String e t' =>
                   if cls e then
                     match many t' with
                     | Some x => Some x
                     | None => k t caps
                     end
                   else k t caps
               | EmptyString => k t caps
               end) s'
          else None
      | EmptyString => None
      end
  | Group nm r1 =>
      rmatch r1 s caps
        (fun s' caps' => k s' ((nm, consumed s s') :: caps'))
  end.

(** [re.search]: the match at the leftmost position that has one. *)
Fixpoint search (r : regex) (s : string) : option captures :=
  match rmatch r s [] (fun _ caps => Some caps) with
  | Some caps => Some caps
  | None =>
      match s with
      | EmptyString => None
      | String _ s' => search r s'
      end
  end.

(** [m.group(nm)] *)
Fixpoint group (nm : string) (caps : captures) : option string :=
  match caps with
  | [] => None
  | (n, v) :: caps' => if String.eqb n nm then Some v else group nm caps'
  end.

End Re.

(* ================================================================== *)
(** ** [parse_github_url] *)

(** The class [[^\/\s]]. *)
Definition not_slash_space (c : ascii) : bool :=
  negb (Ascii.eqb c "/") && negb (PyStr.isspace c).

(** [(?:https?:\/\/)?(?:www\.)?github\.com\/(?P<owner>[^\/\s]+)\/(?P<repo>[^\/\s]+)] *)
Definition github_pattern : Re.regex :=
  Re.Seq (Re.Opt (Re.Seq (Re.lits "http")
                    (Re.Seq (Re.Opt (Re.Lit "s")) (Re.lits "://"))))
    (Re.Seq (Re.Opt (Re.lits "www."))
       (Re.Seq (Re.lits "github.com/")
          (Re.Seq (Re.Group "owner" (Re.PlusClass not_slash_space))
             (Re.Seq (Re.Lit "/")
                (Re.Group "repo" (Re.PlusClass not_slash_space)))))).

(** The dictionary [{"owner": ..., "repo": ...}]. *)
Record parsed_url : Type := mk_parsed { owner : string; repo : string }.

Definition parse_github_url (url : string) : option parsed_url :=
  if negb (PyStr.truthy url) then None
  else
    let url := PyStr.replace "github.com:" "github.com/"
                 (PyStr.replace "git@github.com:" "https://github.com/"
                    (PyStr.strip url)) in
    match Re.search github_pattern url with
    | None => None
    | Some m =>
        match Re.group "owner" m, Re.group "repo" m with
        | Some o, Some r => Some (mk_parsed o (PyStr.replace ".git" "" r))
        | _, _ => None
        end
    end.

(* ================================================================== *)
(** ** Exceptions, the outside world and the effect monad *)

(** [HTTPException(status_code, detail)] is the framework's exception; every
    other Python exception is [Exception], carrying its [str()].  For the
    interpreter's own [TypeError] and [AttributeError] the text is
    shortened to the name of the class. *)
Inductive exn : Type :=
| HTTPException (status_code : Z) (detail : string)
| Exception (msg : string).

Inductive outcome (A : Type) : Type :=
| Ok (a : A)
| Raise (e : exn).
Arguments Ok {A} a.
Arguments Raise {A} e.

Record response : Type := mk_response { status : Z; text : string }.

(** [{"role": ..., "content": ...}] *)
Record message : Type := mk_message { role : string; content : string }.

(** Everything [main.py] does not define: the environment variable, the two
    remote services as functions of the request (a transport failure is
    [inr] of the message of the exception it raises) and the library
    routines of [json] and [str]. *)
Record world : Type := mk_world {
  GROQ_API_KEY : option string;
  session_get : string -> response + string;
  session_post : list message -> response + string;
  json_loads : string -> option json;
  json_dumps : json -> string;
  py_str : json -> string
}.

(** One network request, as recorded in the log, tagged with the client
    routine that issued it. *)
Inductive call : Type :=
| FetchJson (url : string)
| FetchText (url : string)
| GroqPost (messages : list message).

(** A computation yields its outcome together with the requests it made,
    in the order it made them. *)
Definition io (A : Type) : Type := (outcome A * list call)%type.

Definition ret {A : Type} (a : A) : io A := (Ok a, []).
Definition raise {A : Type} (e : exn) : io A := (Raise e, []).
Definition bind {A B : Type} (m : io A) (f : A -> io B) : io B :=
  match m with
  | (Ok a, log) => let (o, log') := f a in (o, log ++ log')
  | (Raise e, log) => (Raise e, log)
  end.
Definition lift {A : Type} (o : outcome A) : io A := (o, []).

Notation "x <- m ;; k" := (bind m (fun x => k))
  (at level 61, m at next level, right associativity).

(** [session.get(url)] and [session.post(...)]; [tag] is the log entry. *)
Definition do_get (w : world) (tag : string -> call) (url : string)
  : io response :=
  match session_get w url with
  | inl r => (Ok r, [tag url])
  | inr msg => (Raise (Exception msg), [tag url])
  end.

Definition do_post (w : world) (messages : list message) : io response :=
  match session_post w messages with
  | inl r => (Ok r, [GroqPost messages])
  | inr msg => (Raise (Exception msg), [GroqPost messages])
  end.

(** The status a client sees: 200 for a returned value, the exception's
    own code for [HTTPException], 500 for anything that escapes. *)
Definition http_status {A : Type} (o : outcome A) : Z :=
  match o with
  | Ok _ => 200
  | Raise (HTTPException code _) => code
  | Raise (Exception _) => 500
  end.

(* ------------------------------------------------------------------ *)
(** *** Dictionary and list access on decoded JSON *)

Fixpoint assoc (k : string) (fields : list (string * json)) : option json :=
  match fields with
  | [] => None
  | (k', v) :: fields' => if String.eqb k' k then Some v else assoc k fields'
  end.

(** [d[k]]: [KeyError] on a missing key, [TypeError] when [d] is not a
    dictionary. *)
Definition getitem (d : json) (k : string) : outcome json :=
  match d with
  | JObj fields =>
      match assoc k fields with
      | Some v => Ok v
      | None => Raise (Exception ("'" ++ k ++ "'"))
      end
  | _ => Raise (Exception "TypeError")
  end.

(** [d.get(k, default)]: [AttributeError] when [d] is not a dictionary. *)
Definition dict_get (d : json) (k : string) (default : json) : outcome json :=
  match d with
  | JObj fields =>
      match assoc k fields with
      | Some v => Ok v
      | None => Ok default
      end
  | _ => Raise (Exception "AttributeError")
  end.

Fixpoint chars (s : string) : list json :=
  match s with
  | EmptyString => []
  | String c s' => JStr (String c EmptyString) :: chars s'
  end.

(** [for t in v]: a list yields its elements, a dictionary its keys, a
    string its characters; nothing else is iterable. *)
Definition py_iter (v : json) : outcome (list json) :=
  match v with
  | JArr l => Ok l
  | JObj fields => Ok (map (fun kv => JStr (fst kv)) fields)
  | JStr s => Ok (chars s)
  | _ => Raise (Exception "TypeError")
  end.

Definition str_is (v : json) (s : string) : bool :=
  match v with JStr x => String.eqb x s | _ => false end.

(** How an f-string renders a value. *)
Definition fmt (w : world) (v : json) : string :=
  match v with JStr s => s | _ => py_str w v end.

(* ================================================================== *)
(** ** GitHub client: [fetch_json], [fetch_text] *)

Definition fetch_json (w : world) (url : string) : io json :=
  response <- do_get w FetchJson url ;;
  if (status response >=? 400)%Z then
    raise (HTTPException (status response)
             ("HTTP " ++ PyStr.of_Z (status response) ++ " from " ++ url
              ++ ": " ++ PyStr.take 300 (text response)))
  else
    match json_loads w (text response) with
    | Some v => ret v
    | None => raise (Exception "JSONDecodeError")
    end.

Definition fetch_text (w : world) (url : string) : io (option string) :=
  response <- do_get w FetchText url ;;
  if negb (status response =? 200)%Z then ret None
  else ret (Some (text response)).

(** The truth value of what [fetch_text] returned, as [if txt:] takes it:
    [None] and [""] are falsy. *)
Definition txt_truthy (txt : option string) : bool :=
  match txt with Some t => PyStr.truthy t | None => false end.

(* ================================================================== *)
(** ** LLM client: [get_groq_response] *)

Definition no_key_sentinel : string := "GROQ API key not configured (server).".

(** [not GROQ_API_KEY]: the variable is unset or empty. *)
Definition key_missing (w : world) : bool :=
  match GROQ_API_KEY w with
  | None => true
  | Some k => negb (PyStr.truthy k)
  end.

(** [v[0]] as far as it can succeed on decoded JSON. *)
Definition index0 (v : json) : option json :=
  match v with
  | JArr (x :: _) => Some x
  | JStr (String c _) => Some (JStr (String c EmptyString))
  | _ => None
  end.

Definition key (v : json) (k : string) : option json :=
  match v with JObj fields => assoc k fields | _ => None end.

(** [data["choices"][0]["message"]["content"]], [None] when any step
    raises. *)
Definition reply_content (data : json) : option json :=
  match key data "choices" with
  | None => None
  | Some cs =>
      match index0 cs with
      | None => None
      | Some c =>
          match key c "message" with
          | None => None
          | Some m => key m "content"
          end
      end
  end.

Definition get_groq_response (w : world) (messages : list message) : io json :=
  if key_missing w then ret (JStr no_key_sentinel)
  else
    response <- do_post w messages ;;
    if negb (status response =? 200)%Z then
      ret (JStr ("Error generating response: " ++ PyStr.of_Z (status response)
                 ++ " - " ++ PyStr.take 400 (text response)))
    else
      match json_loads w (text response) with
      | None => raise (Exception "JSONDecodeError")
      | Some data =>
          match reply_content data with
          | Some v => ret v
          | None => ret (JStr (PyStr.take 1000 (json_dumps w data)))
          end
      end.

(* ================================================================== *)
(** ** Summarisation pipeline: [generate_summaries] (results) *)

Definition nl : string := String "010"%char EmptyString.

Definition fetch_failed_summary : string := "Could not fetch file content.".

Definition raw_url (owner repo branch_sha : string) (n : node) : string :=
  "https://raw.githubusercontent.com/" ++ owner ++ "/" ++ repo ++ "/"
  ++ branch_sha ++ "/" ++ path n.

Definition summary_prompt (n : node) (txt : string) : string :=
  "Provide a concise summary of this code file for software engineers. Highlight key functions, imports, and architecture. File: "
  ++ path n ++ nl ++ nl ++ txt.

(** The file branch of [generate_summaries]. *)
Definition summarize_file (w : world) (owner repo branch_sha : string)
           (n : node) : io node :=
  txt <- fetch_text w (raw_url owner repo branch_sha n) ;;
  match txt with
  | Some t =>
      if PyStr.truthy t then
        r <- get_groq_response w [mk_message "user" (summary_prompt n t)] ;;
        ret (set_summary n r)
      else ret (set_summary n (JStr fetch_failed_summary))
  | None => ret (set_summary n (JStr fetch_failed_summary))
  end.

(** What the tree holds once [generate_summaries] has completed.  The
    services answer as functions of the request, so the outcome does not
    depend on how [asyncio.gather] interleaves the children; they are
    taken in list order here, and the first child to raise is the one
    whose exception [gather] is taken to propagate (none of them can raise
    [HTTPException], so the status seen by the client is the same for any
    other choice).  The interleaving itself is modelled in [Schedule]
    below. *)
Fixpoint generate_summaries (w : world) (owner repo branch_sha : string)
         (n : node) {struct n} : io node :=
  match n with
  | mk_node nm cs p f s =>
      if get_isFile n then summarize_file w owner repo branch_sha n
      else
        cs' <- (fix gather (l : list node) : io (list node) :=
                  match l with
                  | [] => ret []
                  | c :: l' =>
                      c' <- generate_summaries w owner repo branch_sha c ;;
                      l'' <- gather l' ;;
                      ret (c' :: l'')
                  end) cs ;;
        ret (set_children n cs')
  end.

(** [asyncio.gather] over the results of [f] on each element, in the same
    sequential reading. *)
Fixpoint gather_with {A B : Type} (f : A -> io B) (l : list A)
  : io (list B) :=
  match l with
  | [] => ret []
  | c :: l' =>
      c' <- f c ;;
      l'' <- gather_with f l' ;;
      ret (c' :: l'')
  end.

(* ================================================================== *)
(** ** Aggregator: [collect_summaries] *)

Definition summary_entry (w : world) (n : node) : string :=
  "File: " ++ path n ++ nl ++ "Summary: "
  ++ match summary n with Some v => fmt w v | None => "N/A" end ++ nl.

Fixpoint traverse (w : world) (n : node) : list string :=
  match n with
  | mk_node _ cs _ _ _ =>
      (if get_isFile n then [summary_entry w n] else [])
      ++ (fix over (l : list node) : list string :=
            match l with
            | [] => []
            | c :: l' => traverse w c ++ over l'
            end) cs
  end.

Definition collect_summaries (w : world) (n : node) : string :=
  String.concat nl (traverse w n).

(* ================================================================== *)
(** ** The endpoint [GET /api/repo]: [get_repo] *)

Record repo_response : Type := mk_repo_response {
  tree : node;
  summaries : string;
  repo_name : string;
  fileCount : nat
}.

(** The comprehension building [blobs]: entries whose ["type"] is
    ["blob"] or ["tree"], each reduced to its ["path"] and ["type"]. *)
Fixpoint blob_records (entries : list json) : outcome (list (json * json)) :=
  match entries with
  | [] => Ok []
  | t :: entries' =>
      match getitem t "type" with
      | Raise e => Raise e
      | Ok ty =>
          if str_is ty "blob" || str_is ty "tree" then
            match getitem t "path" with
            | Raise e => Raise e
            | Ok p =>
                match blob_records entries' with
                | Raise e => Raise e
                | Ok rest => Ok ((p, ty) :: rest)
                end
            end
          else blob_records entries'
      end
  end.

(** [build_hierarchy] calls [item["path"].split("/")], which only a string
    supports; the first record whose path is not one raises. *)
Fixpoint as_items (blobs : list (json * json)) : outcome (list item) :=
  match blobs with
  | [] => Ok []
  | (JStr p, ty) :: blobs' =>
      match as_items blobs' with
      | Raise e => Raise e
      | Ok rest =>
          Ok (mk_item p (match ty with JStr x => x | _ => "" end) :: rest)
      end
  | _ :: _ => Raise (Exception "AttributeError")
  end.

Definition semaphore_capacity : nat := 6.

Definition api (owner repo : string) : string :=
  "https://api.github.com/repos/" ++ owner ++ "/" ++ repo.

(** The first half of the [try] block: the four metadata calls, each
    depending on the one before, down to the recursive tree listing.  The
    tree's SHA is kept for the raw-content URLs. *)
Definition fetch_tree (w : world) (owner repo : string) : io (json * json) :=
  repo_meta <- fetch_json w (api owner repo) ;;
  default_branch <- lift (dict_get repo_meta "default_branch" (JStr "main")) ;;
  ref <- fetch_json w (api owner repo ++ "/git/refs/heads/"
                       ++ fmt w default_branch) ;;
  ref_object <- lift (getitem ref "object") ;;
  commit_sha <- lift (getitem ref_object "sha") ;;
  commit_obj <- fetch_json w (api owner repo ++ "/git/commits/"
                              ++ fmt w commit_sha) ;;
  commit_tree <- lift (getitem commit_obj "tree") ;;
  tree_sha <- lift (getitem commit_tree "sha") ;;
  tree_resp <- fetch_json w (api owner repo ++ "/git/trees/"
                             ++ fmt w tree_sha ++ "?recursive=1") ;;
  ret (tree_sha, tree_resp).

(** The body of the [try] block. *)
Definition get_repo_body (w : world) (owner repo : string) : io repo_response :=
  fetched <- fetch_tree w owner repo ;;
  let tree_sha := fst fetched in
  let tree_resp := snd fetched in
  listing <- lift (dict_get tree_resp "tree" (JArr [])) ;;
  entries <- lift (py_iter listing) ;;
  blobs <- lift (blob_records entries) ;;
  items <- lift (as_items blobs) ;;
  let root := build_hierarchy items in
  root <- generate_summaries w owner repo (fmt w tree_sha) root ;;
  let root := sort_tree root in
  ret (mk_repo_response root (collect_summaries w root)
         (owner ++ "/" ++ repo) (List.length blobs)).

(** [except HTTPException as e: raise e] and
    [except Exception as e: raise HTTPException(500, str(e))]. *)
Definition reraise {A : Type} (m : io A) : io A :=
  match m with
  | (Raise (Exception msg), log) => (Raise (HTTPException 500 msg), log)
  | r => r
  end.

Definition get_repo (w : world) (url : string) : io repo_response :=
  match parse_github_url url with
  | None => raise (HTTPException 400 "Invalid GitHub URL")
  | Some parsed => reraise (get_repo_body w (owner parsed) (repo parsed))
  end.

(* ================================================================== *)
(** ** Summarisation pipeline: how the file tasks interleave *)

(** [asyncio] runs one task at a time and switches only at an [await].
    Every file node reached by [generate_summaries] becomes one task that
    runs lines 117-124; directory tasks only wait in [gather] and touch
    nothing shared.  A state of the event loop records where each file
    task stands, the counter of the semaphore and which tasks hold one of
    its slots.  [asyncio.Semaphore.acquire] proceeds only while the counter
    is positive and decrements it; [release] increments it, also when the
    block is left by an exception. *)
Module Schedule.

(** The file nodes [generate_summaries] starts a fetch for. *)
Fixpoint file_tasks (n : node) : list node :=
  match n with
  | mk_node _ cs _ _ _ =>
      if get_isFile n then [n]
      else (fix over (l : list node) : list node :=
              match l with
              | [] => []
              | c :: l' => file_tasks c ++ over l'
              end) cs
  end.

(** Where a file task stands. *)
Inductive pc : Type :=
| Unvisited                          (* before [async with semaphore] *)
| Fetching                           (* inside: awaiting [fetch_text] *)
| Fetched (txt : option string)      (* [fetch_text] returned, block not yet left *)
| Released (txt : option string)     (* block left, at [if txt] *)
| Summarizing                        (* awaiting [get_groq_response] *)
| Summarized                         (* [node["summary"]] assigned *)
| Failed.                            (* ended by an exception *)

Record state : Type := mk_state {
  value : nat;            (* the semaphore's counter *)
  holders : list nat;     (* tasks inside [async with semaphore] *)
  pcs : list pc           (* one entry per file task *)
}.

Definition initial (capacity : nat) (root : node) : state :=
  mk_state capacity [] (map (fun _ => Unvisited) (file_tasks root)).

Fixpoint set_pc (i : nat) (p : pc) (l : list pc) : list pc :=
  match l, i with
  | [], _ => []
  | _ :: l', O => p :: l'
  | q :: l', S i' => q :: set_pc i' p l'
  end.

Fixpoint remove_holder (i : nat) (l : list nat) : list nat :=
  match l with
  | [] => []
  | j :: l' => if Nat.eqb i j then l' else j :: remove_holder i l'
  end.

(** One scheduling step of task [i]. *)
Inductive step : state -> state -> Prop :=
| step_acquire : forall v h ps i,
    nth_error ps i = Some Unvisited ->
    step (mk_state (S v) h ps)
         (mk_state v (i :: h) (set_pc i Fetching ps))
| step_fetch_returns : forall v h ps i txt,
    nth_error ps i = Some Fetching ->
    step (mk_state v h ps) (mk_state v h (set_pc i (Fetched txt) ps))
| step_release : forall v h ps i txt,
    nth_error ps i = Some (Fetched txt) ->
    step (mk_state v h ps)
         (mk_state (S v) (remove_holder i h) (set_pc i (Released txt) ps))
| step_call_llm : forall v h ps i txt,
    nth_error ps i = Some (Released txt) ->
    txt_truthy txt = true ->
    step (mk_state v h ps) (mk_state v h (set_pc i Summarizing ps))
| step_no_content : forall v h ps i txt,
    nth_error ps i = Some (Released txt) ->
    txt_truthy txt = false ->
    step (mk_state v h ps) (mk_state v h (set_pc i Summarized ps))
| step_llm_returns : forall v h ps i,
    nth_error ps i = Some Summarizing ->
    step (mk_state v h ps) (mk_state v h (set_pc i Summarized ps))
| step_fetch_raises : forall v h ps i,
    nth_error ps i = Some Fetching ->
    step (mk_state v h ps)
         (mk_state (S v) (remove_holder i h) (set_pc i Failed ps))
| step_llm_raises : forall v h ps i,
    nth_error ps i = Some Summarizing ->
    step (mk_state v h ps) (mk_state v h (set_pc i Failed ps)).

Inductive reachable (s0 : state) : state -> Prop :=
| reach_init : reachable s0 s0
| reach_step : forall s s', reachable s0 s -> step s s' -> reachable s0 s'.

Definition is_fetching (p : pc) : bool :=
  match p with Fetching => true | _ => false end.

(** Raw-content fetches in flight. *)
Definition in_flight (s : state) : nat :=
  List.length (filter is_fetching (pcs s)).

Definition holds_slot (s : state) (i : nat) : bool :=
  existsb (Nat.eqb i) (holders s).

(** Program points inside [async with semaphore]. *)
Definition is_holding (p : pc) : bool :=
  match p with Fetching | Fetched _ => true | _ => false end.

(** What the loop maintains: the counter and the tasks inside the block
    add up to the capacity, and the recorded holders are exactly the
    tasks standing inside the block, each once. *)
Definition consistent (capacity : nat) (s : state) : Prop :=
  value s + List.length (filter is_holding (pcs s)) = capacity
  /\ NoDup (holders s)
  /\ forall i, In i (holders s) <->
               exists p, nth_error (pcs s) i = Some p /\ is_holding p = true.

End Schedule.

(* ================================================================== *)
(** ** A small world to run the program in *)

Module Demo.

Definition listing : json :=
  JArr [JObj [("path", JStr "src"); ("type", JStr "tree")];
        JObj [("path", JStr "src/main.py"); ("type", JStr "blob")];
        JObj [("path", JStr "README.md"); ("type", JStr "blob")];
        JObj [("path", JStr "vendor/lib"); ("type", JStr "commit")]].

(** The decoder, on the four bodies the hosting API serves below and on
    the body of the completion API. *)
Definition loads (t : string) : option json :=
  if String.eqb t "<repository>" then
    Some (JObj [("default_branch", JStr "trunk")])
  else if String.eqb t "<ref>" then
    Some (JObj [("object", JObj [("sha", JStr "c0ffee")])])
  else if String.eqb t "<commit>" then
    Some (JObj [("tree", JObj [("sha", JStr "7ee")])])
  else if String.eqb t "<tree>" then
    Some (JObj [("sha", JStr "7ee"); ("tree", listing)])
  else if String.eqb t "<completion>" then
    Some (JObj [("choices",
                 JArr [JObj [("message",
                              JObj [("content", JStr "A summary.")])]])])
  else None.

(** The hosting API of repository [foo/bar]; [readme] and [main_py] are
    what the raw-content host answers for the two files. *)
Definition get (readme main_py : response) (url : string)
  : response + string :=
  if String.eqb url "https://api.github.com/repos/foo/bar" then
    inl (mk_response 200 "<repository>")
  else if String.eqb url
            "https://api.github.com/repos/foo/bar/git/refs/heads/trunk" then
    inl (mk_response 200 "<ref>")
  else if String.eqb url
            "https://api.github.com/repos/foo/bar/git/commits/c0ffee" then
    inl (mk_response 200 "<commit>")
  else if String.eqb url
            "https://api.github.com/repos/foo/bar/git/trees/7ee?recursive=1" then
    inl (mk_response 200 "<tree>")
  else if String.eqb url
            "https://raw.githubusercontent.com/foo/bar/7ee/README.md" then
    inl readme
  else if String.eqb url
            "https://raw.githubusercontent.com/foo/bar/7ee/src/main.py" then
    inl main_py
  else inl (mk_response 404 "Not Found").

Definition world_with (api_key : option string) (readme main_py : response)
  : world :=
  mk_world api_key (get readme main_py)
    (fun _ => inl (mk_response 200 "<completion>"))
    loads (fun _ => "{}") (fun _ => "None").

(** Both files readable, key configured. *)
Definition healthy : world :=
  world_with (Some "secret") (mk_response 200 "# bar")
    (mk_response 200 "print(1)").

(** The same, but [src/main.py] cannot be fetched. *)
Definition one_unreadable : world :=
  world_with (Some "secret") (mk_response 200 "# bar")
    (mk_response 404 "Not Found").

(** No repository [foo/baz] exists: every call for it answers 404. *)
Definition url_missing_repo : string := "https://github.com/foo/baz".
Definition url_bar : string := "https://github.com/foo/bar".

(** A tree with seven files, one more than the semaphore admits. *)
Definition seven_files : node :=
  build_hierarchy
    [mk_item "a" "blob"; mk_item "b" "blob"; mk_item "c" "blob";
     mk_item "d/e" "blob"; mk_item "d/f" "blob"; mk_item "g" "blob";
     mk_item "h" "blob"].

End Demo.

(* ================================================================== *)
(** ** Predicates the properties are stated with *)

(** [key_le x y]: [y] is not strictly below [x]. *)
Definition key_le (x y : node) : Prop :=
  key_lt (sort_key y) (sort_key x) = false.

(** Every child that is a file stands before every child that is not. *)
Definition files_before_dirs (cs : list node) : Prop :=
  forall i j ci cj,
    nth_error cs i = Some ci -> nth_error cs j = Some cj ->
    get_isFile ci = true -> get_isFile cj = false -> i < j.

(** Every child that is not a file stands before every child that is. *)
Definition dirs_before_files (cs : list node) : Prop :=
  forall i j ci cj,
    nth_error cs i = Some ci -> nth_error cs j = Some cj ->
    get_isFile ci = false -> get_isFile cj = true -> i < j.

(** Among the files, and among the directories, names never decrease. *)
Definition names_sorted_in_groups (cs : list node) : Prop :=
  forall i j ci cj,
    i < j -> nth_error cs i = Some ci -> nth_error cs j = Some cj ->
    get_isFile ci = get_isFile cj ->
    String.leb (name ci) (name cj) = true.

Definition directories_first (t : node) : Prop :=
  forall n, In n (nodes t) -> get_isFile n = false ->
    dirs_before_files (children n) /\ names_sorted_in_groups (children n).

Definition files_first (t : node) : Prop :=
  forall n, In n (nodes t) -> get_isFile n = false ->
    files_before_dirs (children n) /\ names_sorted_in_groups (children n).

(** The shape the data model asks of a tree: file nodes are leaves, the
    root has the empty path and no [isFile] set. *)
Definition files_are_leaves (t : node) : Prop :=
  forall n, In n (nodes t) -> isFile n = Some true -> children n = [].

Definition root_shape (t : node) : Prop :=
  path t = "" /\ (isFile t = None \/ isFile t = Some false).

Definition tree_invariant (t : node) : Prop :=
  files_are_leaves t /\ root_shape t.

Definition segments (it : item) : list string :=
  PyStr.split "/" (item_path it).

(** [a] is a strict prefix of [b]: the directory [a] lies above [b]. *)
Fixpoint proper_prefix (a b : list string) : bool :=
  match a, b with
  | [], _ :: _ => true
  | x :: a', y :: b' => String.eqb x y && proper_prefix a' b'
  | _, _ => false
  end.

(** No record of type ["blob"] names a path that a later record lies
    below.  A listing of a git tree always is like this: a path names
    either a blob or a tree. *)
Fixpoint no_blob_above_later (items : list item) : bool :=
  match items with
  | [] => true
  | it :: rest =>
      (negb (String.eqb (item_type it) "blob")
       || forallb (fun jt => negb (proper_prefix (segments it) (segments jt)))
            rest)
      && no_blob_above_later rest
  end.

(** Every segment of [parts] is found when walking down from [cs]. *)
Fixpoint has_path (parts : list string) (cs : list node) {struct parts}
  : bool :=
  match parts with
  | [] => true
  | p :: rest =>
      (fix find (l : list node) : bool :=
         match l with
         | [] => false
         | c :: l' =>
             if String.eqb (name c) p then has_path rest (children c)
             else find l'
         end) cs
  end.

(** No two siblings share a name, anywhere in the forest. *)
Inductive distinct_names : list node -> Prop :=
| distinct_nil : distinct_names []
| distinct_cons : forall c cs,
    ~ In (name c) (map name cs) ->
    distinct_names (children c) ->
    distinct_names cs ->
    distinct_names (c :: cs).

(** Equality of sort keys. *)
Definition key_eqb (a b : bool * string) : bool :=
  Bool.eqb (fst a) (fst b) && String.eqb (snd a) (snd b).

(** [leaves_below F cs]: in the forest [cs], a file node has no children
    and its address (the names from the top of [cs] down to it) is in
    [F]. *)
Inductive leaves_below : (list string -> Prop) -> list node -> Prop :=
| leaves_nil : forall F, leaves_below F []
| leaves_cons : forall F c cs,
    (get_isFile c = true -> children c = [] /\ F [name c]) ->
    leaves_below (fun a => F (name c :: a)) (children c) ->
    leaves_below F cs ->
    leaves_below F (c :: cs).

(** A world that differs from [w] in what [session.get] answers. *)
Definition with_session_get (w : world) (get' : string -> response + string)
  : world :=
  mk_world (GROQ_API_KEY w) get' (session_post w) (json_loads w)
           (json_dumps w) (py_str w).

(** URLs of the raw-content host. *)
Definition is_raw_url (u : string) : bool :=
  String.prefix "https://raw.githubusercontent.com/" u.

(** The detail [fetch_json] attaches to an upstream failure. *)
Definition upstream_detail (u : string) (r : response) : string :=
  "HTTP " ++ PyStr.of_Z (status r) ++ " from " ++ u ++ ": "
  ++ PyStr.take 300 (text r).

(** The ["type"] of an entry of the recursive listing. *)
Definition entry_has_type (ty : string) (e : json) : bool :=
  match getitem e "type" with
  | Ok v => str_is v ty
  | Raise _ => false
  end.

Definition is_blob_or_tree (e : json) : bool :=
  entry_has_type "blob" e || entry_has_type "tree" e.

(** An outcome that is not a raised [HTTPException]. *)
Definition plain {A : Type} (o : outcome A) : Prop :=
  forall code detail, o <> Raise (HTTPException code detail).

(** A computation that raises no [HTTPException] and issues no
    [fetch_json] request. *)
Definition quiet {A : Type} (m : io A) : Prop :=
  plain (fst m) /\ forall u, ~ In (FetchJson u) (snd m).

(** Every [HTTPException] the computation raises reports an upstream
    answer with status 400 or above, with that status and that body. *)
Definition raises_only_upstream (w : world) {A : Type} (m : io A) : Prop :=
  forall code detail,
    fst m = Raise (HTTPException code detail) ->
    exists u resp,
      In (FetchJson u) (snd m) /\ session_get w u = inl resp
      /\ (status resp >= 400)%Z
      /\ code = status resp /\ detail = upstream_detail u resp.

(** Every [fetch_json] request answered with status 400 or above makes the
    computation raise [HTTPException] with that status and that body. *)
Definition upstream_fatal (w : world) {A : Type} (m : io A) : Prop :=
  forall u resp,
    In (FetchJson u) (snd m) -> session_get w u = inl resp ->
    (status resp >= 400)%Z ->
    fst m = Raise (HTTPException (status resp) (upstream_detail u resp)).

(** The computation returns a value. *)
Definition succeeds {A : Type} (m : io A) : Prop := exists a, fst m = Ok a.

Definition disciplined (w : world) {A : Type} (m : io A) : Prop :=
  raises_only_upstream w m /\ upstream_fatal w m.

(** File nodes in a forest. *)
Definition files_in (cs : list node) : nat := list_sum (map count_files cs).

Definition is_blob_item (it : item) : bool := String.eqb (item_type it) "blob".

Definition is_blob_record (b : json * json) : bool := str_is (snd b) "blob".

(** Well-formed owner and repository names: letters, digits, [-], [_]
    and [.], at least one character. *)
Definition name_char (c : ascii) : bool :=
  let n := nat_of_ascii c in
  (Nat.leb 48 n && Nat.leb n 57) || (Nat.leb 65 n && Nat.leb n 90)
  || (Nat.leb 97 n && Nat.leb n 122)
  || Nat.eqb n 45 || Nat.eqb n 95 || Nat.eqb n 46.

Fixpoint all_chars (f : ascii -> bool) (s : string) : bool :=
  match s with
  | EmptyString => true
  | String c s' => f c && all_chars f s'
  end.

Definition valid_name (s : string) : bool :=
  PyStr.truthy s && all_chars name_char s.

(** [old] occurs somewhere in [s]. *)
Fixpoint occurs (old s : string) : bool :=
  match PyStr.drop_prefix old s with
  | Some _ => true
  | None =>
      match s with
      | EmptyString => false
      | String _ s' => occurs old s'
      end
  end.

Fixpoint char_in (c : ascii) (s : string) : bool :=
  match s with
  | EmptyString => false
  | String d s' => Ascii.eqb c d || char_in c s'
  end.

(** What [sort_tree] leaves alone in a node. *)
Definition label (n : node) : string * string * option bool * option json :=
  (name n, path n, isFile n, summary n).

(** The node a path leads to: the walk of [build_hierarchy] without the
    creation of nodes. *)
Fixpoint find_node (parts : list string) (cs : list node) {struct parts}
  : option node :=
  match parts with
  | [] => None
  | p :: rest =>
      (fix find (l : list node) : option node :=
         match l with
         | [] => None
         | c :: l' =>
             if String.eqb (name c) p
             then match rest with
                  | [] => Some c
                  | _ :: _ => find_node rest (children c)
                  end
             else find l'
         end) cs
  end.

(** Below a node whose path is [pp], every node's path is made from its
    parent's path and its own name as [build_hierarchy] makes it. *)
Inductive paths_below : string -> list node -> Prop :=
| paths_nil : forall pp, paths_below pp []
| paths_cons : forall pp c cs,
    path c = child_path pp (name c) ->
    paths_below (path c) (children c) ->
    paths_below pp cs ->
    paths_below pp (c :: cs).

(** Kinds of requests in a log. *)
Definition is_fetch_json (c : call) : bool :=
  match c with FetchJson _ => true | _ => false end.
Definition is_fetch_text (c : call) : bool :=
  match c with FetchText _ => true | _ => false end.
Definition is_groq_post (c : call) : bool :=
  match c with GroqPost _ => true | _ => false end.

(** The raw-content URL of a file, from its path. *)
Definition raw_url_of_path (owner repo branch_sha p : string) : string :=
  "https://raw.githubusercontent.com/" ++ owner ++ "/" ++ repo ++ "/"
  ++ branch_sha ++ "/" ++ p.

(** No more LLM calls than raw-content fetches. *)
Definition posts_within_fetches {A : Type} (m : io A) : Prop :=
  List.length (filter is_groq_post (snd m))
  <= List.length (filter is_fetch_text (snd m)).

(** [P] holds of every node of the forest. *)
Inductive forest_all (P : node -> Prop) : list node -> Prop :=
| forest_nil : forest_all P []
| forest_cons : forall c cs,
    P c -> forest_all P (children c) -> forest_all P cs ->
    forest_all P (c :: cs).

(* ================================================================== *)
(** ** The endpoints [POST /api/chat] and [POST /api/summary] *)

(** [str(e)]: the message of a plain exception; for [HTTPException] the
    framework prints the status code, a colon and the detail. *)
Definition exn_str (e : exn) : string :=
  match e with
  | Exception msg => msg
  | HTTPException code detail => PyStr.of_Z code ++ ": " ++ detail
  end.

(** [except Exception as e: raise HTTPException(status_code=500,
    detail=str(e))], with no clause before it: every exception is
    caught. *)
Definition catch_all {A : Type} (m : io A) : io A :=
  match m with
  | (Raise e, log) => (Raise (HTTPException 500 (exn_str e)), log)
  | r => r
  end.

(** The dictionary [{"content": response}]. *)
Record content_response : Type := mk_content { reply : json }.

(** [request.messages], each turned into its dictionary, are the
    [message] records themselves. *)
Definition chat_completion (w : world) (messages : list message)
  : io content_response :=
  catch_all (response <- get_groq_response w messages ;;
             ret (mk_content response)).

(** [body.get(k, default)] on the request body, which the framework has
    checked to be a dictionary. *)
Definition body_get (body : list (string * json)) (k : string)
           (default : json) : json :=
  match assoc k body with Some v => v | None => default end.

Definition overview_prompt (w : world) (body : list (string * json))
  : string :=
  let tree_str := json_dumps w (body_get body "tree" (JObj [])) in
  let summaries_str := body_get body "summaries" (JStr "") in
  "Provide a professional overview of this repository. Analyze structure, tech stack, key components, and suggestions. Repo structure:"
  ++ nl ++ tree_str ++ nl ++ "Summaries:" ++ nl ++ fmt w summaries_str.

Definition generate_summary (w : world) (body : list (string * json))
  : io content_response :=
  let prompt := overview_prompt w body in
  catch_all (response <- get_groq_response w [mk_message "user" prompt] ;;
             ret (mk_content response)).

(** The text [get_groq_response] returns for an answer whose status is not
    200. *)
Definition provider_error_text (resp : response) : string :=
  "Error generating response: " ++ PyStr.of_Z (status resp) ++ " - "
  ++ PyStr.take 400 (text resp).

(** The provider answered, and not with a 200 whose body fails to
    decode. *)
Definition provider_answer_usable (w : world) (messages : list message)
  : Prop :=
  exists resp,
    session_post w messages = inl resp
    /\ (status resp <> 200%Z \/ json_loads w (text resp) <> None).

(* ================================================================== *)
(** ** Runs of the event loop *)

Module Run.
Import Schedule.

(** A task that will not run again. *)
Definition finished (p : pc) : bool :=
  match p with Summarized | Failed => true | _ => false end.

(** The number of steps a task can still take, at most. *)
Definition rank (p : pc) : nat :=
  match p with
  | Unvisited => 5
  | Fetching => 4
  | Fetched _ => 3
  | Released _ => 2
  | Summarizing => 1
  | Summarized => 0
  | Failed => 0
  end.

Definition weight (s : state) : nat := list_sum (map rank (pcs s)).

(** [reachable_in s0 n s]: [s] is reached from [s0] in [n] steps. *)
Inductive reachable_in (s0 : state) : nat -> state -> Prop :=
| reach_zero : reachable_in s0 0 s0
| reach_next : forall n s s',
    reachable_in s0 n s -> step s s' -> reachable_in s0 (S n) s'.

End Run.

(* ================================================================== *)
(** ** Patterns without groups *)

(** The pattern holds no capture group. *)
Fixpoint captures_nothing (r : Re.regex) : bool :=
  match r with
  | Re.Eps | Re.Lit _ | Re.PlusClass _ => true
  | Re.Seq r1 r2 => captures_nothing r1 && captures_nothing r2
  | Re.Opt r1 => captures_nothing r1
  | Re.Group _ _ => false
  end.

(* ================================================================== *)
(** ** Raw-content requests that raise *)

(** The computation raises a plain exception if it has requested the raw
    content at [u]. *)
Definition stops_at (u : string) {A : Type} (m : io A) : Prop :=
  In (FetchText u) (snd m) -> exists msg, fst m = Raise (Exception msg).

(* ================================================================== *)
(** * Properties *)

(** ** Trees: induction and unfolding *)

Section NodeInduction.

Variable P : node -> Prop.
Hypothesis step :
  forall nm cs p f s, Forall P cs -> P (mk_node nm cs p f s).

Fixpoint node_induction (n : node) : P n :=
  match n with
  | mk_node nm cs p f s =>
      step nm cs p f s
        ((fix all (l : list node) : Forall P l :=
            match l with
            | [] => Forall_nil P
            | c :: l' => Forall_cons c (node_induction c) (all l')
            end) cs)
  end.

End NodeInduction.

Lemma nodes_unfold (n : node) :
  nodes n = n :: flat_map nodes (children n).
Proof.
  destruct n as [nm cs p f s]; reflexivity.
Qed.

Lemma sort_tree_children (n : node) :
  children (sort_tree n) = sort_children (map sort_tree (children n)).
Proof.
  destruct n as [nm cs p f s]; reflexivity.
Qed.

Lemma sort_tree_fields (n : node) :
  name (sort_tree n) = name n /\ path (sort_tree n) = path n
  /\ isFile (sort_tree n) = isFile n /\ summary (sort_tree n) = summary n.
Proof. destruct n; simpl; auto. Qed.

Lemma sort_tree_key (n : node) : sort_key (sort_tree n) = sort_key n.
Proof. destruct n; reflexivity. Qed.

Lemma insert_sorted_map (f : node -> node) :
  (forall x, sort_key (f x) = sort_key x) ->
  forall x l, map f (insert_sorted x l) = insert_sorted (f x) (map f l).
Proof.
  intros Hf x l. induction l as [|y l IH]; simpl; [reflexivity|].
  rewrite !Hf. destruct (key_lt (sort_key y) (sort_key x)); simpl.
  - now rewrite IH.
  - reflexivity.
Qed.

Lemma sort_children_map (f : node -> node) :
  (forall x, sort_key (f x) = sort_key x) ->
  forall l, map f (sort_children l) = sort_children (map f l).
Proof.
  intros Hf l. induction l as [|x l IH]; simpl; [reflexivity|].
  now rewrite insert_sorted_map, IH.
Qed.

(** The source's order of work: sort the children, then visit each. *)
Lemma sort_tree_unfold (n : node) :
  sort_tree n =
  mk_node (name n) (map sort_tree (sort_children (children n)))
          (path n) (isFile n) (summary n).
Proof.
  rewrite (sort_children_map sort_tree sort_tree_key).
  rewrite <- sort_tree_children.
  destruct n; reflexivity.
Qed.

(** ** The order of sort keys *)

Lemma ltb_irrefl (a : string) : String.ltb a a = false.
Proof.
  pose proof (proj2 (String_as_OT.cmp_eq a a) eq_refl) as H.
  unfold String_as_OT.cmp in H. unfold String.ltb. now rewrite H.
Qed.

Lemma ltb_asym (a b : string) :
  String.ltb a b = true -> String.ltb b a = false.
Proof.
  unfold String.ltb. rewrite (String.compare_antisym b a).
  destruct (String.compare a b); simpl; congruence.
Qed.

Lemma ltb_lt (a b : string) :
  String.ltb a b = true <-> String_as_OT.lt a b.
Proof.
  rewrite <- String_as_OT.cmp_lt. unfold String.ltb, String_as_OT.cmp.
  destruct (String.compare a b); split; congruence.
Qed.

(** "Not below" is transitive: the order is total. *)
Lemma not_ltb_trans (a b c : string) :
  String.ltb b a = false -> String.ltb c b = false -> String.ltb c a = false.
Proof.
  intros Hba Hcb.
  destruct (String.ltb c a) eqn:Hca; [exfalso | reflexivity].
  apply ltb_lt in Hca.
  destruct (String.compare c b) eqn:Hcmp.
  - apply String_as_OT.cmp_eq in Hcmp. subst c.
    apply ltb_lt in Hca. congruence.
  - unfold String.ltb in Hcb. rewrite Hcmp in Hcb. discriminate.
  - assert (Hbc : String_as_OT.lt b c).
    { apply String_as_OT.cmp_lt. unfold String_as_OT.cmp.
      rewrite String.compare_antisym, Hcmp. reflexivity. }
    pose proof (String_as_OT.lt_trans _ _ _ Hbc Hca) as Hlt.
    apply ltb_lt in Hlt. congruence.
Qed.

Lemma key_lt_strings (f : bool) (a b : string) :
  key_lt (f, a) (f, b) = String.ltb a b.
Proof.
  unfold key_lt; simpl. rewrite Bool.eqb_reflx.
  destruct (String.eqb_spec a b) as [->|]; [|reflexivity].
  now rewrite ltb_irrefl.
Qed.

Lemma key_lt_asym (a b : bool * string) :
  key_lt a b = true -> key_lt b a = false.
Proof.
  destruct a as [fa sa], b as [fb sb].
  destruct fa, fb; try (rewrite !key_lt_strings; apply ltb_asym);
    unfold key_lt; simpl; congruence.
Qed.

Lemma key_not_lt_trans (a b c : bool * string) :
  key_lt b a = false -> key_lt c b = false -> key_lt c a = false.
Proof.
  destruct a as [fa sa], b as [fb sb], c as [fc sc].
  destruct fa, fb, fc;
    try (rewrite !key_lt_strings; apply not_ltb_trans);
    unfold key_lt; simpl; congruence.
Qed.

(** ** [sort_children] sorts *)

Lemma insert_sorted_In (x y : node) (l : list node) :
  In y (insert_sorted x l) <-> y = x \/ In y l.
Proof.
  induction l as [|z l IH]; simpl.
  - intuition congruence.
  - destruct (key_lt (sort_key z) (sort_key x)); simpl; rewrite ?IH;
      intuition congruence.
Qed.

Lemma sort_children_In (y : node) (l : list node) :
  In y (sort_children l) <-> In y l.
Proof.
  induction l as [|x l IH]; simpl; [tauto|].
  rewrite insert_sorted_In, IH. intuition congruence.
Qed.

Lemma insert_sorted_sorted (x : node) (l : list node) :
  StronglySorted key_le l -> StronglySorted key_le (insert_sorted x l).
Proof.
  induction 1 as [|y l Hl IH Hy]; simpl.
  - repeat constructor.
  - destruct (key_lt (sort_key y) (sort_key x)) eqn:Hyx.
    + constructor; [exact IH|].
      apply Forall_forall. intros z Hz.
      apply (proj1 (insert_sorted_In _ _ _)) in Hz. destruct Hz as [->|Hz].
      * unfold key_le. now apply key_lt_asym.
      * rewrite Forall_forall in Hy. now apply Hy.
    + constructor; [now constructor|].
      constructor; [exact Hyx|].
      rewrite Forall_forall in Hy |- *. intros z Hz.
      unfold key_le in *. eapply key_not_lt_trans; [exact Hyx | now apply Hy].
Qed.

Lemma sort_children_sorted (l : list node) :
  StronglySorted key_le (sort_children l).
Proof.
  induction l as [|x l IH]; simpl; [constructor|].
  now apply insert_sorted_sorted.
Qed.

(** The sort is stable: the nodes with a given key keep their order. *)
Lemma key_lt_same (a b : bool * string) :
  key_eqb a b = true -> key_lt a b = false.
Proof.
  destruct a as [fa sa], b as [fb sb]. unfold key_eqb; simpl.
  intros H. apply andb_true_iff in H. destruct H as [Hf Hs].
  apply Bool.eqb_prop in Hf. apply String.eqb_eq in Hs. subst.
  rewrite key_lt_strings. apply ltb_irrefl.
Qed.

Lemma key_eqb_trans (a b c : bool * string) :
  key_eqb a c = true -> key_eqb b c = true -> key_eqb a b = true.
Proof.
  destruct a as [fa sa], b as [fb sb], c as [fc sc]. unfold key_eqb; simpl.
  intros H1 H2. apply andb_true_iff in H1, H2.
  destruct H1 as [Hf1 Hs1], H2 as [Hf2 Hs2].
  apply Bool.eqb_prop in Hf1, Hf2. apply String.eqb_eq in Hs1, Hs2. subst.
  now rewrite Bool.eqb_reflx, String.eqb_refl.
Qed.

Lemma insert_sorted_stable (k : bool * string) (x : node) (l : list node) :
  filter (fun y => key_eqb (sort_key y) k) (insert_sorted x l)
  = filter (fun y => key_eqb (sort_key y) k) (x :: l).
Proof.
  induction l as [|y l IH]; [reflexivity|].
  cbn [insert_sorted].
  destruct (key_lt (sort_key y) (sort_key x)) eqn:Hlt; [|reflexivity].
  cbn [filter] in *. rewrite IH.
  destruct (key_eqb (sort_key x) k) eqn:Ex; [|reflexivity].
  destruct (key_eqb (sort_key y) k) eqn:Ey; [|reflexivity].
  rewrite (key_lt_same _ _ (key_eqb_trans _ _ _ Ey Ex)) in Hlt.
  discriminate.
Qed.

Lemma sort_children_stable (k : bool * string) (l : list node) :
  filter (fun y => key_eqb (sort_key y) k) (sort_children l)
  = filter (fun y => key_eqb (sort_key y) k) l.
Proof.
  induction l as [|x l IH]; [reflexivity|].
  cbn [sort_children]. rewrite insert_sorted_stable.
  cbn [filter]. now rewrite IH.
Qed.

Lemma StronglySorted_nth_error {A : Type} (R : A -> A -> Prop) (l : list A) :
  StronglySorted R l ->
  forall i j a b, i < j ->
    nth_error l i = Some a -> nth_error l j = Some b -> R a b.
Proof.
  induction 1 as [|x l Hl IH Hx]; intros i j a b Hij Hi Hj.
  - destruct i; discriminate.
  - destruct j as [|j]; [lia|]. simpl in Hj.
    destruct i as [|i]; simpl in Hi.
    + injection Hi as <-. rewrite Forall_forall in Hx.
      apply Hx. eapply nth_error_In; eassumption.
    + apply (IH i j); [lia | assumption | assumption].
Qed.

Lemma sorted_files_before_dirs (cs : list node) :
  StronglySorted key_le cs -> files_before_dirs cs.
Proof.
  intros Hs i j ci cj Hi Hj Hfi Hfj.
  destruct (Nat.lt_trichotomy i j) as [H|[H|H]]; [exact H | exfalso ..].
  - subst j. rewrite Hi in Hj. injection Hj as <-. congruence.
  - pose proof (StronglySorted_nth_error _ _ Hs j i cj ci H Hj Hi) as Hle.
    unfold key_le, key_lt, sort_key in Hle; simpl in Hle.
    rewrite Hfi, Hfj in Hle. discriminate.
Qed.

Lemma sorted_names_in_groups (cs : list node) :
  StronglySorted key_le cs -> names_sorted_in_groups cs.
Proof.
  intros Hs i j ci cj Hij Hi Hj Hf.
  pose proof (StronglySorted_nth_error _ _ Hs i j ci cj Hij Hi Hj) as Hle.
  unfold key_le, sort_key in Hle. rewrite Hf, key_lt_strings in Hle.
  unfold String.ltb in Hle. unfold String.leb.
  rewrite String.compare_antisym.
  destruct (String.compare (name cj) (name ci)); simpl; congruence.
Qed.

Lemma nodes_sort_tree (t n : node) :
  In n (nodes (sort_tree t)) -> exists m, n = sort_tree m.
Proof.
  revert n. induction t as [nm cs p f s IH] using node_induction.
  intros n Hn. rewrite nodes_unfold in Hn. destruct Hn as [<-|Hn].
  - eexists; reflexivity.
  - rewrite sort_tree_children in Hn. apply in_flat_map in Hn.
    destruct Hn as [c [Hc Hn]]. apply (proj1 (sort_children_In _ _)) in Hc.
    apply in_map_iff in Hc. destruct Hc as [c0 [<- Hc0]].
    rewrite Forall_forall in IH. exact (IH c0 Hc0 n Hn).
Qed.

(** C1 (as the code has it): after [sort_tree], in every directory node
    the children that are files come first and the directories after them,
    and within each of the two groups the names are in non-decreasing
    lexicographic order. *)
Theorem sort_tree_files_first (t : node) : files_first (sort_tree t).
Proof.
  intros n Hn _. apply nodes_sort_tree in Hn. destruct Hn as [m ->].
  rewrite sort_tree_children.
  split; [apply sorted_files_before_dirs | apply sorted_names_in_groups];
    apply sort_children_sorted.
Qed.

Lemma sort_tree_files_first_witness :
  let t := sort_tree (build_hierarchy [mk_item "docs" "tree";
                                       mk_item "docs/b.md" "blob";
                                       mk_item "docs/a.md" "blob";
                                       mk_item "README.md" "blob"]) in
  In t (nodes t) /\ get_isFile t = false
  /\ files_before_dirs (children t)
  /\ names_sorted_in_groups (children t).
Proof.
  intros t.
  assert (Hin : In t (nodes t)) by (left; reflexivity).
  split; [exact Hin|]. split; [reflexivity|].
  exact (sort_tree_files_first _ t Hin eq_refl).
Defined.

(** C1 fails as stated: a directory ["docs"] listed before a file
    ["README.md"] ends up after it, so directories are not first. *)
Lemma sort_tree_not_directories_first :
  ~ directories_first
      (sort_tree (build_hierarchy [mk_item "docs" "tree";
                                   mk_item "README.md" "blob"])).
Proof.
  intros H.
  destruct (H _ (or_introl eq_refl) eq_refl) as [Hd _].
  specialize (Hd 1 0 _ _ eq_refl eq_refl eq_refl eq_refl). lia.
Qed.

(** ** The walk of [build_hierarchy], equation by equation *)

Lemma walk_nil ty pp cs : walk ty [] pp cs = cs.
Proof. reflexivity. Qed.

Lemma walk_new ty p rest pp :
  walk ty (p :: rest) pp [] =
  [mk_node p (walk ty rest (child_path pp p) []) (child_path pp p)
           (Some (is_last rest && String.eqb ty "blob")) None].
Proof. reflexivity. Qed.

Lemma walk_scan ty p rest pp c l :
  walk ty (p :: rest) pp (c :: l) =
  if String.eqb (name c) p
  then set_children c (walk ty rest (path c) (children c)) :: l
  else c :: walk ty (p :: rest) pp l.
Proof. reflexivity. Qed.

Lemma has_path_scan p rest c l :
  has_path (p :: rest) (c :: l) =
  if String.eqb (name c) p then has_path rest (children c)
  else has_path (p :: rest) l.
Proof. reflexivity. Qed.

Lemma set_children_same (n : node) : set_children n (children n) = n.
Proof. destruct n; reflexivity. Qed.

Lemma fold_insert_root_shape (items : list item) (root : node) :
  path (fold_left insert_item items root) = path root
  /\ isFile (fold_left insert_item items root) = isFile root.
Proof.
  revert root. induction items as [|it items IH]; intros root; simpl.
  - auto.
  - destruct (IH (insert_item root it)) as [-> ->]. destruct root; auto.
Qed.

(** ** Duplicate paths *)

Lemma walk_existing_path ty parts :
  forall pp cs, has_path parts cs = true -> walk ty parts pp cs = cs.
Proof.
  induction parts as [|p rest IH]; intros pp cs H; [reflexivity|].
  induction cs as [|c l IHl]; [discriminate|].
  rewrite has_path_scan in H. rewrite walk_scan.
  destruct (String.eqb (name c) p).
  - rewrite (IH _ _ H). now rewrite set_children_same.
  - now rewrite (IHl H).
Qed.

Lemma has_path_after_walk ty parts :
  forall pp cs, has_path parts (walk ty parts pp cs) = true.
Proof.
  induction parts as [|p rest IH]; intros pp cs; [reflexivity|].
  induction cs as [|c l IHl].
  - rewrite walk_new, has_path_scan. simpl name. rewrite String.eqb_refl.
    apply IH.
  - rewrite walk_scan. destruct (String.eqb (name c) p) eqn:E.
    + rewrite has_path_scan. simpl name. destruct c; simpl in *.
      rewrite E. apply IH.
    + rewrite has_path_scan, E. exact IHl.
Qed.

Lemma has_path_kept ty parts :
  forall parts' pp cs,
    has_path parts cs = true ->
    has_path parts (walk ty parts' pp cs) = true.
Proof.
  induction parts as [|p rest IH]; intros parts' pp cs H; [reflexivity|].
  destruct parts' as [|q rest']; [exact H|].
  induction cs as [|c l IHl]; [discriminate|].
  rewrite has_path_scan in H. rewrite walk_scan.
  destruct (String.eqb (name c) q) eqn:Eq.
  - rewrite has_path_scan. destruct c as [nm cs' pc f s]; simpl in *.
    destruct (String.eqb nm p); [now apply IH | exact H].
  - rewrite has_path_scan.
    destruct (String.eqb (name c) p); [exact H | now apply IHl].
Qed.

Lemma has_path_fold (parts : list string) (items : list item) :
  forall root,
    has_path parts (children root) = true ->
    has_path parts (children (fold_left insert_item items root)) = true.
Proof.
  induction items as [|it items IH]; intros root H; simpl; [exact H|].
  apply IH. unfold insert_item. simpl children. now apply has_path_kept.
Qed.

Lemma insert_existing (root : node) (it : item) :
  has_path (segments it) (children root) = true ->
  insert_item root it = root.
Proof.
  intros H. unfold insert_item. fold (segments it).
  rewrite (walk_existing_path _ _ _ _ H). apply set_children_same.
Qed.

Lemma build_prefix_has_path (l1 l2 : list item) (it : item) :
  has_path (segments it)
    (children (build_hierarchy (l1 ++ it :: l2))) = true.
Proof.
  unfold build_hierarchy. rewrite fold_left_app. simpl.
  apply has_path_fold. unfold insert_item. simpl children.
  apply has_path_after_walk.
Qed.

Lemma walk_names ty p rest pp (cs : list node) (x : string) :
  In x (map name (walk ty (p :: rest) pp cs)) ->
  x = p \/ In x (map name cs).
Proof.
  induction cs as [|c l IH].
  - rewrite walk_new. simpl. intros [H|[]]. now left.
  - rewrite walk_scan. destruct (String.eqb (name c) p).
    + destruct c; simpl. tauto.
    + simpl. intros [H|H]; [tauto|]. destruct (IH H); tauto.
Qed.

Lemma walk_distinct_names ty (parts : list string) :
  forall pp cs, distinct_names cs -> distinct_names (walk ty parts pp cs).
Proof.
  induction parts as [|p rest IH]; intros pp cs Hcs; [exact Hcs|].
  induction Hcs as [|c l Hc Hkids _ Hl IHl].
  - rewrite walk_new. constructor; simpl.
    + tauto.
    + apply IH. constructor.
    + constructor.
  - rewrite walk_scan. destruct (String.eqb_spec (name c) p) as [Hn|Hn].
    + constructor.
      * destruct c; exact Hc.
      * destruct c; simpl. now apply IH.
      * exact Hl.
    + constructor; [|exact Hkids | exact IHl].
      intros Hin. apply walk_names in Hin. destruct Hin; [congruence | auto].
Qed.

Lemma build_distinct_names (items : list item) :
  forall root,
    distinct_names (children root) ->
    distinct_names (children (fold_left insert_item items root)).
Proof.
  induction items as [|it items IH]; intros root H; simpl; [exact H|].
  apply IH. unfold insert_item. simpl children.
  now apply walk_distinct_names.
Qed.

Lemma distinct_names_NoDup (cs : list node) :
  distinct_names cs -> NoDup (map name cs).
Proof. induction 1; simpl; now constructor. Qed.

Lemma distinct_names_nodes (cs : list node) :
  distinct_names cs ->
  forall c n, In c cs -> In n (nodes c) -> NoDup (map name (children n)).
Proof.
  induction 1 as [|c cs Hc Hkids IHkids Hcs IHcs]; intros c0 n Hc0 Hn.
  - destruct Hc0.
  - destruct Hc0 as [<-|Hc0]; [|now apply (IHcs c0 n)].
    rewrite nodes_unfold in Hn. destruct Hn as [<-|Hn].
    + now apply distinct_names_NoDup.
    + apply in_flat_map in Hn. destruct Hn as [c1 [Hc1 Hn]].
      now apply (IHkids c1 n).
Qed.

Lemma build_hierarchy_distinct_names (items : list item) (n : node) :
  In n (nodes (build_hierarchy items)) -> NoDup (map name (children n)).
Proof.
  assert (H : distinct_names (children (build_hierarchy items))).
  { apply build_distinct_names. constructor. }
  rewrite nodes_unfold. intros [<-|Hn].
  - now apply distinct_names_NoDup.
  - apply in_flat_map in Hn. destruct Hn as [c [Hc Hn]].
    exact (distinct_names_nodes _ H c n Hc Hn).
Qed.

(** C8: a record whose path was already inserted leaves the tree as it is
    (no node is created, whatever the record's type), so the tree built
    from a list with the record repeated equals the tree built from the
    list without the repetition; and in the tree built from any list no
    two children of a node bear the same name. *)
Theorem build_hierarchy_duplicate_path
        (l1 l2 l3 : list item) (it : item) (ty : string) :
  let dup := mk_item (item_path it) ty in
  insert_item (build_hierarchy (l1 ++ it :: l2)) dup
  = build_hierarchy (l1 ++ it :: l2)
  /\ build_hierarchy (l1 ++ it :: l2 ++ dup :: l3)
     = build_hierarchy (l1 ++ it :: l2 ++ l3)
  /\ forall n,
       In n (nodes (build_hierarchy (l1 ++ it :: l2 ++ dup :: l3))) ->
       NoDup (map name (children n)).
Proof.
  intros dup.
  assert (Hid : insert_item (build_hierarchy (l1 ++ it :: l2)) dup
                = build_hierarchy (l1 ++ it :: l2)).
  { apply insert_existing. apply (build_prefix_has_path l1 l2 it). }
  split; [exact Hid|].
  split; [|intros n; apply build_hierarchy_distinct_names].
  replace (l1 ++ it :: l2 ++ dup :: l3)
    with ((l1 ++ it :: l2) ++ dup :: l3)
    by (rewrite <- app_assoc; reflexivity).
  replace (l1 ++ it :: l2 ++ l3) with ((l1 ++ it :: l2) ++ l3)
    by (rewrite <- app_assoc; reflexivity).
  unfold build_hierarchy in *.
  rewrite (fold_left_app insert_item (l1 ++ it :: l2) (dup :: l3)).
  rewrite (fold_left_app insert_item (l1 ++ it :: l2) l3).
  cbn [fold_left]. now rewrite Hid.
Qed.

Lemma build_hierarchy_duplicate_path_witness :
  let items := [mk_item "a/b.txt" "blob"; mk_item "a/c.txt" "blob";
                mk_item "a/b.txt" "blob"] in
  In (build_hierarchy items) (nodes (build_hierarchy items))
  /\ NoDup (map name (children (build_hierarchy items)))
  /\ build_hierarchy items
     = build_hierarchy [mk_item "a/b.txt" "blob"; mk_item "a/c.txt" "blob"].
Proof.
  intros items.
  destruct (build_hierarchy_duplicate_path
              [] [mk_item "a/c.txt" "blob"] [] (mk_item "a/b.txt" "blob")
              "blob") as (_ & Heq & Hnodup).
  assert (Hin : In (build_hierarchy items) (nodes (build_hierarchy items)))
    by (left; reflexivity).
  split; [exact Hin|]. split; [exact (Hnodup _ Hin) | exact Heq].
Defined.

(** ** File nodes stay leaves *)

Lemma leaves_below_weaken (F : list string -> Prop) (cs : list node) :
  leaves_below F cs ->
  forall G : list string -> Prop,
    (forall a, F a -> G a) -> leaves_below G cs.
Proof.
  induction 1 as [F|F c cs Hc Hsub IHsub Hcs IHcs]; intros G HFG.
  - constructor.
  - constructor.
    + intros Hf. destruct (Hc Hf) as [Hnil Ha]. auto.
    + apply IHsub. intros a. apply HFG.
    + now apply IHcs.
Qed.

Lemma leaves_below_nodes (F : list string -> Prop) (cs : list node) :
  leaves_below F cs ->
  forall c n, In c cs -> In n (nodes c) ->
    get_isFile n = true -> children n = [].
Proof.
  induction 1 as [F|F c cs Hc Hsub IHsub Hcs IHcs]; intros c0 n Hc0 Hn Hf.
  - destruct Hc0.
  - destruct Hc0 as [<-|Hc0]; [|now apply (IHcs c0 n)].
    rewrite nodes_unfold in Hn. destruct Hn as [<-|Hn].
    + now apply Hc.
    + apply in_flat_map in Hn. destruct Hn as [c1 [Hc1 Hn]].
      now apply (IHsub c1 n).
Qed.

Lemma proper_prefix_cons (p : string) (a rest : list string) :
  proper_prefix (p :: a) (p :: rest) = proper_prefix a rest.
Proof. simpl. now rewrite String.eqb_refl. Qed.

Lemma walk_keeps_leaves (ty : string) (parts : list string) :
  forall (pp : string) (F : list string -> Prop) (cs : list node),
    leaves_below F cs ->
    (forall a, F a -> proper_prefix a parts = false) ->
    leaves_below (fun a => F a \/ (a = parts /\ ty = "blob"))
                 (walk ty parts pp cs).
Proof.
  induction parts as [|p rest IH]; intros pp F cs Hcs Hfree.
  - rewrite walk_nil. apply (leaves_below_weaken _ _ Hcs). auto.
  - assert (Hsub : forall pp' cs',
               leaves_below (fun a => F (p :: a)) cs' ->
               leaves_below
                 (fun a => F (p :: a) \/ (p :: a = p :: rest /\ ty = "blob"))
                 (walk ty rest pp' cs')).
    { intros pp' cs' H'.
      eapply leaves_below_weaken.
      - apply (IH pp' (fun a => F (p :: a)) cs' H').
        intros a Ha. rewrite <- (proper_prefix_cons p). now apply Hfree.
      - intros a [Ha|[-> Hty]]; auto. }
    induction cs as [|c l IHl].
    + rewrite walk_new. constructor; simpl.
      * unfold get_isFile; simpl. intros Hf.
        apply andb_true_iff in Hf. destruct Hf as [Hlast Hty].
        destruct rest; [|discriminate]. split; [reflexivity|].
        right. split; [reflexivity|]. now apply String.eqb_eq.
      * apply Hsub. constructor.
      * constructor.
    + inversion Hcs as [|F' c' l' Hc Hkids Hl]; subst.
      rewrite walk_scan. destruct (String.eqb_spec (name c) p) as [Hn|Hn].
      * constructor.
        -- destruct c as [nm kids pc f s]; simpl in *. subst nm.
           unfold get_isFile in *; simpl in *. intros Hf.
           destruct (Hc Hf) as [-> HF]. destruct rest as [|r rest'].
           ++ auto.
           ++ specialize (Hfree _ HF). simpl in Hfree.
              rewrite String.eqb_refl in Hfree. discriminate.
        -- destruct c as [nm kids pc f s]; simpl in *. subst nm.
           now apply Hsub.
        -- apply (leaves_below_weaken _ _ Hl). auto.
      * constructor.
        -- intros Hf. destruct (Hc Hf). auto.
        -- apply (leaves_below_weaken _ _ Hkids). auto.
        -- now apply IHl.
Qed.

Lemma build_keeps_leaves (items : list item) :
  forall (root : node) (F : list string -> Prop),
    leaves_below F (children root) ->
    no_blob_above_later items = true ->
    (forall a, F a ->
       forall jt, In jt items -> proper_prefix a (segments jt) = false) ->
    exists G, leaves_below G (children (fold_left insert_item items root)).
Proof.
  induction items as [|it items IH]; intros root F Hroot Hok Hfree; simpl.
  - now exists F.
  - simpl in Hok. apply andb_true_iff in Hok. destruct Hok as [Hit Hok].
    apply (IH (insert_item root it)
              (fun a => F a \/ (a = segments it /\ item_type it = "blob"))).
    + unfold insert_item. simpl children. apply walk_keeps_leaves.
      * exact Hroot.
      * intros a Ha. apply (Hfree a Ha it). now left.
    + exact Hok.
    + intros a [Ha|[-> Hty]] jt Hjt.
      * apply (Hfree a Ha jt). now right.
      * rewrite Hty in Hit. simpl in Hit.
        rewrite forallb_forall in Hit. specialize (Hit jt Hjt).
        now apply negb_true_iff in Hit.
Qed.

(** C3 (as the code has it): the root of every built tree has the empty
    path and no [isFile]; and when no blob record's path lies strictly
    above the path of a later record, every node whose [isFile] is true
    has no children. *)
Theorem build_hierarchy_invariant (items : list item) :
  root_shape (build_hierarchy items)
  /\ (no_blob_above_later items = true ->
      files_are_leaves (build_hierarchy items)).
Proof.
  split.
  - unfold root_shape, build_hierarchy.
    destruct (fold_insert_root_shape items empty_root) as [-> ->].
    simpl. auto.
  - intros Hok n Hn Hfile.
    destruct (build_keeps_leaves items empty_root (fun _ => False))
      as [G HG]; [constructor | exact Hok | tauto |].
    fold (build_hierarchy items) in HG.
    rewrite nodes_unfold in Hn. destruct Hn as [<-|Hn].
    + unfold build_hierarchy in Hfile.
      destruct (fold_insert_root_shape items empty_root) as [_ Hf].
      rewrite Hf in Hfile. discriminate.
    + apply in_flat_map in Hn. destruct Hn as [c [Hc Hn]].
      apply (leaves_below_nodes _ _ HG c n Hc Hn).
      unfold get_isFile. now rewrite Hfile.
Qed.

Lemma build_hierarchy_invariant_witness :
  no_blob_above_later [mk_item "src" "tree"; mk_item "src/main.py" "blob";
                       mk_item "README.md" "blob"] = true
  /\ files_are_leaves
       (build_hierarchy [mk_item "src" "tree"; mk_item "src/main.py" "blob";
                         mk_item "README.md" "blob"]).
Proof.
  split; [reflexivity|].
  apply (build_hierarchy_invariant
           [mk_item "src" "tree"; mk_item "src/main.py" "blob";
            mk_item "README.md" "blob"]).
  reflexivity.
Defined.

(** C3 fails as stated: after a blob ["a"], the blob ["a/b.txt"] is hung
    below the file node ["a"]. *)
Lemma build_hierarchy_file_with_child :
  ~ tree_invariant
      (build_hierarchy [mk_item "a" "blob"; mk_item "a/b.txt" "blob"]).
Proof.
  intros [Hleaves _].
  specialize (Hleaves
    (mk_node "a" [mk_node "b.txt" [] "a/b.txt" (Some true) None] "a"
             (Some true) None)).
  simpl in Hleaves. discriminate Hleaves; auto.
Qed.

(** ** The effect monad *)

Lemma bind_ret_l {A B : Type} (a : A) (f : A -> io B) :
  bind (ret a) f = f a.
Proof. unfold bind, ret. now destruct (f a). Qed.

Lemma bind_assoc {A B C : Type} (m : io A) (f : A -> io B) (g : B -> io C) :
  bind (bind m f) g = bind m (fun x => bind (f x) g).
Proof.
  unfold bind. destruct m as [[a|e] l]; [|reflexivity].
  destruct (f a) as [[b|e] l']; [|reflexivity].
  destruct (g b) as [o l'']. now rewrite app_assoc.
Qed.

Lemma bind_ext {A B : Type} (m : io A) (f g : A -> io B) :
  (forall a, f a = g a) -> bind m f = bind m g.
Proof.
  intros H. unfold bind. destruct m as [[a|e] l]; [|reflexivity].
  now rewrite H.
Qed.

(** A computation that succeeds is made of parts that succeed. *)
Lemma bind_Ok {A B : Type} (m : io A) (f : A -> io B) (b : B) (log : list call) :
  bind m f = (Ok b, log) ->
  exists a l1 l2, m = (Ok a, l1) /\ f a = (Ok b, l2) /\ log = l1 ++ l2.
Proof.
  unfold bind. destruct m as [[a|e] l1]; [|discriminate].
  destruct (f a) as [o l2] eqn:E. intros H. injection H as -> <-.
  now exists a, l1, l2.
Qed.

Lemma gather_with_app {A B : Type} (f : A -> io B) (l1 l2 : list A) (x : A) :
  gather_with f (l1 ++ x :: l2) =
  (a <- gather_with f l1 ;;
   b <- f x ;;
   c <- gather_with f l2 ;;
   ret (a ++ b :: c)).
Proof.
  induction l1 as [|y l1 IH]; cbn [gather_with app].
  - now rewrite bind_ret_l.
  - rewrite IH, bind_assoc. apply bind_ext. intros y'.
    rewrite !bind_assoc. apply bind_ext. intros a.
    rewrite bind_ret_l, bind_assoc. apply bind_ext. intros b.
    rewrite bind_assoc. apply bind_ext. intros c.
    now rewrite bind_ret_l.
Qed.

Lemma generate_summaries_file w o r sha (n : node) :
  get_isFile n = true ->
  generate_summaries w o r sha n = summarize_file w o r sha n.
Proof.
  intros H. destruct n as [nm cs p f s].
  cbn [generate_summaries]. now rewrite H.
Qed.

Lemma generate_summaries_dir w o r sha (n : node) :
  get_isFile n = false ->
  generate_summaries w o r sha n =
  (cs' <- gather_with (generate_summaries w o r sha) (children n) ;;
   ret (set_children n cs')).
Proof.
  intros H. destruct n as [nm cs p f s].
  cbn [generate_summaries]. rewrite H. cbn [children].
  apply (f_equal (fun m => bind m _)).
  induction cs as [|c cs IH]; [reflexivity|].
  cbn [gather_with]. now rewrite IH.
Qed.

(** ** The LLM client without a key *)

(** C9: with no API key configured, [get_groq_response] returns the fixed
    sentinel string, which is not empty; it does not raise and makes no
    network request. *)
Theorem get_groq_response_without_key (w : world) (messages : list message) :
  key_missing w = true ->
  get_groq_response w messages = (Ok (JStr no_key_sentinel), [])
  /\ no_key_sentinel <> "".
Proof.
  intros H. unfold get_groq_response. rewrite H.
  split; [reflexivity | discriminate].
Qed.

Lemma get_groq_response_without_key_witness :
  key_missing (Demo.world_with None (mk_response 200 "# bar")
                 (mk_response 200 "print(1)")) = true
  /\ get_groq_response
       (Demo.world_with None (mk_response 200 "# bar")
          (mk_response 200 "print(1)"))
       [mk_message "user" "hello"]
     = (Ok (JStr no_key_sentinel), []).
Proof.
  split; [reflexivity|].
  apply (get_groq_response_without_key
           (Demo.world_with None (mk_response 200 "# bar")
              (mk_response 200 "print(1)"))
           [mk_message "user" "hello"]).
  reflexivity.
Defined.

(** ** A file whose content cannot be fetched *)

Lemma fetch_text_unavailable (w : world) (url : string) (resp : response) :
  session_get w url = inl resp ->
  status resp <> 200%Z \/ text resp = "" ->
  exists txt,
    fetch_text w url = (Ok txt, [FetchText url])
    /\ txt_truthy txt = false
    /\ (status resp <> 200%Z -> txt = None).
Proof.
  intros Hget Hbad. unfold fetch_text, do_get. rewrite Hget.
  unfold bind. destruct (Z.eqb_spec (status resp) 200) as [E|E]; simpl.
  - exists (Some (text resp)). split; [reflexivity|]. split; [|tauto].
    destruct Hbad as [Hs|Ht]; [tauto | now rewrite Ht].
  - exists None. auto.
Qed.

Lemma summarize_file_unavailable w o r sha (n : node) (resp : response) :
  session_get w (raw_url o r sha n) = inl resp ->
  status resp <> 200%Z \/ text resp = "" ->
  summarize_file w o r sha n =
  (Ok (set_summary n (JStr fetch_failed_summary)),
   [FetchText (raw_url o r sha n)]).
Proof.
  intros Hget Hbad.
  destruct (fetch_text_unavailable w _ resp Hget Hbad) as [txt [Hf [Ht _]]].
  unfold summarize_file. rewrite Hf. unfold bind.
  destruct txt as [t|]; simpl in *; [|reflexivity].
  rewrite Ht. reflexivity.
Qed.

(** C7: when the raw-content request of a file node is answered with a
    status other than 200 (or with an empty body), [fetch_text] returns
    [None] (or the empty, falsy string); [generate_summaries] gives the
    node the summary "Could not fetch file content." and its only request
    is that fetch, so the LLM client is not called; and in a directory
    holding the node the siblings are summarised exactly as on their own,
    the node contributing its sentinel summary and never an exception. *)
Theorem unfetchable_file_gets_sentinel
        (w : world) (o r sha : string) (n : node) (resp : response) :
  get_isFile n = true ->
  session_get w (raw_url o r sha n) = inl resp ->
  status resp <> 200%Z \/ text resp = "" ->
  let url := raw_url o r sha n in
  let n' := set_summary n (JStr fetch_failed_summary) in
  (exists txt,
      fetch_text w url = (Ok txt, [FetchText url])
      /\ txt_truthy txt = false
      /\ (status resp <> 200%Z -> txt = None))
  /\ generate_summaries w o r sha n = (Ok n', [FetchText url])
  /\ forall (d : node) (l1 l2 : list node),
       get_isFile d = false ->
       children d = l1 ++ n :: l2 ->
       generate_summaries w o r sha d =
       (l1' <- gather_with (generate_summaries w o r sha) l1 ;;
        n'' <- (Ok n', [FetchText url]) ;;
        l2' <- gather_with (generate_summaries w o r sha) l2 ;;
        ret (set_children d (l1' ++ n'' :: l2'))).
Proof.
  intros Hfile Hget Hbad url n'.
  assert (Hn : generate_summaries w o r sha n = (Ok n', [FetchText url])).
  { rewrite (generate_summaries_file _ _ _ _ _ Hfile).
    exact (summarize_file_unavailable w o r sha n resp Hget Hbad). }
  split; [exact (fetch_text_unavailable w url resp Hget Hbad)|].
  split; [exact Hn|].
  intros d l1 l2 Hdir Hkids.
  rewrite (generate_summaries_dir _ _ _ _ _ Hdir), Hkids.
  rewrite gather_with_app, Hn, bind_assoc. apply bind_ext. intros a.
  rewrite bind_assoc. apply bind_ext. intros b.
  rewrite bind_assoc. apply bind_ext. intros c.
  now rewrite bind_ret_l.
Qed.

Lemma unfetchable_file_gets_sentinel_witness :
  generate_summaries Demo.one_unreadable "foo" "bar" "7ee"
    (mk_node "main.py" [] "src/main.py" (Some true) None)
  = (Ok (mk_node "main.py" [] "src/main.py" (Some true)
           (Some (JStr "Could not fetch file content."))),
     [FetchText "https://raw.githubusercontent.com/foo/bar/7ee/src/main.py"]).
Proof.
  apply (unfetchable_file_gets_sentinel Demo.one_unreadable "foo" "bar" "7ee"
           (mk_node "main.py" [] "src/main.py" (Some true) None)
           (mk_response 404 "Not Found")).
  - reflexivity.
  - reflexivity.
  - left. discriminate.
Defined.

(** ** Which exceptions can leave the request handler *)

Lemma plain_getitem d k : plain (getitem d k).
Proof.
  intros code detail. unfold getitem.
  destruct d; try discriminate. destruct (assoc k fields); discriminate.
Qed.

Lemma plain_dict_get d k v : plain (dict_get d k v).
Proof.
  intros code detail. unfold dict_get.
  destruct d; try discriminate. destruct (assoc k fields); discriminate.
Qed.

Lemma plain_py_iter v : plain (py_iter v).
Proof. intros code detail. destruct v; discriminate. Qed.

Lemma plain_blob_records entries : plain (blob_records entries).
Proof.
  intros code detail. induction entries as [|t entries IH]; simpl.
  - discriminate.
  - pose proof (plain_getitem t "type" code detail) as Hty.
    destruct (getitem t "type") as [ty|e]; [|congruence].
    destruct (str_is ty "blob" || str_is ty "tree"); [|exact IH].
    pose proof (plain_getitem t "path" code detail) as Hp.
    destruct (getitem t "path") as [pth|e]; [|congruence].
    destruct (blob_records entries); [discriminate | congruence].
Qed.

Lemma plain_as_items blobs : plain (as_items blobs).
Proof.
  intros code detail. induction blobs as [|[pth ty] blobs IH]; simpl.
  - discriminate.
  - destruct pth; try discriminate.
    destruct (as_items blobs); [discriminate | congruence].
Qed.

Lemma quiet_ret {A : Type} (a : A) : quiet (ret a).
Proof. split; [discriminate | intros u []]. Qed.

Lemma quiet_bind {A B : Type} (m : io A) (f : A -> io B) :
  quiet m -> (forall a, quiet (f a)) -> quiet (bind m f).
Proof.
  intros [Hm Hlog] Hf. unfold bind.
  destruct m as [[a|e] l]; simpl in *.
  - destruct (Hf a) as [Hfa Hfl]. destruct (f a) as [o l']; simpl in *.
    split; [exact Hfa|]. intros u Hin. apply in_app_or in Hin.
    destruct Hin; [now apply (Hlog u) | now apply (Hfl u)].
  - split; simpl; [|exact Hlog].
    intros code detail H. apply (Hm code detail). congruence.
Qed.

Lemma quiet_fetch_text w url : quiet (fetch_text w url).
Proof.
  unfold fetch_text. apply quiet_bind.
  - unfold do_get. destruct (session_get w url); split; simpl;
      try discriminate; intros u [H|[]]; discriminate.
  - intros resp. destruct (negb (status resp =? 200)%Z); apply quiet_ret.
Qed.

Lemma quiet_get_groq_response w messages : quiet (get_groq_response w messages).
Proof.
  unfold get_groq_response. destruct (key_missing w); [apply quiet_ret|].
  apply quiet_bind.
  - unfold do_post. destruct (session_post w messages); split; simpl;
      try discriminate; intros u [H|[]]; discriminate.
  - intros resp. destruct (negb (status resp =? 200)%Z); [apply quiet_ret|].
    destruct (json_loads w (text resp)) as [data|].
    + destruct (reply_content data); apply quiet_ret.
    + split; [discriminate | intros u []].
Qed.

Lemma quiet_summarize_file w o r sha n : quiet (summarize_file w o r sha n).
Proof.
  unfold summarize_file. apply quiet_bind; [apply quiet_fetch_text|].
  intros [t|]; [|apply quiet_ret].
  destruct (PyStr.truthy t); [|apply quiet_ret].
  apply quiet_bind; [apply quiet_get_groq_response|].
  intros v. apply quiet_ret.
Qed.

Lemma quiet_gather_with {A B : Type} (f : A -> io B) (l : list A) :
  Forall (fun x => quiet (f x)) l -> quiet (gather_with f l).
Proof.
  induction 1 as [|x l Hx Hl IH]; cbn [gather_with]; [apply quiet_ret|].
  apply quiet_bind; [exact Hx|]. intros b.
  apply quiet_bind; [exact IH|]. intros bs. apply quiet_ret.
Qed.

Lemma quiet_generate_summaries w o r sha (n : node) :
  quiet (generate_summaries w o r sha n).
Proof.
  induction n as [nm cs p f s IH] using node_induction.
  destruct (get_isFile (mk_node nm cs p f s)) eqn:E.
  - rewrite (generate_summaries_file _ _ _ _ _ E).
    apply quiet_summarize_file.
  - rewrite (generate_summaries_dir _ _ _ _ _ E).
    apply quiet_bind; [now apply quiet_gather_with|].
    intros cs'. apply quiet_ret.
Qed.

Lemma quiet_lift {A : Type} (o : outcome A) : plain o -> quiet (lift o).
Proof. intros H. split; [exact H | intros u []]. Qed.

Lemma disciplined_quiet w {A : Type} (m : io A) : quiet m -> disciplined w m.
Proof.
  intros [Hplain Hlog]. split.
  - intros code detail H. now destruct (Hplain code detail).
  - intros u resp Hin. now destruct (Hlog u).
Qed.

Lemma disciplined_fetch_json w url : disciplined w (fetch_json w url).
Proof.
  unfold fetch_json, do_get, bind.
  destruct (session_get w url) as [resp|msg] eqn:Hget.
  - destruct (Z.geb_spec (status resp) 400) as [Hge|Hlt]; simpl.
    + split.
      * intros code detail H. injection H as <- <-.
        exists url, resp. simpl. repeat split; auto. lia.
      * intros u r [Hu|[]] Hr _. injection Hu as <-.
        rewrite Hget in Hr. injection Hr as <-. reflexivity.
    + destruct (json_loads w (text resp)); simpl; split;
        try (intros code detail H; discriminate);
        intros u r [Hu|[]] Hr Hge; injection Hu as <-;
        rewrite Hget in Hr; injection Hr as <-; lia.
  - split; simpl.
    + intros code detail H. discriminate.
    + intros u r [Hu|[]] Hr. injection Hu as <-. congruence.
Qed.

Lemma disciplined_bind w {A B : Type} (m : io A) (f : A -> io B) :
  disciplined w m -> (forall a, disciplined w (f a)) ->
  disciplined w (bind m f).
Proof.
  intros [Hraise Hfatal] Hf. unfold bind.
  destruct m as [[a|e] l]; simpl in *.
  - destruct (Hf a) as [Hr Hft]. destruct (f a) as [o l']; simpl in *.
    split.
    + intros code detail H. destruct (Hr code detail H) as (u & resp & Hin & H').
      exists u, resp. split; [apply in_or_app; now right | exact H'].
    + intros u resp Hin Hget Hge. apply in_app_or in Hin.
      destruct Hin as [Hin|Hin].
      * specialize (Hfatal u resp Hin Hget Hge). discriminate.
      * exact (Hft u resp Hin Hget Hge).
  - split.
    + intros code detail H. injection H as ->.
      exact (Hraise code detail eq_refl).
    + intros u resp Hin Hget Hge.
      specialize (Hfatal u resp Hin Hget Hge). simpl in *.
      injection Hfatal as ->. reflexivity.
Qed.

Ltac discipline :=
  repeat (apply disciplined_bind;
          [ first [ apply disciplined_fetch_json
                  | apply disciplined_quiet, quiet_lift;
                    first [ apply plain_getitem | apply plain_dict_get
                          | apply plain_py_iter | apply plain_blob_records
                          | apply plain_as_items ]
                  | apply disciplined_quiet, quiet_generate_summaries ]
          | intros ? ]).

Lemma disciplined_fetch_tree w o r : disciplined w (fetch_tree w o r).
Proof.
  unfold fetch_tree. discipline.
  apply disciplined_quiet, quiet_ret.
Qed.

Lemma disciplined_get_repo_body w o r : disciplined w (get_repo_body w o r).
Proof.
  unfold get_repo_body.
  apply disciplined_bind; [apply disciplined_fetch_tree | intros fetched].
  cbv zeta. discipline.
  apply disciplined_quiet, quiet_ret.
Qed.

Lemma reraise_cases {A : Type} (m : io A) :
  snd (reraise m) = snd m
  /\ match fst m with
     | Raise (Exception msg) => fst (reraise m) = Raise (HTTPException 500 msg)
     | _ => fst (reraise m) = fst m
     end.
Proof. destruct m as [[a|[code detail|msg]] l]; simpl; auto. Qed.

(** C4 (as the code has it): [GET /api/repo] answers 200 exactly when
    the handler returns; a URL that does not parse is answered 400 with
    the detail [Invalid GitHub URL] before any request is sent; a
    metadata call of the hosting API that is answered with a status of
    400 or above makes the request answer that same status; every other
    failure of a request whose URL parses is answered 500; and there is
    no fifth case. *)
Theorem get_repo_status (w : world) (url : string) :
  let m := get_repo w url in
  let s := http_status (fst m) in
  (s = 200%Z <-> exists resp, fst m = Ok resp)
  /\ (parse_github_url url = None ->
      m = (Raise (HTTPException 400 "Invalid GitHub URL"), [])
      /\ s = 400%Z)
  /\ (forall u resp,
         In (FetchJson u) (snd m) -> session_get w u = inl resp ->
         (status resp >= 400)%Z -> s = status resp)
  /\ (forall e,
         fst m = Raise e ->
         parse_github_url url <> None ->
         (forall u resp,
             In (FetchJson u) (snd m) -> session_get w u = inl resp ->
             (status resp < 400)%Z) ->
         s = 500%Z)
  /\ ((s = 200%Z /\ exists resp, fst m = Ok resp)
      \/ (s = 400%Z /\ parse_github_url url = None)
      \/ (exists u resp,
             In (FetchJson u) (snd m)
             /\ session_get w u = inl resp
             /\ (status resp >= 400)%Z /\ s = status resp)
      \/ (s = 500%Z /\ parse_github_url url <> None
          /\ exists msg, fst m = Raise (HTTPException 500 msg))).
Proof.
  cbv zeta. unfold get_repo.
  destruct (parse_github_url url) as [parsed|] eqn:Hp.
  - destruct (disciplined_get_repo_body w (owner parsed) (repo parsed))
      as [Hraise Hfatal].
    destruct (reraise_cases (get_repo_body w (owner parsed) (repo parsed)))
      as [Hlog Hout].
    rewrite Hlog.
    destruct (fst (get_repo_body w (owner parsed) (repo parsed)))
      as [resp|[code detail|msg]] eqn:E; rewrite Hout;
      cbn [http_status].
    + split; [split; [eauto | reflexivity]|].
      split; [discriminate|].
      split; [|split; [discriminate | left; eauto]].
      intros u r Hin Hget Hge.
      specialize (Hfatal u r Hin Hget Hge). rewrite E in Hfatal.
      discriminate.
    + destruct (Hraise code detail E)
        as (u0 & r0 & Hin0 & Hget0 & Hge0 & -> & _).
      split; [split; [lia | intros [resp H]; discriminate]|].
      split; [discriminate|].
      split; [|split].
      * intros u r Hin Hget Hge.
        specialize (Hfatal u r Hin Hget Hge). rewrite E in Hfatal.
        now injection Hfatal.
      * intros e _ _ Hlt. specialize (Hlt u0 r0 Hin0 Hget0). lia.
      * right. right. left. exists u0, r0. auto.
    + split; [split; [discriminate | intros [resp H]; discriminate]|].
      split; [discriminate|].
      split; [|split; [reflexivity|]].
      * intros u r Hin Hget Hge.
        specialize (Hfatal u r Hin Hget Hge). rewrite E in Hfatal.
      discriminate.
      * right. right. right.
        split; [reflexivity|]. split; [discriminate | eauto].
  - cbn [raise fst snd http_status].
    split; [split; [discriminate | intros [resp H]; discriminate]|].
    split; [auto|].
    split; [intros u r []|].
    split; [intros e _ Hne; now destruct Hne|].
    right. left. auto.
Qed.

Lemma get_repo_status_witness :
  get_repo Demo.healthy "https://example.org/foo/bar"
  = (Raise (HTTPException 400 "Invalid GitHub URL"), [])
  /\ http_status (fst (get_repo Demo.healthy Demo.url_missing_repo)) = 404%Z
  /\ http_status (fst (get_repo Demo.healthy Demo.url_bar)) = 200%Z.
Proof.
  split; [|split].
  - exact (proj1 (proj1 (proj2 (get_repo_status Demo.healthy
                                  "https://example.org/foo/bar"))
                    eq_refl)).
  - apply (proj1 (proj2 (proj2 (get_repo_status Demo.healthy
                                  Demo.url_missing_repo)))
             "https://api.github.com/repos/foo/baz"
             (mk_response 404 "Not Found")).
    + vm_compute. left. reflexivity.
    + reflexivity.
    + simpl. lia.
  - apply (proj2 (proj1 (get_repo_status Demo.healthy Demo.url_bar))).
    vm_compute. eexists. reflexivity.
Defined.

(** C4 fails as stated: the hosting API answers 404 for a repository that
    does not exist, and the client is answered 404, not 500. *)
Lemma get_repo_passes_upstream_404 :
  let s := http_status (fst (get_repo Demo.healthy Demo.url_missing_repo)) in
  ~ (s = 200%Z \/ s = 400%Z \/ s = 500%Z).
Proof.
  assert (H : http_status
                (fst (get_repo Demo.healthy Demo.url_missing_repo))
              = 404%Z) by (vm_compute; reflexivity).
  cbv zeta. rewrite H. intros [H1|[H1|H1]]; discriminate.
Qed.

(** ** Metadata failures are fatal, content failures are contained *)

Lemma upstream_fatal_get_repo w url : upstream_fatal w (get_repo w url).
Proof.
  unfold get_repo. destruct (parse_github_url url) as [parsed|].
  - destruct (disciplined_get_repo_body w (owner parsed) (repo parsed))
      as [_ Hfatal].
    destruct (reraise_cases (get_repo_body w (owner parsed) (repo parsed)))
      as [Hlog Hout].
    intros u resp Hin Hget Hge. rewrite Hlog in Hin.
    specialize (Hfatal u resp Hin Hget Hge).
    rewrite Hfatal in Hout. now rewrite Hout.
  - intros u resp [].
Qed.

Lemma succeeds_bind_inv {A B : Type} (m : io A) (f : A -> io B) :
  succeeds (bind m f) -> exists a, fst m = Ok a /\ succeeds (f a).
Proof.
  unfold succeeds, bind. destruct m as [[a|e] l]; simpl.
  - intros [b Hb]. exists a. split; [reflexivity|].
    exists b. now destruct (f a).
  - intros [b Hb]. discriminate.
Qed.

Lemma succeeds_bind_intro {A B : Type} (m : io A) (f : A -> io B) (a : A) :
  fst m = Ok a -> succeeds (f a) -> succeeds (bind m f).
Proof.
  unfold succeeds, bind. destruct m as [o l]; simpl. intros -> [b Hb].
  exists b. now destruct (f a).
Qed.

Lemma succeeds_bind_same {A B C : Type} (m : io A) (f : A -> io B) (g : A -> io C) :
  (forall a, succeeds (f a) -> succeeds (g a)) ->
  succeeds (bind m f) -> succeeds (bind m g).
Proof.
  intros H Hs. destruct (succeeds_bind_inv _ _ Hs) as [a [Ha Hfa]].
  apply (succeeds_bind_intro _ _ a Ha). auto.
Qed.

Lemma succeeds_ret {A : Type} (a : A) : succeeds (ret a).
Proof. now exists a. Qed.

Section Degraded.

Variable w : world.
Variable get' : string -> response + string.

(** [get'] answers as [w] does, except that some raw-content URLs are
    answered with a status other than 200. *)
Hypothesis degraded :
  forall u, get' u = session_get w u
            \/ (is_raw_url u = true
                /\ exists r, get' u = inl r /\ status r <> 200%Z).

Let w' := with_session_get w get'.

Lemma fetch_json_degraded (u : string) :
  is_raw_url u = false -> fetch_json w' u = fetch_json w u.
Proof.
  intros Hu. unfold fetch_json, do_get. simpl.
  destruct (degraded u) as [->|[Hraw _]]; [reflexivity | congruence].
Qed.

Lemma summarize_file_degraded o r sha n :
  succeeds (summarize_file w o r sha n) ->
  succeeds (summarize_file w' o r sha n).
Proof.
  unfold summarize_file, fetch_text, do_get. simpl.
  destruct (degraded (raw_url o r sha n)) as [->|[_ [resp [-> Hst]]]].
  - exact (fun H => H).
  - intros _. unfold bind. simpl.
    destruct (Z.eqb_spec (status resp) 200); [contradiction|].
    simpl. now eexists.
Qed.

Lemma gather_with_degraded {A B : Type} (f g : A -> io B) (l : list A) :
  Forall (fun x => succeeds (f x) -> succeeds (g x)) l ->
  succeeds (gather_with f l) -> succeeds (gather_with g l).
Proof.
  induction 1 as [|x l Hx Hl IH]; cbn [gather_with]; [auto|].
  intros Hs. destruct (succeeds_bind_inv _ _ Hs) as [b [Hb Hrest]].
  destruct (Hx (ex_intro _ b Hb)) as [b' Hb'].
  apply (succeeds_bind_intro _ _ b' Hb').
  destruct (succeeds_bind_inv _ _ Hrest) as [bs [Hbs _]].
  destruct (IH (ex_intro _ bs Hbs)) as [bs' Hbs'].
  apply (succeeds_bind_intro _ _ bs' Hbs'). apply succeeds_ret.
Qed.

Lemma generate_summaries_degraded o r sha (n : node) :
  succeeds (generate_summaries w o r sha n) ->
  succeeds (generate_summaries w' o r sha n).
Proof.
  induction n as [nm cs p f s IH] using node_induction.
  destruct (get_isFile (mk_node nm cs p f s)) eqn:E.
  - rewrite !(generate_summaries_file _ _ _ _ _ E).
    apply summarize_file_degraded.
  - rewrite !(generate_summaries_dir _ _ _ _ _ E).
    intros Hs. destruct (succeeds_bind_inv _ _ Hs) as [cs' [Hcs' _]].
    destruct (gather_with_degraded _ _ _ IH (ex_intro _ cs' Hcs'))
      as [cs'' Hcs''].
    apply (succeeds_bind_intro _ _ cs'' Hcs''). apply succeeds_ret.
Qed.

Lemma api_not_raw o r : is_raw_url (api o r) = false.
Proof. reflexivity. Qed.

Lemma api_path_not_raw o r rest : is_raw_url (api o r ++ rest) = false.
Proof. reflexivity. Qed.

Lemma fetch_tree_degraded o r : fetch_tree w' o r = fetch_tree w o r.
Proof.
  unfold fetch_tree.
  change (fmt w') with (fmt w).
  rewrite (fetch_json_degraded _ (api_not_raw o r)).
  apply bind_ext. intros repo_meta.
  apply bind_ext. intros default_branch.
  rewrite (fetch_json_degraded _ (api_path_not_raw o r _)).
  apply bind_ext. intros ref.
  apply bind_ext. intros ref_object.
  apply bind_ext. intros commit_sha.
  rewrite (fetch_json_degraded _ (api_path_not_raw o r _)).
  apply bind_ext. intros commit_obj.
  apply bind_ext. intros commit_tree.
  apply bind_ext. intros tree_sha.
  now rewrite (fetch_json_degraded _ (api_path_not_raw o r _)).
Qed.

Lemma get_repo_body_degraded o r :
  succeeds (get_repo_body w o r) -> succeeds (get_repo_body w' o r).
Proof.
  unfold get_repo_body. rewrite fetch_tree_degraded.
  change (fmt w') with (fmt w).
  apply succeeds_bind_same. intros fetched. cbv zeta.
  apply succeeds_bind_same. intros listing.
  apply succeeds_bind_same. intros entries.
  apply succeeds_bind_same. intros blobs.
  apply succeeds_bind_same. intros items.
  intros Hs. destruct (succeeds_bind_inv _ _ Hs) as [root [Hroot _]].
  destruct (generate_summaries_degraded _ _ _ _ (ex_intro _ root Hroot))
    as [root' Hroot'].
  apply (succeeds_bind_intro _ _ root' Hroot'). apply succeeds_ret.
Qed.

Lemma get_repo_degraded url :
  succeeds (get_repo w url) -> succeeds (get_repo w' url).
Proof.
  unfold get_repo. destruct (parse_github_url url) as [parsed|]; [|auto].
  intros [resp Hresp].
  destruct (reraise_cases (get_repo_body w (owner parsed) (repo parsed)))
    as [_ Hout].
  destruct (get_repo_body_degraded (owner parsed) (repo parsed))
    as [resp' Hresp'].
  - unfold succeeds.
    destruct (fst (get_repo_body w (owner parsed) (repo parsed)))
      as [a|[code detail|msg]]; [now exists a | congruence | congruence].
  - exists resp'.
    destruct (reraise_cases (get_repo_body w' (owner parsed) (repo parsed)))
      as [_ Hout'].
    rewrite Hresp' in Hout'. congruence.
Qed.

End Degraded.

(** ** Counting file nodes *)

Lemma filter_flat_map_nodes (cs : list node) :
  List.length (filter get_isFile (flat_map nodes cs)) = files_in cs.
Proof.
  unfold files_in. induction cs as [|c cs IH]; simpl; [reflexivity|].
  rewrite filter_app, length_app, IH. reflexivity.
Qed.

Lemma count_files_unfold (n : node) :
  count_files n = (if get_isFile n then 1 else 0) + files_in (children n).
Proof.
  unfold count_files. rewrite nodes_unfold. simpl.
  rewrite <- filter_flat_map_nodes. now destruct (get_isFile n).
Qed.

Lemma files_in_cons (c : node) (cs : list node) :
  files_in (c :: cs) = count_files c + files_in cs.
Proof. reflexivity. Qed.

Lemma walk_adds_at_most_one (ty : string) (parts : list string) :
  forall pp cs,
    files_in (walk ty parts pp cs)
    <= files_in cs + (if String.eqb ty "blob" then 1 else 0).
Proof.
  induction parts as [|p rest IH]; intros pp cs.
  - rewrite walk_nil. lia.
  - induction cs as [|c l IHl].
    + rewrite walk_new, files_in_cons, count_files_unfold.
      unfold get_isFile; simpl isFile; simpl children.
      specialize (IH (child_path pp p) []).
      change (files_in []) with 0 in *.
      destruct rest as [|r rest'].
      * rewrite walk_nil. change (files_in []) with 0.
        cbn [is_last andb]. destruct (String.eqb ty "blob"); lia.
      * cbn [is_last andb]. lia.
    + rewrite walk_scan. destruct (String.eqb (name c) p).
      * rewrite !files_in_cons, !count_files_unfold.
        specialize (IH (path c) (children c)).
        destruct c as [nm kids pc f s]; simpl in *.
        unfold get_isFile in *; simpl in *. lia.
      * rewrite !files_in_cons. lia.
Qed.

Lemma build_adds_at_most_blobs (items : list item) :
  forall root,
    count_files (fold_left insert_item items root)
    <= count_files root + List.length (filter is_blob_item items).
Proof.
  induction items as [|it items IH]; intros root; simpl; [lia|].
  specialize (IH (insert_item root it)).
  assert (H : count_files (insert_item root it)
              <= count_files root + (if is_blob_item it then 1 else 0)).
  { rewrite !count_files_unfold. unfold insert_item.
    pose proof (walk_adds_at_most_one (item_type it)
                  (PyStr.split "/" (item_path it)) (path root)
                  (children root)) as Hw.
    destruct root as [nm kids pc f s]; simpl in *.
    unfold get_isFile, is_blob_item in *; simpl in *. lia. }
  destruct (is_blob_item it); simpl; lia.
Qed.

Lemma count_files_build (items : list item) :
  count_files (build_hierarchy items)
  <= List.length (filter is_blob_item items).
Proof. apply (build_adds_at_most_blobs items empty_root). Qed.

Lemma insert_sorted_perm (x : node) (l : list node) :
  Permutation (insert_sorted x l) (x :: l).
Proof.
  induction l as [|y l IH]; simpl; [reflexivity|].
  destruct (key_lt (sort_key y) (sort_key x)); [|reflexivity].
  rewrite IH. apply perm_swap.
Qed.

Lemma sort_children_perm (l : list node) : Permutation (sort_children l) l.
Proof.
  induction l as [|x l IH]; simpl; [reflexivity|].
  rewrite insert_sorted_perm. now constructor.
Qed.

Lemma files_in_perm (l l' : list node) :
  Permutation l l' -> files_in l = files_in l'.
Proof.
  induction 1; rewrite ?files_in_cons; lia.
Qed.

Lemma files_in_map (f : node -> node) (l : list node) :
  Forall (fun c => count_files (f c) = count_files c) l ->
  files_in (map f l) = files_in l.
Proof.
  induction 1 as [|c l Hc Hl IH]; simpl; [reflexivity|].
  rewrite !files_in_cons. lia.
Qed.

Lemma count_files_sort_tree (t : node) :
  count_files (sort_tree t) = count_files t.
Proof.
  induction t as [nm cs p f s IH] using node_induction.
  rewrite !count_files_unfold, sort_tree_children.
  rewrite (files_in_perm _ _ (sort_children_perm _)). cbn [children].
  rewrite (files_in_map _ _ IH). reflexivity.
Qed.

Lemma bind_fst_Ok {A B : Type} (m : io A) (f : A -> io B) (b : B) :
  fst (bind m f) = Ok b -> exists a, fst m = Ok a /\ fst (f a) = Ok b.
Proof.
  unfold bind. destruct m as [[a|e] l]; simpl; [|discriminate].
  intros H. exists a. split; [reflexivity|]. now destruct (f a).
Qed.

Lemma count_files_set_summary (n : node) (v : json) :
  count_files (set_summary n v) = count_files n.
Proof. rewrite !count_files_unfold. now destruct n. Qed.

Lemma summarize_file_Ok w o r sha (n n' : node) :
  fst (summarize_file w o r sha n) = Ok n' ->
  exists v, n' = set_summary n v.
Proof.
  unfold summarize_file. intros H.
  apply bind_fst_Ok in H. destruct H as [txt [_ H]].
  destruct txt as [t|].
  - destruct (PyStr.truthy t).
    + apply bind_fst_Ok in H. destruct H as [v [_ H]].
      injection H as <-. now exists v.
    + injection H as <-. now eexists.
  - injection H as <-. now eexists.
Qed.

Lemma gather_with_files (f : node -> io node) (l : list node) :
  Forall (fun c => forall c', fst (f c) = Ok c' ->
                              count_files c' = count_files c) l ->
  forall l', fst (gather_with f l) = Ok l' -> files_in l' = files_in l.
Proof.
  induction 1 as [|c l Hc Hl IH]; cbn [gather_with]; intros l' H.
  - injection H as <-. reflexivity.
  - apply bind_fst_Ok in H. destruct H as [c' [Hc' H]].
    apply bind_fst_Ok in H. destruct H as [l'' [Hl'' H]].
    injection H as <-. rewrite !files_in_cons.
    rewrite (Hc c' Hc'), (IH l'' Hl''). reflexivity.
Qed.

Lemma count_files_generate_summaries w o r sha (n : node) :
  forall n', fst (generate_summaries w o r sha n) = Ok n' ->
             count_files n' = count_files n.
Proof.
  induction n as [nm cs p f s IH] using node_induction. intros n' H.
  destruct (get_isFile (mk_node nm cs p f s)) eqn:E.
  - rewrite (generate_summaries_file _ _ _ _ _ E) in H.
    apply summarize_file_Ok in H. destruct H as [v ->].
    apply count_files_set_summary.
  - rewrite (generate_summaries_dir _ _ _ _ _ E) in H.
    apply bind_fst_Ok in H. destruct H as [cs' [Hcs' H]].
    injection H as <-. rewrite !count_files_unfold.
    cbn [children] in Hcs'. cbn [children set_children].
    rewrite (gather_with_files _ _ IH cs' Hcs'). reflexivity.
Qed.

(** ** What [fileCount] counts *)

Lemma blob_or_tree_exclusive (ty : json) :
  str_is ty "blob" = true -> str_is ty "tree" = false.
Proof.
  destruct ty; simpl; try discriminate.
  intros H. apply String.eqb_eq in H. now subst.
Qed.

Lemma blob_records_count (entries : list json) :
  forall blobs,
    blob_records entries = Ok blobs ->
    List.length blobs = List.length (filter is_blob_or_tree entries)
    /\ List.length (filter is_blob_record blobs)
       + List.length (filter (entry_has_type "tree") entries)
       = List.length blobs.
Proof.
  induction entries as [|t entries IH]; simpl; intros blobs H.
  - injection H as <-. auto.
  - unfold is_blob_or_tree, entry_has_type in *.
    destruct (getitem t "type") as [ty|e]; [|discriminate].
    destruct (str_is ty "blob") eqn:Eb; simpl in *.
    + rewrite (blob_or_tree_exclusive ty Eb).
      destruct (getitem t "path") as [pth|e]; [|discriminate].
      destruct (blob_records entries) as [rest|e]; [|discriminate].
      injection H as <-. destruct (IH rest eq_refl) as [H1 H2].
      simpl. unfold is_blob_record at 1. simpl snd. rewrite Eb. simpl. lia.
    + destruct (str_is ty "tree") eqn:Et.
      * destruct (getitem t "path") as [pth|e]; [|discriminate].
        destruct (blob_records entries) as [rest|e]; [|discriminate].
        injection H as <-. destruct (IH rest eq_refl) as [H1 H2].
        simpl. unfold is_blob_record at 1. simpl snd. rewrite Eb. simpl. lia.
      * now apply IH.
Qed.

Lemma as_items_blobs (blobs : list (json * json)) :
  forall items,
    as_items blobs = Ok items ->
    List.length (filter is_blob_item items)
    = List.length (filter is_blob_record blobs).
Proof.
  induction blobs as [|[pth ty] blobs IH]; simpl; intros items H.
  - injection H as <-. reflexivity.
  - destruct pth; try discriminate.
    destruct (as_items blobs) as [rest|e]; [|discriminate].
    injection H as <-. simpl.
    unfold is_blob_item at 1, is_blob_record at 1. simpl.
    pose proof (IH rest eq_refl) as Hrest.
    destruct ty; simpl; try exact Hrest.
    destruct (String.eqb s0 "blob"); simpl; now rewrite Hrest.
Qed.

Lemma existsb_filter_length {A : Type} (f : A -> bool) (l : list A) :
  existsb f l = true -> 0 < List.length (filter f l).
Proof.
  induction l as [|x l IH]; simpl; [discriminate|].
  destruct (f x); simpl; [lia | exact IH].
Qed.

Lemma fetch_json_log w url : snd (fetch_json w url) = [FetchJson url].
Proof.
  unfold fetch_json, do_get, bind.
  destruct (session_get w url) as [resp|msg]; [|reflexivity].
  destruct (status resp >=? 400)%Z; [reflexivity|].
  destruct (json_loads w (text resp)); reflexivity.
Qed.

Lemma fetch_json_Ok w url v log :
  fetch_json w url = (Ok v, log) -> log = [FetchJson url].
Proof. intros H. rewrite <- (fetch_json_log w url), H. reflexivity. Qed.

Lemma lift_Ok {A : Type} (o : outcome A) (a : A) (log : list call) :
  lift o = (Ok a, log) -> o = Ok a /\ log = [].
Proof. unfold lift. intros H. now injection H as -> <-. Qed.

Lemma reraise_Ok {A : Type} (m : io A) (a : A) (log : list call) :
  reraise m = (Ok a, log) -> m = (Ok a, log).
Proof. destruct m as [[x|[code detail|msg]] l]; simpl; congruence. Qed.

Ltac run_step H v Hv :=
  apply bind_Ok in H;
  let l1 := fresh "log" in
  let l2 := fresh "log" in
  let Hl := fresh "Hlog" in
  destruct H as (v & l1 & l2 & Hv & H & Hl); cbv beta in H;
  first [ apply lift_Ok in Hv; destruct Hv as [Hv ->]
        | pose proof (fetch_json_Ok _ _ _ _ Hv); subst l1
        | idtac ];
  subst.

(** C10: [fileCount] in the response is the number of entries of the
    recursive tree listing whose type is ["blob"] or ["tree"], and as soon
    as the listing holds a ["tree"] entry it is strictly greater than the
    number of file nodes of the returned tree. *)
Theorem fileCount_counts_directories
        (w : world) (url : string) (resp : repo_response) (calls : list call) :
  get_repo w url = (Ok resp, calls) ->
  exists parsed tree_sha tree_resp log listing entries,
    parse_github_url url = Some parsed
    /\ fetch_tree w (owner parsed) (repo parsed)
       = (Ok (tree_sha, tree_resp), log)
    /\ dict_get tree_resp "tree" (JArr []) = Ok listing
    /\ py_iter listing = Ok entries
    /\ fileCount resp = List.length (filter is_blob_or_tree entries)
    /\ (existsb (entry_has_type "tree") entries = true ->
        count_files (tree resp) < fileCount resp).
Proof.
  unfold get_repo. destruct (parse_github_url url) as [parsed|];
    [|discriminate].
  intros H. apply reraise_Ok in H. unfold get_repo_body in H.
  run_step H fetched Htree. destruct fetched as [tree_sha tree_resp].
  cbv zeta in H. cbn [fst snd] in H.
  run_step H listing Hlisting.
  run_step H entries Hentries.
  run_step H blobs Hblobs.
  run_step H items Hitems.
  run_step H root Hroot.
  unfold ret in H. injection H as <- <-.
  exists parsed, tree_sha, tree_resp, log, listing, entries.
  destruct (blob_records_count _ _ Hblobs) as [Hlen Hsplit].
  repeat split; try assumption.
  intros Htree_entry. simpl.
  apply existsb_filter_length in Htree_entry.
  rewrite count_files_sort_tree.
  rewrite (count_files_generate_summaries _ _ _ _ _ root
             (f_equal fst Hroot)).
  pose proof (count_files_build items) as Hbuild.
  rewrite (as_items_blobs _ _ Hitems) in Hbuild. lia.
Qed.

Lemma fileCount_counts_directories_witness :
  exists resp calls,
    get_repo Demo.healthy Demo.url_bar = (Ok resp, calls)
    /\ fileCount resp = 3 /\ count_files (tree resp) < fileCount resp.
Proof.
  eexists. eexists. split; [vm_compute; reflexivity|].
  destruct (fileCount_counts_directories Demo.healthy Demo.url_bar _ _
              eq_refl)
    as (parsed & tree_sha & tree_resp & log & listing & entries
        & Hparsed & Htree & Hlisting & Hentries & Hcount & Hless).
  vm_compute in Hparsed. injection Hparsed as <-.
  vm_compute in Htree. injection Htree as <- <- <-.
  vm_compute in Hlisting. injection Hlisting as <-.
  vm_compute in Hentries. injection Hentries as <-.
  split; [exact Hcount | exact (Hless eq_refl)].
Defined.

(** ** The semaphore bounds the fetches in flight *)

Module ScheduleFacts.
Import Schedule.

Lemma set_pc_same (ps : list pc) :
  forall i p q, nth_error ps i = Some q ->
                nth_error (set_pc i p ps) i = Some p.
Proof.
  induction ps as [|x ps IH]; intros [|i] p q H; simpl in *;
    try discriminate; [reflexivity | now apply (IH i p q)].
Qed.

Lemma set_pc_other (ps : list pc) :
  forall i j p, i <> j -> nth_error (set_pc i p ps) j = nth_error ps j.
Proof.
  induction ps as [|x ps IH]; intros [|i] [|j] p H; simpl;
    try reflexivity; [contradiction | apply IH; congruence].
Qed.

Lemma set_pc_count (f : pc -> bool) (ps : list pc) :
  forall i p q,
    nth_error ps i = Some q ->
    List.length (filter f (set_pc i p ps)) + (if f q then 1 else 0)
    = List.length (filter f ps) + (if f p then 1 else 0).
Proof.
  induction ps as [|x ps IH]; intros [|i] p q H; simpl in *;
    try discriminate.
  - injection H as ->. destruct (f p), (f q); simpl; lia.
  - specialize (IH i p q H). destruct (f x); simpl; lia.
Qed.

Lemma remove_holder_In (h : list nat) :
  NoDup h -> forall i j, In j (remove_holder i h) <-> j <> i /\ In j h.
Proof.
  induction 1 as [|x h Hx Hh IH]; intros i j; simpl; [tauto|].
  destruct (Nat.eqb_spec i x) as [->|Hne].
  - split.
    + intros Hj. split; [|now right]. intros ->. contradiction.
    + intros [Hj [Hx'|Hin]]; [congruence | exact Hin].
  - simpl. rewrite IH. split.
    + intros [<-|[Hj Hin]]; [split; [congruence | now left] | tauto].
    + intros [Hj [Hx'|Hin]]; [now left | right; tauto].
Qed.

Lemma remove_holder_NoDup (h : list nat) :
  NoDup h -> forall i, NoDup (remove_holder i h).
Proof.
  induction 1 as [|x h Hx Hh IH]; intros i; simpl; [constructor|].
  destruct (Nat.eqb i x); [exact Hh|].
  constructor; [|apply IH].
  intros Hin. apply (remove_holder_In h Hh) in Hin. tauto.
Qed.

Lemma initial_consistent (capacity : nat) (root : node) :
  consistent capacity (initial capacity root).
Proof.
  unfold consistent, initial; simpl. split; [|split].
  - induction (file_tasks root) as [|t ts IH]; simpl; lia.
  - constructor.
  - intros i. split; [intros []|].
    intros [p [Hp Hhold]]. apply nth_error_In in Hp.
    apply in_map_iff in Hp. destruct Hp as [t [<- _]]. discriminate.
Qed.

(** A step that moves task [i] from [q] to [p] without touching the
    semaphore keeps the bookkeeping when both points are on the same
    side of the block. *)
Lemma consistent_move (capacity v : nat) (h : list nat) (ps : list pc)
      (i : nat) (p q : pc) :
  nth_error ps i = Some q ->
  is_holding p = is_holding q ->
  consistent capacity (mk_state v h ps) ->
  consistent capacity (mk_state v h (set_pc i p ps)).
Proof.
  intros Hq Hsame (Hsum & Hnd & Hin). unfold consistent in *; simpl in *.
  split; [|split; [exact Hnd|]].
  - pose proof (set_pc_count is_holding ps i p q Hq) as Hc.
    rewrite Hsame in Hc. destruct (is_holding q); lia.
  - intros j. rewrite Hin. destruct (Nat.eq_dec i j) as [<-|Hne].
    + rewrite (set_pc_same ps i p q Hq), Hq. split.
      * intros [x [Hx Hh]]. injection Hx as <-.
        exists p. split; [reflexivity | congruence].
      * intros [x [Hx Hh]]. injection Hx as <-.
        exists q. split; [reflexivity | congruence].
    + now rewrite (set_pc_other ps i j p Hne).
Qed.

(** Task [i] enters the block. *)
Lemma consistent_enter (capacity v : nat) (h : list nat) (ps : list pc)
      (i : nat) (p q : pc) :
  nth_error ps i = Some q ->
  is_holding q = false -> is_holding p = true ->
  consistent capacity (mk_state (S v) h ps) ->
  consistent capacity (mk_state v (i :: h) (set_pc i p ps)).
Proof.
  intros Hi Hq Hp (Hsum & Hnd & Hin). unfold consistent in *; simpl in *.
  pose proof (set_pc_count is_holding ps i p q Hi) as Hc.
  rewrite Hp, Hq in Hc. split; [lia|]. split.
  - constructor; [|exact Hnd]. intros Hh. apply Hin in Hh.
    destruct Hh as [x [Hx Hhold]]. rewrite Hi in Hx.
    injection Hx as <-. congruence.
  - intros j. destruct (Nat.eq_dec i j) as [<-|Hne].
    + rewrite (set_pc_same ps i p q Hi). split.
      * intros _. now exists p.
      * intros _. now left.
    + rewrite (set_pc_other ps i j p Hne), <- Hin. split.
      * intros [Heq|Hj]; [contradiction | exact Hj].
      * intros Hj. now right.
Qed.

(** Task [i] leaves the block. *)
Lemma consistent_leave (capacity v : nat) (h : list nat) (ps : list pc)
      (i : nat) (p q : pc) :
  nth_error ps i = Some q ->
  is_holding q = true -> is_holding p = false ->
  consistent capacity (mk_state v h ps) ->
  consistent capacity
    (mk_state (S v) (remove_holder i h) (set_pc i p ps)).
Proof.
  intros Hi Hq Hp (Hsum & Hnd & Hin). unfold consistent in *; simpl in *.
  pose proof (set_pc_count is_holding ps i p q Hi) as Hc.
  rewrite Hp, Hq in Hc. split; [lia|]. split.
  - now apply remove_holder_NoDup.
  - intros j. rewrite (remove_holder_In h Hnd i j).
    destruct (Nat.eq_dec i j) as [<-|Hne].
    + rewrite (set_pc_same ps i p q Hi). split.
      * intros [Hj _]. contradiction.
      * intros [x [Hx Hhold]]. injection Hx as <-. congruence.
    + rewrite (set_pc_other ps i j p Hne), <- Hin. split.
      * tauto.
      * intros Hj. split; [congruence | exact Hj].
Qed.

Lemma step_consistent (capacity : nat) (s s' : state) :
  step s s' -> consistent capacity s -> consistent capacity s'.
Proof.
  intros Hstep. destruct Hstep as
    [v h ps i Hi | v h ps i txt Hi | v h ps i txt Hi
     | v h ps i txt Hi Ht | v h ps i txt Hi Ht | v h ps i Hi
     | v h ps i Hi | v h ps i Hi].
  - now apply (consistent_enter capacity v h ps i Fetching Unvisited).
  - now apply (consistent_move capacity v h ps i (Fetched txt) Fetching).
  - now apply (consistent_leave capacity v h ps i (Released txt) (Fetched txt)).
  - now apply (consistent_move capacity v h ps i Summarizing (Released txt)).
  - now apply (consistent_move capacity v h ps i Summarized (Released txt)).
  - now apply (consistent_move capacity v h ps i Summarized Summarizing).
  - now apply (consistent_leave capacity v h ps i Failed Fetching).
  - now apply (consistent_move capacity v h ps i Failed Summarizing).
Qed.

Lemma reachable_consistent (capacity : nat) (root : node) (s : state) :
  reachable (initial capacity root) s -> consistent capacity s.
Proof.
  induction 1 as [|s s' Hreach IH Hstep].
  - apply initial_consistent.
  - exact (step_consistent capacity s s' Hstep IH).
Qed.

Lemma fetching_among_holding (ps : list pc) :
  List.length (filter is_fetching ps)
  <= List.length (filter is_holding ps).
Proof.
  induction ps as [|p ps IH]; simpl; [lia|].
  destruct p; simpl; lia.
Qed.

Lemma holds_slot_In (s : state) (i : nat) :
  holds_slot s i = true <-> In i (holders s).
Proof.
  unfold holds_slot. rewrite existsb_exists. split.
  - intros [j [Hj Heq]]. apply Nat.eqb_eq in Heq. now subst.
  - intros Hi. exists i. split; [exact Hi | apply Nat.eqb_refl].
Qed.

End ScheduleFacts.

(** C6: in every state the event loop can reach while summarising a tree
    under a semaphore of any capacity (the handler uses 6), at most that
    many raw-content fetches are in flight; a task holds a slot only while
    it stands inside the [async with] block, that is while its fetch is in
    flight or has just returned, and a task whose LLM call is in flight
    holds none. *)
Theorem semaphore_bounds_fetches
        (capacity : nat) (root : node) (s : Schedule.state) :
  Schedule.reachable (Schedule.initial capacity root) s ->
  Schedule.in_flight s <= capacity
  /\ (forall i, Schedule.holds_slot s i = true ->
                nth_error (Schedule.pcs s) i = Some Schedule.Fetching
                \/ exists txt,
                     nth_error (Schedule.pcs s) i
                     = Some (Schedule.Fetched txt))
  /\ (forall i, nth_error (Schedule.pcs s) i = Some Schedule.Summarizing ->
                Schedule.holds_slot s i = false).
Proof.
  intros Hreach.
  destruct (ScheduleFacts.reachable_consistent capacity root s Hreach)
    as (Hsum & Hnd & Hin).
  assert (Hheld : forall i, Schedule.holds_slot s i = true ->
            nth_error (Schedule.pcs s) i = Some Schedule.Fetching
            \/ exists txt,
                 nth_error (Schedule.pcs s) i = Some (Schedule.Fetched txt)).
  { intros i Hi. apply ScheduleFacts.holds_slot_In in Hi. apply Hin in Hi.
    destruct Hi as [p [Hp Hhold]].
    destruct p; try discriminate; [now left | right; now exists txt]. }
  split; [|split; [exact Hheld|]].
  - unfold Schedule.in_flight.
    pose proof (ScheduleFacts.fetching_among_holding (Schedule.pcs s)). lia.
  - intros i Hi. destruct (Schedule.holds_slot s i) eqn:E; [|reflexivity].
    destruct (Hheld i E) as [H|[txt H]]; rewrite Hi in H; discriminate.
Qed.

Ltac acquire_next R i :=
  match type of R with
  | Schedule.reachable ?s0 (Schedule.mk_state (S ?v) ?h ?ps) =>
      let R' := fresh "R" in
      pose proof (Schedule.reach_step s0 _ _ R
                    (Schedule.step_acquire v h ps i eq_refl)) as R';
      cbn [Schedule.set_pc] in R'; clear R; rename R' into R
  end.

Lemma semaphore_bounds_fetches_witness :
  let s := Schedule.mk_state 0 [5; 4; 3; 2; 1; 0]
             [Schedule.Fetching; Schedule.Fetching; Schedule.Fetching;
              Schedule.Fetching; Schedule.Fetching; Schedule.Fetching;
              Schedule.Unvisited] in
  Schedule.reachable (Schedule.initial semaphore_capacity Demo.seven_files) s
  /\ Schedule.in_flight s <= semaphore_capacity.
Proof.
  intros s.
  assert (R : Schedule.reachable
                (Schedule.initial semaphore_capacity Demo.seven_files) s).
  { pose proof (Schedule.reach_init
                  (Schedule.initial semaphore_capacity Demo.seven_files)) as R.
    change (Schedule.initial semaphore_capacity Demo.seven_files) with
      (Schedule.mk_state 6 []
         [Schedule.Unvisited; Schedule.Unvisited; Schedule.Unvisited;
          Schedule.Unvisited; Schedule.Unvisited; Schedule.Unvisited;
          Schedule.Unvisited]) in R at 2.
    acquire_next R 0. acquire_next R 1. acquire_next R 2.
    acquire_next R 3. acquire_next R 4. acquire_next R 5.
    exact R. }
  split; [exact R|].
  exact (proj1 (semaphore_bounds_fetches semaphore_capacity
                  Demo.seven_files s R)).
Defined.

(** ** URL parsing *)

(** C2 fails on the code: [replace(".git", "")] removes every occurrence
    of [.git], not only a trailing one, so the repository
    [user.github.io] is parsed as [userhub.io]. *)
Theorem parse_github_url_drops_inner_git :
  parse_github_url "https://github.com/user/user.github.io"
  = Some (mk_parsed "user" "userhub.io").
Proof. reflexivity. Qed.

(** *** Strings without a given character or substring *)

Lemma name_char_facts (c : ascii) :
  name_char c = true ->
  not_slash_space c = true /\ PyStr.isspace c = false
  /\ Ascii.eqb c "@" = false /\ Ascii.eqb c ":" = false.
Proof.
  destruct c as [[] [] [] [] [] [] [] []]; vm_compute;
    intros H; try discriminate H; repeat split.
Qed.

Lemma all_chars_app (f : ascii -> bool) (a b : string) :
  all_chars f (a ++ b) = all_chars f a && all_chars f b.
Proof.
  induction a as [|c a IH]; simpl; [reflexivity|].
  now rewrite IH, andb_assoc.
Qed.

Lemma all_chars_weaken (f g : ascii -> bool) (s : string) :
  (forall c, f c = true -> g c = true) ->
  all_chars f s = true -> all_chars g s = true.
Proof.
  intros Hfg. induction s as [|c s IH]; simpl; [reflexivity|].
  intros H. apply andb_true_iff in H. destruct H as [Hc Hs].
  now rewrite (Hfg c Hc), (IH Hs).
Qed.

Lemma rstrip_nonspace (s : string) :
  all_chars (fun c => negb (PyStr.isspace c)) s = true ->
  PyStr.rstrip s = s.
Proof.
  induction s as [|c s IH]; [reflexivity|].
  cbn [all_chars PyStr.rstrip]. intros H.
  apply andb_true_iff in H. destruct H as [Hc Hs].
  rewrite (IH Hs). apply negb_true_iff in Hc. rewrite Hc.
  now destruct s.
Qed.

Lemma drop_prefix_needs_char (c : ascii) (old : string) :
  forall s rest,
    PyStr.drop_prefix old s = Some rest ->
    char_in c old = true ->
    all_chars (fun x => negb (Ascii.eqb x c)) s = true -> False.
Proof.
  induction old as [|a old IH]; intros s rest Hdrop Hin Hs;
    [discriminate|].
  destruct s as [|b s]; [discriminate|].
  cbn [PyStr.drop_prefix] in Hdrop. cbn [char_in] in Hin.
  cbn [all_chars] in Hs. apply andb_true_iff in Hs. destruct Hs as [Hb Hs].
  destruct (Ascii.eqb_spec a b) as [->|]; [|discriminate].
  apply orb_true_iff in Hin. destruct Hin as [Hc|Hin].
  - apply Ascii.eqb_eq in Hc. subst c.
    rewrite Ascii.eqb_refl in Hb. discriminate.
  - exact (IH s rest Hdrop Hin Hs).
Qed.

Lemma occurs_needs_char (c : ascii) (old s : string) :
  char_in c old = true ->
  all_chars (fun x => negb (Ascii.eqb x c)) s = true ->
  occurs old s = false.
Proof.
  intros Hin. induction s as [|b s IH]; intros Hs.
  - cbn [occurs]. destruct (PyStr.drop_prefix old "") eqn:E; [|reflexivity].
    destruct (drop_prefix_needs_char c old _ _ E Hin Hs).
  - cbn [occurs].
    destruct (PyStr.drop_prefix old (String b s)) eqn:E.
    + destruct (drop_prefix_needs_char c old _ _ E Hin Hs).
    + apply IH. cbn [all_chars] in Hs. apply andb_true_iff in Hs. tauto.
Qed.

Lemma replace_fuel_absent (old new : string) (n : nat) :
  forall s, occurs old s = false -> PyStr.replace_fuel n old new s = s.
Proof.
  induction n as [|n IH]; intros s H; [reflexivity|].
  cbn [PyStr.replace_fuel]. destruct s as [|c s]; cbn [occurs] in H.
  - now destruct (PyStr.drop_prefix old "").
  - destruct (PyStr.drop_prefix old (String c s)); [discriminate|].
    now rewrite (IH s H).
Qed.

Lemma replace_absent (old new s : string) :
  occurs old s = false -> PyStr.replace old new s = s.
Proof. apply replace_fuel_absent. Qed.

Lemma replace_fuel_empty (old new : string) (n : nat) :
  PyStr.replace_fuel n (String "." old) new "" = "".
Proof. destruct n; reflexivity. Qed.

(** The tail [o/rs] of a well-formed URL holds neither [@] nor [:]. *)
Lemma tail_chars (f : ascii -> bool) (o rs : string) :
  (forall c, name_char c = true -> f c = true) ->
  f "/"%char = true ->
  valid_name o = true -> valid_name rs = true ->
  all_chars f (o ++ "/" ++ rs) = true.
Proof.
  intros Hf Hslash Ho Hrs. unfold valid_name in *.
  apply andb_true_iff in Ho, Hrs. destruct Ho as [_ Ho], Hrs as [_ Hrs].
  rewrite all_chars_app. cbn [append all_chars]. rewrite Hslash.
  rewrite (all_chars_weaken _ _ _ Hf Ho), (all_chars_weaken _ _ _ Hf Hrs).
  reflexivity.
Qed.

Lemma tail_no_at (o rs : string) :
  valid_name o = true -> valid_name rs = true ->
  all_chars (fun x => negb (Ascii.eqb x "@")) (o ++ "/" ++ rs) = true.
Proof.
  apply tail_chars; [|reflexivity].
  intros c Hc. destruct (name_char_facts c Hc) as (_ & _ & -> & _).
  reflexivity.
Qed.

Lemma tail_no_colon (o rs : string) :
  valid_name o = true -> valid_name rs = true ->
  all_chars (fun x => negb (Ascii.eqb x ":")) (o ++ "/" ++ rs) = true.
Proof.
  apply tail_chars; [|reflexivity].
  intros c Hc. destruct (name_char_facts c Hc) as (_ & _ & _ & ->).
  reflexivity.
Qed.

Lemma tail_no_space (o rs : string) :
  valid_name o = true -> valid_name rs = true ->
  all_chars (fun x => negb (PyStr.isspace x)) (o ++ "/" ++ rs) = true.
Proof.
  apply tail_chars; [|reflexivity].
  intros c Hc. destruct (name_char_facts c Hc) as (_ & -> & _).
  reflexivity.
Qed.

(** *** The one trailing [.git] *)

Lemma drop_prefix_git_straddle (s : string) :
  s <> "" ->
  PyStr.drop_prefix ".git" s = None ->
  PyStr.drop_prefix ".git" (s ++ ".git") = None.
Proof.
  intros Hne H.
  destruct s as [|c0 s]; [contradiction|].
  cbn [PyStr.drop_prefix append] in *.
  destruct (Ascii.eqb "." c0); [|reflexivity].
  destruct s as [|c1 s]; [reflexivity|].
  cbn [PyStr.drop_prefix append] in *.
  destruct (Ascii.eqb "g" c1); [|reflexivity].
  destruct s as [|c2 s]; [reflexivity|].
  cbn [PyStr.drop_prefix append] in *.
  destruct (Ascii.eqb "i" c2); [|reflexivity].
  destruct s as [|c3 s]; [reflexivity|].
  cbn [PyStr.drop_prefix append] in *.
  destruct (Ascii.eqb "t" c3); [discriminate | reflexivity].
Qed.

Lemma replace_fuel_git_suffix (r : string) :
  forall n,
    occurs ".git" r = false -> String.length r < n ->
    PyStr.replace_fuel n ".git" "" (r ++ ".git") = r.
Proof.
  induction r as [|c r IH]; intros n Hocc Hlen.
  - destruct n as [|n]; [inversion Hlen|].
    cbn [append]. change (PyStr.replace_fuel (S n) ".git" "" ".git")
      with (PyStr.replace_fuel n ".git" "" "").
    apply replace_fuel_empty.
  - destruct n as [|n]; [inversion Hlen|].
    cbn [occurs] in Hocc.
    destruct (PyStr.drop_prefix ".git" (String c r)) eqn:E; [discriminate|].
    cbn [PyStr.replace_fuel].
    rewrite (drop_prefix_git_straddle (String c r)); [|discriminate | exact E].
    cbn [append]. rewrite IH; [reflexivity | exact Hocc |].
    simpl in Hlen. lia.
Qed.

Lemma length_append (a b : string) :
  String.length (a ++ b) = String.length a + String.length b.
Proof. induction a as [|c a IH]; simpl; [reflexivity | now rewrite IH]. Qed.

Lemma replace_git_suffix (r : string) :
  occurs ".git" r = false -> PyStr.replace ".git" "" (r ++ ".git") = r.
Proof.
  intros H. apply replace_fuel_git_suffix; [exact H|].
  rewrite length_append. simpl. lia.
Qed.

(** *** The pattern on a well-formed URL *)

Lemma append_empty (a : string) : (a ++ "")%string = a.
Proof. induction a as [|c a IH]; simpl; [reflexivity | now rewrite IH]. Qed.

Lemma consumed_app (a rest : string) : Re.consumed (a ++ rest) rest = a.
Proof.
  unfold Re.consumed. rewrite length_append.
  replace (String.length a + String.length rest - String.length rest)
    with (String.length a) by lia.
  induction a as [|c a IH]; simpl.
  - now destruct rest.
  - now rewrite IH.
Qed.

Lemma consumed_all (a : string) : Re.consumed a "" = a.
Proof.
  rewrite <- (append_empty a) at 1. apply consumed_app.
Qed.

(** After a non-empty run [a] of characters of the class that is followed
    by the end or by a character outside it, the greedy [+] hands [rest]
    to its continuation first. *)
Lemma plus_class_greedy {R : Type} (cls : ascii -> bool) (a rest : string)
      (caps : Re.captures) (k : string -> Re.captures -> option R) (x : R) :
  PyStr.truthy a = true ->
  all_chars cls a = true ->
  match rest with
  | EmptyString => true
  | String c _ => negb (cls c)
  end = true ->
  k rest caps = Some x ->
  Re.rmatch (Re.PlusClass cls) (a ++ rest) caps k = Some x.
Proof.
  intros Hne Ha Hrest Hk. destruct a as [|d a]; [discriminate|].
  cbn [all_chars] in Ha. apply andb_true_iff in Ha. destruct Ha as [Hd Ha].
  cbn [append Re.rmatch]. rewrite Hd. clear Hne Hd.
  induction a as [|e a IH].
  - cbn [append]. destruct rest as [|c rest]; [exact Hk|].
    apply negb_true_iff in Hrest. now rewrite Hrest.
  - cbn [all_chars] in Ha. apply andb_true_iff in Ha.
    destruct Ha as [He Ha]. cbn [append]. rewrite He.
    now rewrite (IH Ha).
Qed.

Lemma rmatch_seq {R : Type} r1 r2 s caps (k : string -> Re.captures -> option R) :
  Re.rmatch (Re.Seq r1 r2) s caps k
  = Re.rmatch r1 s caps (fun s' caps' => Re.rmatch r2 s' caps' k).
Proof. reflexivity. Qed.

Lemma rmatch_group {R : Type} nm r1 s caps
      (k : string -> Re.captures -> option R) :
  Re.rmatch (Re.Group nm r1) s caps k
  = Re.rmatch r1 s caps
      (fun s' caps' => k s' ((nm, Re.consumed s s') :: caps')).
Proof. reflexivity. Qed.

Lemma rmatch_lit {R : Type} c s caps (k : string -> Re.captures -> option R) :
  Re.rmatch (Re.Lit c) (String c s) caps k = k s caps.
Proof. simpl. now rewrite Ascii.eqb_refl. Qed.

Lemma owner_repo_match {R : Type} (o rs : string) (caps : Re.captures)
      (k : string -> Re.captures -> option R) (x : R) :
  valid_name o = true -> valid_name rs = true ->
  k "" (("repo", rs) :: ("owner", o) :: caps) = Some x ->
  Re.rmatch
    (Re.Seq (Re.Group "owner" (Re.PlusClass not_slash_space))
       (Re.Seq (Re.Lit "/")
          (Re.Group "repo" (Re.PlusClass not_slash_space))))
    (o ++ "/" ++ rs) caps k = Some x.
Proof.
  intros Ho Hrs Hk. unfold valid_name in *.
  apply andb_true_iff in Ho, Hrs.
  destruct Ho as [Ho1 Ho2], Hrs as [Hrs1 Hrs2].
  assert (Hcls : forall s, all_chars name_char s = true ->
                           all_chars not_slash_space s = true).
  { intros s. apply all_chars_weaken. intros c Hc.
    now destruct (name_char_facts c Hc). }
  rewrite rmatch_seq, rmatch_group.
  apply plus_class_greedy; [exact Ho1 | now apply Hcls | reflexivity |].
  rewrite consumed_app, rmatch_seq. cbn [append].
  rewrite rmatch_lit, rmatch_group.
  rewrite <- (append_empty rs) at 1.
  apply plus_class_greedy; [exact Hrs1 | now apply Hcls | reflexivity |].
  rewrite consumed_all. exact Hk.
Qed.

Lemma https_prefix_match {R : Type} (tail : Re.regex) (t : string)
      (k : string -> Re.captures -> option R) (x : R) :
  Re.rmatch tail t [] k = Some x ->
  Re.rmatch
    (Re.Seq (Re.Opt (Re.Seq (Re.lits "http")
                       (Re.Seq (Re.Opt (Re.Lit "s")) (Re.lits "://"))))
       (Re.Seq (Re.Opt (Re.lits "www."))
          (Re.Seq (Re.lits "github.com/") tail)))
    ("https://github.com/" ++ t) [] k = Some x.
Proof. intros H. cbn. now rewrite H. Qed.

Lemma search_at_start (r : Re.regex) (s : string) (caps : Re.captures) :
  Re.rmatch r s [] (fun _ c => Some c) = Some caps ->
  Re.search r s = Some caps.
Proof. intros H. destruct s; simpl; now rewrite H. Qed.

Lemma search_well_formed (o rs : string) :
  valid_name o = true -> valid_name rs = true ->
  Re.search github_pattern ("https://github.com/" ++ o ++ "/" ++ rs)
  = Some [("repo", rs); ("owner", o)].
Proof.
  intros Ho Hrs. apply search_at_start. unfold github_pattern.
  apply https_prefix_match. now apply owner_repo_match.
Qed.

(** *** [parse_github_url] on well-formed URLs *)

Lemma strip_https (t : string) :
  all_chars (fun x => negb (PyStr.isspace x)) t = true ->
  PyStr.strip ("https://github.com/" ++ t) = ("https://github.com/" ++ t)%string.
Proof.
  intros H. unfold PyStr.strip.
  change (PyStr.lstrip ("https://github.com/" ++ t))
    with ("https://github.com/" ++ t)%string.
  apply rstrip_nonspace. rewrite all_chars_app, H. reflexivity.
Qed.

Lemma strip_ssh (t : string) :
  all_chars (fun x => negb (PyStr.isspace x)) t = true ->
  PyStr.strip ("git@github.com:" ++ t) = ("git@github.com:" ++ t)%string.
Proof.
  intros H. unfold PyStr.strip.
  change (PyStr.lstrip ("git@github.com:" ++ t))
    with ("git@github.com:" ++ t)%string.
  apply rstrip_nonspace. rewrite all_chars_app, H. reflexivity.
Qed.

Lemma no_ssh_prefix_in_https (t : string) :
  all_chars (fun x => negb (Ascii.eqb x "@")) t = true ->
  occurs "git@github.com:" ("https://github.com/" ++ t) = false.
Proof.
  intros H. apply (occurs_needs_char "@"); [reflexivity|].
  rewrite all_chars_app, H. reflexivity.
Qed.

Lemma no_host_colon_in_https (t : string) :
  all_chars (fun x => negb (Ascii.eqb x ":")) t = true ->
  occurs "github.com:" ("https://github.com/" ++ t) = false.
Proof.
  intros H.
  change (occurs "github.com:" ("https://github.com/" ++ t))
    with (occurs "github.com:" t).
  now apply (occurs_needs_char ":").
Qed.

(** From the URL as normalised by the first [replace] on. *)
Lemma parse_normalised (o rs : string) :
  valid_name o = true -> valid_name rs = true ->
  match Re.search github_pattern
          (PyStr.replace "github.com:" "github.com/"
             ("https://github.com/" ++ o ++ "/" ++ rs)) with
  | None => None
  | Some m =>
      match Re.group "owner" m, Re.group "repo" m with
      | Some ow, Some rp => Some (mk_parsed ow (PyStr.replace ".git" "" rp))
      | _, _ => None
      end
  end = Some (mk_parsed o (PyStr.replace ".git" "" rs)).
Proof.
  intros Ho Hrs.
  rewrite (replace_absent _ _ _
             (no_host_colon_in_https _ (tail_no_colon o rs Ho Hrs))).
  rewrite (search_well_formed o rs Ho Hrs). reflexivity.
Qed.

Lemma parse_https (o rs : string) :
  valid_name o = true -> valid_name rs = true ->
  parse_github_url ("https://github.com/" ++ o ++ "/" ++ rs)
  = Some (mk_parsed o (PyStr.replace ".git" "" rs)).
Proof.
  intros Ho Hrs. unfold parse_github_url.
  change (PyStr.truthy ("https://github.com/" ++ o ++ "/" ++ rs)) with true.
  cbv iota. cbn [negb].
  rewrite (strip_https _ (tail_no_space o rs Ho Hrs)).
  rewrite (replace_absent "git@github.com:" _ _
             (no_ssh_prefix_in_https _ (tail_no_at o rs Ho Hrs))).
  now apply parse_normalised.
Qed.

Lemma parse_ssh (o rs : string) :
  valid_name o = true -> valid_name rs = true ->
  parse_github_url ("git@github.com:" ++ o ++ "/" ++ rs)
  = Some (mk_parsed o (PyStr.replace ".git" "" rs)).
Proof.
  intros Ho Hrs. unfold parse_github_url.
  change (PyStr.truthy ("git@github.com:" ++ o ++ "/" ++ rs)) with true.
  cbv iota. cbn [negb].
  rewrite (strip_ssh _ (tail_no_space o rs Ho Hrs)).
  assert (Hfirst : PyStr.replace "git@github.com:" "https://github.com/"
                     ("git@github.com:" ++ o ++ "/" ++ rs)
                   = ("https://github.com/" ++ o ++ "/" ++ rs)%string).
  { unfold PyStr.replace.
    change (PyStr.replace_fuel
              (S (String.length ("git@github.com:" ++ o ++ "/" ++ rs)))
              "git@github.com:" "https://github.com/"
              ("git@github.com:" ++ o ++ "/" ++ rs))
      with ("https://github.com/"
            ++ PyStr.replace_fuel
                 (String.length ("git@github.com:" ++ o ++ "/" ++ rs))
                 "git@github.com:" "https://github.com/"
                 (o ++ "/" ++ rs))%string.
    rewrite replace_fuel_absent; [reflexivity|].
    apply (occurs_needs_char "@"); [reflexivity|].
    now apply tail_no_at. }
  rewrite Hfirst. now apply parse_normalised.
Qed.

Lemma valid_name_git (r : string) :
  valid_name r = true -> valid_name (r ++ ".git") = true.
Proof.
  unfold valid_name. intros H. apply andb_true_iff in H.
  destruct H as [Hne Hall]. rewrite all_chars_app, Hall.
  destruct r; [discriminate | reflexivity].
Qed.

(** X1: where the name holds no [.git] the parser returns it unchanged:
    for an owner and a repository name made of letters, digits, [-], [_]
    and [.], each of the three URL forms yields exactly the owner and the
    name. *)
Lemma parse_github_url_well_formed (o r : string) :
  valid_name o = true -> valid_name r = true -> occurs ".git" r = false ->
  parse_github_url ("https://github.com/" ++ o ++ "/" ++ r)
  = Some (mk_parsed o r)
  /\ parse_github_url ("https://github.com/" ++ o ++ "/" ++ r ++ ".git")
     = Some (mk_parsed o r)
  /\ parse_github_url ("git@github.com:" ++ o ++ "/" ++ r ++ ".git")
     = Some (mk_parsed o r).
Proof.
  intros Ho Hr Hocc.
  pose proof (valid_name_git r Hr) as Hrg.
  rewrite (parse_https o r Ho Hr), (parse_https o _ Ho Hrg),
    (parse_ssh o _ Ho Hrg).
  rewrite (replace_absent _ _ _ Hocc), (replace_git_suffix r Hocc).
  auto.
Qed.

Lemma parse_github_url_well_formed_witness :
  parse_github_url "https://github.com/rocq-prover/rocq"
  = Some (mk_parsed "rocq-prover" "rocq")
  /\ parse_github_url "https://github.com/rocq-prover/rocq.git"
     = Some (mk_parsed "rocq-prover" "rocq")
  /\ parse_github_url "git@github.com:rocq-prover/rocq.git"
     = Some (mk_parsed "rocq-prover" "rocq").
Proof.
  apply (parse_github_url_well_formed "rocq-prover" "rocq");
    reflexivity.
Defined.

(** ** [sort_tree] only reorders, and does it once *)

Lemma insert_sorted_least (x : node) (l : list node) :
  Forall (key_le x) l -> insert_sorted x l = x :: l.
Proof.
  intros H. destruct l as [|y l]; [reflexivity|].
  inversion H as [|y' l' Hy Hl]; subst. simpl.
  unfold key_le in Hy. now rewrite Hy.
Qed.

Lemma sort_children_sorted_same (l : list node) :
  StronglySorted key_le l -> sort_children l = l.
Proof.
  induction 1 as [|x l Hl IH Hx]; [reflexivity|].
  cbn [sort_children]. rewrite IH. now apply insert_sorted_least.
Qed.

Lemma sort_tree_eq (n : node) :
  sort_tree n =
  mk_node (name n) (sort_children (map sort_tree (children n)))
          (path n) (isFile n) (summary n).
Proof. destruct n; reflexivity. Qed.

Lemma map_fixed {A : Type} (f : A -> A) (l : list A) :
  Forall (fun x => f (f x) = f x) l -> map f (map f l) = map f l.
Proof.
  induction 1 as [|x l Hx Hl IH]; simpl; [reflexivity|].
  now rewrite Hx, IH.
Qed.

(** X2: sorting a sorted tree changes nothing. *)
Theorem sort_tree_idempotent (t : node) :
  sort_tree (sort_tree t) = sort_tree t.
Proof.
  induction t as [nm cs p f s IH] using node_induction.
  rewrite (sort_tree_eq (sort_tree _)).
  destruct (sort_tree_fields (mk_node nm cs p f s)) as (-> & -> & -> & ->).
  rewrite sort_tree_children.
  rewrite (sort_children_map sort_tree sort_tree_key). cbn [children].
  rewrite (map_fixed sort_tree _ IH).
  rewrite (sort_children_sorted_same _ (sort_children_sorted _)).
  symmetry. apply sort_tree_eq.
Qed.

Lemma label_sort_tree (n : node) : label (sort_tree n) = label n.
Proof. destruct n; reflexivity. Qed.

Lemma Permutation_flat_map_list {A B : Type} (f : A -> list B)
      (l l' : list A) :
  Permutation l l' -> Permutation (flat_map f l) (flat_map f l').
Proof.
  induction 1 as [|x l l' Hp IH|x y l|l l' l'' H1 IH1 H2 IH2]; simpl.
  - constructor.
  - now apply Permutation_app_head.
  - rewrite !app_assoc. apply Permutation_app_tail, Permutation_app_comm.
  - now transitivity (flat_map f l').
Qed.

Lemma nodes_sort_tree_perm (t : node) :
  Permutation (map label (nodes (sort_tree t))) (map label (nodes t)).
Proof.
  induction t as [nm cs p f s IH] using node_induction.
  rewrite (nodes_unfold (sort_tree _)), (nodes_unfold (mk_node _ _ _ _ _)).
  cbn [map]. rewrite label_sort_tree. constructor.
  rewrite sort_tree_children. cbn [children].
  transitivity (map label (flat_map nodes (map sort_tree cs))).
  - apply Permutation_map, Permutation_flat_map_list, sort_children_perm.
  - clear nm p f s. induction IH as [|c cs Hc Hcs IHcs]; simpl.
    + constructor.
    + rewrite !map_app. now apply Permutation_app.
Qed.

(** X3: [sort_tree] only reorders: the nodes of the sorted tree, each with
    its name, path, [isFile] and summary, are those of the tree it was
    given, none lost and none repeated, and the root stays the root. *)
Theorem sort_tree_only_reorders (t : node) :
  Permutation (map label (nodes (sort_tree t))) (map label (nodes t))
  /\ label (sort_tree t) = label t.
Proof. split; [apply nodes_sort_tree_perm | apply label_sort_tree]. Qed.

(** ** The aggregator *)

Lemma traverse_unfold w (n : node) :
  traverse w n =
  (if get_isFile n then [summary_entry w n] else [])
  ++ flat_map (traverse w) (children n).
Proof. destruct n; reflexivity. Qed.

Lemma traverse_entries w (t : node) :
  traverse w t = map (summary_entry w) (filter get_isFile (nodes t)).
Proof.
  induction t as [nm cs p f s IH] using node_induction.
  rewrite traverse_unfold, nodes_unfold. cbn [filter children].
  assert (Hkids : flat_map (traverse w) cs
                  = map (summary_entry w)
                        (filter get_isFile (flat_map nodes cs))).
  { induction IH as [|c cs Hc Hcs IHcs]; simpl; [reflexivity|].
    now rewrite filter_app, map_app, Hc, IHcs. }
  rewrite Hkids. now destruct (get_isFile (mk_node nm cs p f s)).
Qed.

(** X4: the [summaries] text of a response is made of one entry per node
    of the returned tree whose [isFile] is true, in the order of the tree
    (a node before its children, children in their sorted order), joined
    by newlines; a node that was given no summary has the entry
    [N/A]. *)
Theorem summaries_list_the_file_nodes
        (w : world) (url : string) (resp : repo_response) (calls : list call) :
  get_repo w url = (Ok resp, calls) ->
  summaries resp
  = String.concat nl
      (map (summary_entry w) (filter get_isFile (nodes (tree resp))))
  /\ forall n, summary n = None ->
       summary_entry w n
       = ("File: " ++ path n ++ nl ++ "Summary: N/A" ++ nl)%string.
Proof.
  intros H. split.
  - unfold get_repo in H. destruct (parse_github_url url) as [parsed|];
      [|discriminate].
    apply reraise_Ok in H. unfold get_repo_body in H.
    run_step H fetched Htree. cbv zeta in H.
    run_step H listing Hlisting.
    run_step H entries Hentries.
    run_step H blobs Hblobs.
    run_step H items Hitems.
    run_step H root Hroot.
    unfold ret in H. injection H as <- <-. simpl.
    unfold collect_summaries. now rewrite traverse_entries.
  - intros n Hn. unfold summary_entry. now rewrite Hn.
Qed.

Lemma summaries_list_the_file_nodes_witness :
  exists resp calls,
    get_repo Demo.one_unreadable Demo.url_bar = (Ok resp, calls)
    /\ summaries resp
       = String.concat nl
           (map (summary_entry Demo.one_unreadable)
                (filter get_isFile (nodes (tree resp)))).
Proof.
  eexists. eexists. split; [vm_compute; reflexivity|].
  exact (proj1 (summaries_list_the_file_nodes Demo.one_unreadable
                  Demo.url_bar _ _ eq_refl)).
Defined.

(** ** Paths in the built tree *)

Lemma find_node_scan p rest c l :
  find_node (p :: rest) (c :: l) =
  if String.eqb (name c) p
  then match rest with
       | [] => Some c
       | _ :: _ => find_node rest (children c)
       end
  else find_node (p :: rest) l.
Proof. reflexivity. Qed.

Lemma has_path_find_node (parts : list string) :
  forall cs,
    parts <> [] -> has_path parts cs = true ->
    exists n, find_node parts cs = Some n
              /\ name n = last parts "".
Proof.
  induction parts as [|p rest IH]; intros cs Hne H; [contradiction|].
  induction cs as [|c l IHl]; [discriminate|].
  rewrite has_path_scan in H. rewrite find_node_scan.
  destruct (String.eqb_spec (name c) p) as [Hn|Hn]; [|now apply IHl].
  destruct rest as [|q rest'].
  - exists c. auto.
  - destruct (IH (children c)) as [n [Hfind Hname]];
      [discriminate | exact H |].
    exists n. split; [exact Hfind | exact Hname].
Qed.

Lemma walk_paths_below ty (parts : list string) :
  forall pp cs, paths_below pp cs -> paths_below pp (walk ty parts pp cs).
Proof.
  induction parts as [|p rest IH]; intros pp cs Hcs; [exact Hcs|].
  induction Hcs as [pp|pp c l Hc Hkids _ Hl IHl].
  - rewrite walk_new. constructor; simpl.
    + reflexivity.
    + apply IH. constructor.
    + constructor.
  - rewrite walk_scan. destruct (String.eqb (name c) p).
    + constructor.
      * destruct c; exact Hc.
      * destruct c; simpl in *. now apply IH.
      * exact Hl.
    + constructor; assumption.
Qed.

Lemma build_paths_below (items : list item) :
  forall root,
    paths_below (path root) (children root) ->
    paths_below (path (fold_left insert_item items root))
                (children (fold_left insert_item items root)).
Proof.
  induction items as [|it items IH]; intros root H; simpl; [exact H|].
  apply IH. unfold insert_item. destruct root as [nm cs p f s]; simpl in *.
  now apply walk_paths_below.
Qed.

Lemma paths_below_nodes (pp : string) (cs : list node) :
  paths_below pp cs ->
  forall c, In c cs ->
    path c = child_path pp (name c)
    /\ forall n d, In n (nodes c) -> In d (children n) ->
                   path d = child_path (path n) (name d).
Proof.
  induction 1 as [pp|pp c cs Hc Hkids IHkids Hcs IHcs]; intros c0 Hc0.
  - destruct Hc0.
  - destruct Hc0 as [<-|Hc0]; [|now apply IHcs].
    split; [exact Hc|]. intros n d Hn Hd.
    rewrite nodes_unfold in Hn. destruct Hn as [<-|Hn].
    + now apply IHkids.
    + apply in_flat_map in Hn. destruct Hn as [c1 [Hc1 Hn]].
      destruct (IHkids c1 Hc1) as [_ Hbelow]. now apply (Hbelow n d).
Qed.

(** X5: in a built tree the path of every node is made from its parent:
    the parent's path, a slash and the node's name, or the name alone
    under a parent whose path is empty. *)
Theorem build_hierarchy_paths (items : list item) (n d : node) :
  In n (nodes (build_hierarchy items)) -> In d (children n) ->
  path d = child_path (path n) (name d).
Proof.
  intros Hn Hd.
  assert (H : paths_below (path (build_hierarchy items))
                          (children (build_hierarchy items))).
  { apply build_paths_below. constructor. }
  rewrite nodes_unfold in Hn. destruct Hn as [<-|Hn].
  - now destruct (paths_below_nodes _ _ H d Hd).
  - apply in_flat_map in Hn. destruct Hn as [c [Hc Hn]].
    destruct (paths_below_nodes _ _ H c Hc) as [_ Hbelow].
    now apply (Hbelow n d).
Qed.

Lemma build_hierarchy_paths_witness :
  let app := mk_node "app" [mk_node "main.py" [] "src/app/main.py"
                              (Some true) None]
                     "src/app" (Some false) None in
  let src := mk_node "src" [app] "src" (Some false) None in
  In src (nodes (build_hierarchy [mk_item "src/app/main.py" "blob"]))
  /\ In app (children src)
  /\ path app = "src/app".
Proof.
  intros app src.
  assert (Hn : In src (nodes (build_hierarchy
                                [mk_item "src/app/main.py" "blob"])))
    by (right; left; reflexivity).
  assert (Hd : In app (children src)) by (left; reflexivity).
  split; [exact Hn|]. split; [exact Hd|].
  exact (build_hierarchy_paths _ src app Hn Hd).
Defined.

(** *** A record's path leads to its node *)

Lemma split_not_nil (sep : ascii) (s : string) : PyStr.split sep s <> [].
Proof.
  destruct s as [|c s]; simpl; [discriminate|].
  destruct (Ascii.eqb c sep); [discriminate|].
  destruct (PyStr.split sep s); discriminate.
Qed.

Lemma concat_cons (sep x : string) (l : list string) :
  l <> [] ->
  String.concat sep (x :: l) = (x ++ sep ++ String.concat sep l)%string.
Proof. destruct l; [contradiction | reflexivity]. Qed.

(** ["/".join(s.split("/"))] is [s]. *)
Lemma join_split (s : string) : String.concat "/" (PyStr.split "/" s) = s.
Proof.
  induction s as [|c s IH]; [reflexivity|].
  cbn [PyStr.split]. destruct (Ascii.eqb_spec c "/") as [->|Hc].
  - rewrite concat_cons by apply split_not_nil. now rewrite IH.
  - pose proof (split_not_nil "/" s) as Hne.
    destruct (PyStr.split "/" s) as [|w ws]; [contradiction|].
    destruct ws as [|w' ws].
    + simpl in *. now rewrite IH.
    + rewrite concat_cons by discriminate.
      rewrite concat_cons in IH by discriminate.
      rewrite <- IH. reflexivity.
Qed.

Lemma split_head_truthy (c : ascii) (s : string) :
  Ascii.eqb c "/" = false ->
  exists p rest, PyStr.split "/" (String c s) = p :: rest
                 /\ PyStr.truthy p = true.
Proof.
  intros Hc. cbn [PyStr.split]. rewrite Hc.
  destruct (PyStr.split "/" s) as [|w ws]; eexists; eexists; split;
    reflexivity.
Qed.

Lemma child_path_truthy (pp p : string) :
  PyStr.truthy pp = true ->
  child_path pp p = (pp ++ "/" ++ p)%string
  /\ PyStr.truthy (child_path pp p) = true.
Proof.
  intros H. unfold child_path. rewrite H. split; [reflexivity|].
  destruct pp; [discriminate | reflexivity].
Qed.

Lemma append_assoc (a b c : string) :
  ((a ++ b) ++ c)%string = (a ++ b ++ c)%string.
Proof. induction a as [|x a IH]; simpl; [reflexivity | now rewrite IH]. Qed.

Lemma fold_child_path (rest : list string) :
  forall p, PyStr.truthy p = true ->
            fold_left child_path rest p = String.concat "/" (p :: rest).
Proof.
  induction rest as [|q rest IH]; intros p Hp; [reflexivity|].
  cbn [fold_left]. destruct (child_path_truthy p q Hp) as [-> Ht].
  rewrite (IH _ Ht). rewrite (concat_cons "/" p (q :: rest)) by discriminate.
  destruct rest as [|r rest].
  - reflexivity.
  - rewrite !(concat_cons "/" _ (r :: rest)) by discriminate.
    now rewrite !append_assoc.
Qed.

Lemma find_node_path (parts : list string) :
  forall pp cs n,
    paths_below pp cs -> find_node parts cs = Some n ->
    path n = fold_left child_path parts pp.
Proof.
  induction parts as [|p rest IH]; intros pp cs n Hcs Hfind; [discriminate|].
  induction Hcs as [pp|pp c l Hc Hkids _ Hl IHl]; [discriminate|].
  rewrite find_node_scan in Hfind.
  destruct (String.eqb_spec (name c) p) as [Hn|Hn]; [|now apply IHl].
  cbn [fold_left]. subst p. rewrite <- Hc. destruct rest as [|q rest'].
  - injection Hfind as <-. reflexivity.
  - exact (IH (path c) (children c) n Hkids Hfind).
Qed.

(** X6: every record of the input is found again in the built tree: its
    segments lead to a node that bears the last segment as its name, and,
    unless the record's path starts with a slash, the record's path as its
    path. *)
Theorem build_hierarchy_lookup (items : list item) (it : item) :
  In it items ->
  exists n,
    find_node (segments it) (children (build_hierarchy items)) = Some n
    /\ name n = last (segments it) ""
    /\ (PyStr.drop_prefix "/" (item_path it) = None ->
        path n = item_path it).
Proof.
  intros Hin. apply in_split in Hin. destruct Hin as (l1 & l2 & ->).
  destruct (has_path_find_node (segments it)
              (children (build_hierarchy (l1 ++ it :: l2))))
    as [n [Hfind Hname]].
  - apply split_not_nil.
  - apply build_prefix_has_path.
  - exists n. split; [exact Hfind|]. split; [exact Hname|].
    intros Hslash.
    assert (Hp : paths_below (path (build_hierarchy (l1 ++ it :: l2)))
                   (children (build_hierarchy (l1 ++ it :: l2)))).
    { apply build_paths_below. constructor. }
    rewrite (find_node_path _ _ _ _ Hp Hfind).
    replace (path (build_hierarchy (l1 ++ it :: l2))) with ""
      by (symmetry;
          apply (proj1 (fold_insert_root_shape (l1 ++ it :: l2) empty_root))).
    unfold segments in *.
    destruct (item_path it) as [|c s] eqn:E; [reflexivity|].
    cbn [PyStr.drop_prefix] in Hslash.
    destruct (Ascii.eqb "/" c) eqn:Ec; [discriminate|].
    rewrite Ascii.eqb_sym in Ec.
    destruct (split_head_truthy c s Ec) as (p & rest & Hsplit & Hp').
    rewrite Hsplit. cbn [fold_left].
    change (child_path "" p) with p.
    rewrite (fold_child_path rest p Hp'), <- Hsplit. apply join_split.
Qed.

Lemma build_hierarchy_lookup_witness :
  exists n,
    find_node ["src"; "app"]
      (children (build_hierarchy [mk_item "src/app/main.py" "blob";
                                  mk_item "src/app" "tree"])) = Some n
    /\ name n = "app" /\ path n = "src/app".
Proof.
  destruct (build_hierarchy_lookup
              [mk_item "src/app/main.py" "blob"; mk_item "src/app" "tree"]
              (mk_item "src/app" "tree"))
    as (n & Hfind & Hname & Hpath); [right; left; reflexivity|].
  exists n. split; [exact Hfind|]. split; [exact Hname|].
  exact (Hpath eq_refl).
Defined.

(** ** The requests of one [GET /api/repo] *)

Lemma file_tasks_unfold (n : node) :
  Schedule.file_tasks n =
  if get_isFile n then [n] else flat_map Schedule.file_tasks (children n).
Proof. destruct n; reflexivity. Qed.

Lemma gather_with_Forall2 {A B : Type} (f : A -> io B) (l : list A) :
  forall l', fst (gather_with f l) = Ok l' ->
             Forall2 (fun c c' => fst (f c) = Ok c') l l'.
Proof.
  induction l as [|c l IH]; cbn [gather_with]; intros l' H.
  - injection H as <-. constructor.
  - apply bind_fst_Ok in H. destruct H as [c' [Hc' H]].
    apply bind_fst_Ok in H. destruct H as [l'' [Hl'' H]].
    injection H as <-. constructor; [exact Hc' | now apply IH].
Qed.

Lemma bind_log_Ok {A B : Type} (m : io A) (f : A -> io B) (b : B) :
  fst (bind m f) = Ok b ->
  exists a, fst m = Ok a /\ fst (f a) = Ok b
            /\ snd (bind m f) = snd m ++ snd (f a).
Proof.
  unfold bind. destruct m as [[a|e] l]; simpl; [|discriminate].
  intros H. exists a. destruct (f a) as [o l']; simpl in *. auto.
Qed.

Lemma summarize_file_log w o r sha (n : node) :
  exists posts,
    snd (summarize_file w o r sha n)
    = FetchText (raw_url o r sha n) :: posts
    /\ (posts = [] \/ exists msgs, posts = [GroqPost msgs]).
Proof.
  unfold summarize_file, fetch_text, do_get, bind.
  destruct (session_get w (raw_url o r sha n)) as [resp|msg]; simpl.
  - destruct (negb (status resp =? 200)%Z); simpl.
    + exists []. auto.
    + destruct (PyStr.truthy (text resp)); simpl; [|exists []; auto].
      unfold get_groq_response.
      destruct (key_missing w); simpl; [exists []; auto|].
      unfold do_post, bind.
      destruct (session_post w _) as [presp|pmsg]; simpl.
      * destruct (negb (status presp =? 200)%Z); simpl;
          [eexists; split; [reflexivity | right; eexists; reflexivity]|].
        destruct (json_loads w (text presp)) as [data|]; simpl;
          [|eexists; split; [reflexivity | right; eexists; reflexivity]].
        destruct (reply_content data); simpl;
          eexists; (split; [reflexivity | right; eexists; reflexivity]).
      * eexists; split; [reflexivity | right; eexists; reflexivity].
  - exists []. auto.
Qed.

Lemma posts_within_fetches_ret {A : Type} (a : A) :
  posts_within_fetches (ret a).
Proof. unfold posts_within_fetches; simpl; lia. Qed.

Lemma posts_within_fetches_bind {A B : Type} (m : io A) (f : A -> io B) :
  posts_within_fetches m -> (forall a, posts_within_fetches (f a)) ->
  posts_within_fetches (bind m f).
Proof.
  unfold posts_within_fetches, bind. intros Hm Hf.
  destruct m as [[a|e] l]; simpl in *; [|exact Hm].
  specialize (Hf a). destruct (f a) as [o l']; simpl in *.
  rewrite !filter_app, !length_app. lia.
Qed.

Lemma posts_within_fetches_file w o r sha n :
  posts_within_fetches (summarize_file w o r sha n).
Proof.
  unfold posts_within_fetches.
  destruct (summarize_file_log w o r sha n) as (posts & -> & [->|[msgs ->]]);
    simpl; lia.
Qed.

Lemma posts_within_fetches_gather {A B : Type} (f : A -> io B) (l : list A) :
  Forall (fun x => posts_within_fetches (f x)) l ->
  posts_within_fetches (gather_with f l).
Proof.
  induction 1 as [|x l Hx Hl IH]; cbn [gather_with].
  - apply posts_within_fetches_ret.
  - apply posts_within_fetches_bind; [exact Hx|]. intros b.
    apply posts_within_fetches_bind; [exact IH|]. intros bs.
    apply posts_within_fetches_ret.
Qed.

Lemma posts_within_fetches_summaries w o r sha (n : node) :
  posts_within_fetches (generate_summaries w o r sha n).
Proof.
  induction n as [nm cs p f s IH] using node_induction.
  destruct (get_isFile (mk_node nm cs p f s)) eqn:E.
  - rewrite (generate_summaries_file _ _ _ _ _ E).
    apply posts_within_fetches_file.
  - rewrite (generate_summaries_dir _ _ _ _ _ E).
    apply posts_within_fetches_bind;
      [now apply posts_within_fetches_gather|].
    intros cs'. apply posts_within_fetches_ret.
Qed.

Lemma summarize_file_fetches w o r sha (n : node) :
  filter is_fetch_text (snd (summarize_file w o r sha n))
  = [FetchText (raw_url o r sha n)].
Proof.
  destruct (summarize_file_log w o r sha n) as (posts & -> & [->|[msgs ->]]);
    reflexivity.
Qed.

Lemma gather_with_fetches (f : node -> io node) (g : node -> list call)
      (l : list node) :
  Forall (fun c => forall c', fst (f c) = Ok c' ->
                     filter is_fetch_text (snd (f c)) = g c) l ->
  forall l', fst (gather_with f l) = Ok l' ->
             filter is_fetch_text (snd (gather_with f l)) = flat_map g l.
Proof.
  induction 1 as [|c l Hc Hl IH]; cbn [gather_with]; intros l' H.
  - reflexivity.
  - apply bind_log_Ok in H. destruct H as (c' & Hc' & H & ->).
    apply bind_log_Ok in H. destruct H as (l'' & Hl'' & H & ->).
    simpl. rewrite !filter_app, (Hc c' Hc'), (IH l'' Hl''). simpl.
    now rewrite app_nil_r.
Qed.

Lemma generate_summaries_fetches w o r sha (n : node) :
  forall n', fst (generate_summaries w o r sha n) = Ok n' ->
    filter is_fetch_text (snd (generate_summaries w o r sha n))
    = map (fun f => FetchText (raw_url o r sha f)) (Schedule.file_tasks n).
Proof.
  induction n as [nm cs p f s IH] using node_induction. intros n' H.
  rewrite file_tasks_unfold.
  destruct (get_isFile (mk_node nm cs p f s)) eqn:E.
  - rewrite (generate_summaries_file _ _ _ _ _ E).
    apply summarize_file_fetches.
  - rewrite (generate_summaries_dir _ _ _ _ _ E) in *.
    apply bind_log_Ok in H. destruct H as (cs' & Hcs' & H & ->).
    simpl. rewrite app_nil_r. cbn [children] in *.
    rewrite (gather_with_fetches _
               (fun c => map (fun f => FetchText (raw_url o r sha f))
                             (Schedule.file_tasks c)) cs IH cs' Hcs').
    clear. induction cs as [|c cs IHcs]; simpl; [reflexivity|].
    now rewrite map_app, IHcs.
Qed.

Lemma file_tasks_paths_summaries w o r sha (n : node) :
  forall n', fst (generate_summaries w o r sha n) = Ok n' ->
    map path (Schedule.file_tasks n') = map path (Schedule.file_tasks n).
Proof.
  induction n as [nm cs p f s IH] using node_induction. intros n' H.
  destruct (get_isFile (mk_node nm cs p f s)) eqn:E.
  - rewrite (generate_summaries_file _ _ _ _ _ E) in H.
    apply summarize_file_Ok in H. destruct H as [v ->].
    rewrite !file_tasks_unfold.
    change (get_isFile (set_summary (mk_node nm cs p f s) v))
      with (get_isFile (mk_node nm cs p f s)).
    rewrite E. reflexivity.
  - rewrite (generate_summaries_dir _ _ _ _ _ E) in H.
    apply bind_fst_Ok in H. destruct H as [cs' [Hcs' H]].
    injection H as <-. rewrite !file_tasks_unfold.
    change (get_isFile (set_children (mk_node nm cs p f s) cs'))
      with (get_isFile (mk_node nm cs p f s)).
    rewrite E. cbn [children set_children] in *.
    apply gather_with_Forall2 in Hcs'. clear E.
    induction Hcs' as [|c c' l l' Hc Hl IHl]; [reflexivity|].
    inversion IH as [|c0 l0 Hc0 Hl0]; subst.
    simpl. rewrite !map_app, (Hc0 c' Hc), (IHl Hl0). reflexivity.
Qed.

Lemma file_tasks_paths_sort_tree (t : node) :
  Permutation (map path (Schedule.file_tasks (sort_tree t)))
              (map path (Schedule.file_tasks t)).
Proof.
  induction t as [nm cs p f s IH] using node_induction.
  rewrite !file_tasks_unfold.
  change (get_isFile (sort_tree (mk_node nm cs p f s)))
    with (get_isFile (mk_node nm cs p f s)).
  destruct (get_isFile (mk_node nm cs p f s)); [reflexivity|].
  rewrite sort_tree_children. cbn [children].
  transitivity (map path (flat_map Schedule.file_tasks (map sort_tree cs))).
  - apply Permutation_map, Permutation_flat_map_list, sort_children_perm.
  - clear nm p f s. induction IH as [|c cs Hc Hcs IHcs]; simpl.
    + constructor.
    + rewrite !map_app. now apply Permutation_app.
Qed.

Lemma fetch_tree_log w o r (v : json * json) (log : list call) :
  fetch_tree w o r = (Ok v, log) ->
  List.length log = 4 /\ Forall (fun c => is_fetch_json c = true) log.
Proof.
  intros H. unfold fetch_tree in H.
  run_step H repo_meta Hmeta.
  run_step H default_branch Hbranch.
  run_step H ref Href.
  run_step H ref_object Hobject.
  run_step H commit_sha Hsha.
  run_step H commit_obj Hcommit.
  run_step H commit_tree Hctree.
  run_step H tree_sha Htsha.
  run_step H tree_resp Htree.
  unfold ret in H. injection H as <- <-.
  split; [reflexivity|]. simpl. repeat constructor.
Qed.

Lemma fetches_by_path o r sha (l : list node) :
  map (fun f => FetchText (raw_url o r sha f)) l
  = map (fun p => FetchText (raw_url_of_path o r sha p)) (map path l).
Proof. now rewrite map_map. Qed.

(** X7: a request that succeeds has made exactly the four calls of the
    metadata chain, all before anything else, then one raw-content fetch
    for each file the summariser visits in the returned tree, at that
    file's URL under the tree's SHA, and no more LLM calls than
    fetches. *)
Theorem get_repo_requests
        (w : world) (url : string) (resp : repo_response) (calls : list call) :
  get_repo w url = (Ok resp, calls) ->
  exists parsed tree_sha tree_resp meta rest,
    parse_github_url url = Some parsed
    /\ fetch_tree w (owner parsed) (repo parsed)
       = (Ok (tree_sha, tree_resp), meta)
    /\ calls = meta ++ rest
    /\ List.length meta = 4
    /\ Forall (fun c => is_fetch_json c = true) meta
    /\ (forall u, ~ In (FetchJson u) rest)
    /\ Permutation
         (filter is_fetch_text rest)
         (map (fun f => FetchText (raw_url (owner parsed) (repo parsed)
                                     (fmt w tree_sha) f))
              (Schedule.file_tasks (tree resp)))
    /\ List.length (filter is_groq_post rest)
       <= List.length (filter is_fetch_text rest).
Proof.
  unfold get_repo. destruct (parse_github_url url) as [parsed|];
    [|discriminate].
  intros H. apply reraise_Ok in H. unfold get_repo_body in H.
  run_step H fetched Htree. destruct fetched as [tree_sha tree_resp].
  cbv zeta in H. cbn [fst snd] in H.
  run_step H listing Hlisting.
  run_step H entries Hentries.
  run_step H blobs Hblobs.
  run_step H items Hitems.
  run_step H root Hroot.
  unfold ret in H. injection H as <- <-.
  destruct (fetch_tree_log _ _ _ _ _ Htree) as [Hlen Hmeta].
  match type of Htree with
  | _ = (_, ?meta) =>
      match type of Hroot with
      | _ = (_, ?rest) => exists parsed, tree_sha, tree_resp, meta, rest
      end
  end.
  cbn [app]. rewrite app_nil_r.
  repeat split; try assumption.
  - intros u.
    pose proof (proj2 (quiet_generate_summaries w (owner parsed) (repo parsed)
                         (fmt w tree_sha) (build_hierarchy items)) u) as Hq.
    now rewrite Hroot in Hq.
  - pose proof (generate_summaries_fetches w (owner parsed) (repo parsed)
                  (fmt w tree_sha) (build_hierarchy items) root
                  (f_equal fst Hroot)) as Hf.
    rewrite Hroot in Hf. cbn [snd] in Hf. rewrite Hf. cbn [tree].
    rewrite !fetches_by_path. apply Permutation_map.
    rewrite <- (file_tasks_paths_summaries _ _ _ _ _ root
                  (f_equal fst Hroot)).
    symmetry. apply file_tasks_paths_sort_tree.
  - pose proof (posts_within_fetches_summaries w (owner parsed)
                  (repo parsed) (fmt w tree_sha) (build_hierarchy items))
      as Hp.
    unfold posts_within_fetches in Hp. now rewrite Hroot in Hp.
Qed.

Lemma get_repo_requests_witness :
  exists resp calls meta rest,
    get_repo Demo.healthy Demo.url_bar = (Ok resp, calls)
    /\ calls = meta ++ rest
    /\ List.length meta = 4
    /\ Permutation
         (filter is_fetch_text rest)
         (map (fun f => FetchText (raw_url "foo" "bar" "7ee" f))
              (Schedule.file_tasks (tree resp))).
Proof.
  destruct (get_repo Demo.healthy Demo.url_bar) as [o calls] eqn:E.
  assert (Hok : exists resp, o = Ok resp).
  { vm_compute in E. injection E as <- _. eexists. reflexivity. }
  destruct Hok as [resp ->].
  destruct (get_repo_requests Demo.healthy Demo.url_bar resp calls E)
    as (parsed & tree_sha & tree_resp & meta & rest & Hparsed & Htree
        & Hcalls & Hlen & Hmeta & Hrest & Hperm & Hposts).
  exists resp, calls, meta, rest.
  split; [reflexivity|]. split; [exact Hcalls|]. split; [exact Hlen|].
  vm_compute in Hparsed. injection Hparsed as <-.
  vm_compute in Htree. injection Htree as <- _ _.
  exact Hperm.
Defined.

(** ** Where the summaries end up *)

Lemma forest_all_nodes (P : node -> Prop) (cs : list node) :
  forest_all P cs -> forall c n, In c cs -> In n (nodes c) -> P n.
Proof.
  induction 1 as [|c cs Hc Hkids IHkids Hcs IHcs]; intros c0 n Hc0 Hn.
  - destruct Hc0.
  - destruct Hc0 as [<-|Hc0]; [|now apply (IHcs c0 n)].
    rewrite nodes_unfold in Hn. destruct Hn as [<-|Hn]; [exact Hc|].
    apply in_flat_map in Hn. destruct Hn as [c1 [Hc1 Hn]].
    now apply (IHkids c1 n).
Qed.

Lemma walk_without_summary ty (parts : list string) :
  forall pp cs,
    forest_all (fun n => summary n = None) cs ->
    forest_all (fun n => summary n = None) (walk ty parts pp cs).
Proof.
  induction parts as [|p rest IH]; intros pp cs Hcs; [exact Hcs|].
  induction Hcs as [|c l Hc Hkids _ Hl IHl].
  - rewrite walk_new. constructor; simpl.
    + reflexivity.
    + apply IH. constructor.
    + constructor.
  - rewrite walk_scan. destruct (String.eqb (name c) p).
    + constructor.
      * destruct c; exact Hc.
      * destruct c; simpl in *. now apply IH.
      * exact Hl.
    + constructor; assumption.
Qed.

Lemma build_without_summary (items : list item) (n : node) :
  In n (nodes (build_hierarchy items)) -> summary n = None.
Proof.
  assert (H : forall l root,
             summary root = None ->
             forest_all (fun n => summary n = None) (children root) ->
             summary (fold_left insert_item l root) = None
             /\ forest_all (fun n => summary n = None)
                  (children (fold_left insert_item l root))).
  { induction l as [|it l IH]; intros root Hr Hc; simpl; [auto|].
    apply IH.
    - destruct root; exact Hr.
    - unfold insert_item. simpl children. now apply walk_without_summary. }
  destruct (H items empty_root eq_refl (forest_nil _)) as [Hroot Hkids].
  fold (build_hierarchy items) in Hroot, Hkids.
  rewrite nodes_unfold. intros [<-|Hn]; [exact Hroot|].
  apply in_flat_map in Hn. destruct Hn as [c [Hc Hn]].
  exact (forest_all_nodes _ _ Hkids c n Hc Hn).
Qed.

Lemma Forall2_In_r {A B : Type} (R : A -> B -> Prop) (l : list A)
      (l' : list B) (b : B) :
  Forall2 R l l' -> In b l' -> exists a, In a l /\ R a b.
Proof.
  induction 1 as [|x y l l' Hxy Hl IH]; intros Hb; [destruct Hb|].
  destruct Hb as [<-|Hb].
  - exists x. split; [now left | exact Hxy].
  - destruct (IH Hb) as [a [Ha HR]]. exists a. split; [now right | exact HR].
Qed.

Lemma summaries_on_directories w o r sha (n : node) :
  forall n',
    fst (generate_summaries w o r sha n) = Ok n' ->
    (forall m, In m (nodes n) -> summary m = None) ->
    forall m', In m' (nodes n') -> get_isFile m' = false ->
               summary m' = None.
Proof.
  induction n as [nm cs p f s IH] using node_induction.
  intros n' H Hnone m' Hm' Hdir.
  destruct (get_isFile (mk_node nm cs p f s)) eqn:E.
  - rewrite (generate_summaries_file _ _ _ _ _ E) in H.
    apply summarize_file_Ok in H. destruct H as [v ->].
    rewrite nodes_unfold in Hm'. destruct Hm' as [<-|Hm'].
    + change (get_isFile (set_summary (mk_node nm cs p f s) v))
        with (get_isFile (mk_node nm cs p f s)) in Hdir. congruence.
    + apply Hnone. rewrite nodes_unfold. right. exact Hm'.
  - rewrite (generate_summaries_dir _ _ _ _ _ E) in H.
    apply bind_fst_Ok in H. destruct H as [cs' [Hcs' H]].
    injection H as <-. cbn [children] in Hcs'.
    apply gather_with_Forall2 in Hcs'.
    rewrite nodes_unfold in Hm'. destruct Hm' as [<-|Hm'].
    + apply (Hnone (mk_node nm cs p f s)). rewrite nodes_unfold. now left.
    + cbn [children set_children] in Hm'.
      apply in_flat_map in Hm'. destruct Hm' as [c' [Hc' Hm']].
      destruct (Forall2_In_r _ _ _ _ Hcs' Hc') as [c [Hc Hrun]].
      rewrite Forall_forall in IH.
      apply (IH c Hc c' Hrun); [|exact Hm' | exact Hdir].
      intros m Hm. apply Hnone. rewrite nodes_unfold. right.
      apply in_flat_map. exists c. auto.
Qed.

Lemma summaries_on_files w o r sha (n : node) :
  forall n',
    fst (generate_summaries w o r sha n) = Ok n' ->
    forall m', In m' (Schedule.file_tasks n') ->
               exists v, summary m' = Some v.
Proof.
  induction n as [nm cs p f s IH] using node_induction.
  intros n' H m' Hm'.
  destruct (get_isFile (mk_node nm cs p f s)) eqn:E.
  - rewrite (generate_summaries_file _ _ _ _ _ E) in H.
    apply summarize_file_Ok in H. destruct H as [v ->].
    rewrite file_tasks_unfold in Hm'.
    change (get_isFile (set_summary (mk_node nm cs p f s) v))
      with (get_isFile (mk_node nm cs p f s)) in Hm'.
    rewrite E in Hm'. destruct Hm' as [<-|[]]. now exists v.
  - rewrite (generate_summaries_dir _ _ _ _ _ E) in H.
    apply bind_fst_Ok in H. destruct H as [cs' [Hcs' H]].
    injection H as <-. cbn [children] in Hcs'.
    apply gather_with_Forall2 in Hcs'.
    rewrite file_tasks_unfold in Hm'.
    change (get_isFile (set_children (mk_node nm cs p f s) cs'))
      with (get_isFile (mk_node nm cs p f s)) in Hm'.
    rewrite E in Hm'. cbn [children set_children] in Hm'.
    apply in_flat_map in Hm'. destruct Hm' as [c' [Hc' Hm']].
    destruct (Forall2_In_r _ _ _ _ Hcs' Hc') as [c [Hc Hrun]].
    rewrite Forall_forall in IH. exact (IH c Hc c' Hrun m' Hm').
Qed.

Lemma file_tasks_sort_tree (t m : node) :
  In m (Schedule.file_tasks (sort_tree t)) ->
  exists m0, In m0 (Schedule.file_tasks t) /\ m = sort_tree m0.
Proof.
  revert m. induction t as [nm cs p f s IH] using node_induction.
  intros m Hm. rewrite file_tasks_unfold in Hm.
  change (get_isFile (sort_tree (mk_node nm cs p f s)))
    with (get_isFile (mk_node nm cs p f s)) in Hm.
  rewrite (file_tasks_unfold (mk_node nm cs p f s)).
  destruct (get_isFile (mk_node nm cs p f s)).
  - destruct Hm as [<-|[]]. eexists. split; [now left | reflexivity].
  - rewrite sort_tree_children in Hm. cbn [children] in *.
    apply in_flat_map in Hm. destruct Hm as [c [Hc Hm]].
    apply (proj1 (sort_children_In _ _)) in Hc.
    apply in_map_iff in Hc. destruct Hc as [c0 [<- Hc0]].
    rewrite Forall_forall in IH.
    destruct (IH c0 Hc0 m Hm) as [m0 [Hm0 ->]].
    exists m0. split; [|reflexivity].
    apply in_flat_map. exists c0. auto.
Qed.

(** X8: in the tree of a response no directory carries a summary, and
    every file node the summariser visits (a file reached through
    directories only) carries one. *)
Theorem get_repo_summaries_on_files
        (w : world) (url : string) (resp : repo_response) (calls : list call) :
  get_repo w url = (Ok resp, calls) ->
  (forall m, In m (nodes (tree resp)) -> get_isFile m = false ->
             summary m = None)
  /\ (forall m, In m (Schedule.file_tasks (tree resp)) ->
                exists v, summary m = Some v).
Proof.
  unfold get_repo. destruct (parse_github_url url) as [parsed|];
    [|discriminate].
  intros H. apply reraise_Ok in H. unfold get_repo_body in H.
  run_step H fetched Htree. cbv zeta in H.
  run_step H listing Hlisting.
  run_step H entries Hentries.
  run_step H blobs Hblobs.
  run_step H items Hitems.
  run_step H root Hroot.
  unfold ret in H. injection H as <- <-. cbn [tree].
  apply (f_equal fst) in Hroot. cbn [fst] in Hroot. split.
  - intros m Hm Hdir.
    pose proof (Permutation_in _ (nodes_sort_tree_perm root)
                  (in_map label _ _ Hm)) as Hl.
    apply in_map_iff in Hl. destruct Hl as [m0 [Hlabel Hm0]].
    unfold label in Hlabel. injection Hlabel as _ _ Hfile Hsum.
    rewrite <- Hsum.
    apply (summaries_on_directories _ _ _ _ _ root Hroot
             (build_without_summary items) m0 Hm0).
    unfold get_isFile in *. now rewrite Hfile.
  - intros m Hm. apply file_tasks_sort_tree in Hm.
    destruct Hm as [m0 [Hm0 ->]].
    destruct (summaries_on_files _ _ _ _ _ root Hroot m0 Hm0) as [v Hv].
    exists v. now destruct m0.
Qed.

Lemma get_repo_summaries_on_files_witness :
  exists resp calls,
    get_repo Demo.one_unreadable Demo.url_bar = (Ok resp, calls)
    /\ (forall m, In m (nodes (tree resp)) -> get_isFile m = false ->
                  summary m = None)
    /\ (forall m, In m (Schedule.file_tasks (tree resp)) ->
                  exists v, summary m = Some v).
Proof.
  eexists. eexists. split; [vm_compute; reflexivity|].
  exact (get_repo_summaries_on_files Demo.one_unreadable Demo.url_bar _ _
           eq_refl).
Defined.

(** ** The LLM client and its two endpoints *)

Lemma get_groq_response_cases (w : world) (messages : list message) :
  (key_missing w = true
   /\ get_groq_response w messages = (Ok (JStr no_key_sentinel), []))
  \/ (key_missing w = false
      /\ ((exists msg,
              session_post w messages = inr msg
              /\ get_groq_response w messages
                 = (Raise (Exception msg), [GroqPost messages]))
          \/ (exists resp,
                 session_post w messages = inl resp
                 /\ status resp <> 200%Z
                 /\ get_groq_response w messages
                    = (Ok (JStr (provider_error_text resp)),
                       [GroqPost messages]))
          \/ (exists resp,
                 session_post w messages = inl resp
                 /\ status resp = 200%Z
                 /\ json_loads w (text resp) = None
                 /\ exists e, get_groq_response w messages
                              = (Raise (Exception e), [GroqPost messages]))
          \/ (exists resp data v,
                 session_post w messages = inl resp
                 /\ status resp = 200%Z
                 /\ json_loads w (text resp) = Some data
                 /\ get_groq_response w messages
                    = (Ok v, [GroqPost messages])))).
Proof.
  unfold get_groq_response.
  destruct (key_missing w); [left; auto|]. right. split; [reflexivity|].
  unfold do_post, bind.
  destruct (session_post w messages) as [resp|msg].
  - destruct (Z.eqb_spec (status resp) 200) as [E|E]; simpl.
    + destruct (json_loads w (text resp)) as [data|] eqn:El.
      * right. right. right.
        destruct (reply_content data) as [v|];
          eexists; eexists; eexists; (repeat split; try eassumption);
          reflexivity.
      * right. right. left. exists resp. repeat split; try assumption.
        eexists. reflexivity.
    + right. left. exists resp. auto.
  - left. exists msg. auto.
Qed.

(** X9: [get_groq_response] fails in two situations only, a transport
    failure and an answer with status 200 whose body is not JSON; any
    other answer, an error status included, is returned as a value.  It
    never raises [HTTPException] and its only possible request is one POST
    of the messages it was given. *)
Theorem get_groq_response_failures (w : world) (messages : list message) :
  (succeeds (get_groq_response w messages)
   <-> key_missing w = true \/ provider_answer_usable w messages)
  /\ plain (fst (get_groq_response w messages))
  /\ (snd (get_groq_response w messages) = []
      \/ snd (get_groq_response w messages) = [GroqPost messages]).
Proof.
  unfold provider_answer_usable, succeeds.
  destruct (get_groq_response_cases w messages)
    as [[Hk ->]|[Hk [(msg & Hp & ->)|[(resp & Hp & Hs & ->)
       |[(resp & Hp & Hs & Hl & e & ->)|(resp & data & v & Hp & Hs & Hl & ->)]]]]];
    simpl; (split; [|split; [intros c d; discriminate | auto]]).
  - split; [auto | intros _; eexists; reflexivity].
  - split.
    + intros [a Ha]. discriminate.
    + intros [Hk'|(resp & Hp' & _)]; congruence.
  - split; [|intros _; eexists; reflexivity].
    intros _. right. exists resp. auto.
  - split.
    + intros [a Ha]. discriminate.
    + intros [Hk'|(resp' & Hp' & [Hs'|Hl'])];
        first [ congruence
              | rewrite Hp in Hp'; injection Hp' as <-; contradiction ].
  - split; [|intros _; eexists; reflexivity].
    intros _. right. exists resp. split; [exact Hp|]. right. congruence.
Qed.

Lemma catch_all_status {A : Type} (m : io A) :
  (succeeds m -> fst (catch_all m) = fst m)
  /\ (forall e, fst m = Raise e ->
                fst (catch_all m) = Raise (HTTPException 500 (exn_str e)))
  /\ snd (catch_all m) = snd m.
Proof.
  destruct m as [[a|e] l]; simpl; repeat split; auto.
  - intros e H. discriminate.
  - intros [a Ha]. discriminate.
  - intros e' H. now injection H as ->.
Qed.

Lemma llm_endpoint (w : world) (messages : list message) :
  let r := catch_all (response <- get_groq_response w messages ;;
                      ret (mk_content response)) in
  (http_status (fst r) = 200%Z \/ http_status (fst r) = 500%Z)
  /\ (http_status (fst r) = 200%Z
      <-> key_missing w = true \/ provider_answer_usable w messages)
  /\ (key_missing w = true -> r = (Ok (mk_content (JStr no_key_sentinel)), []))
  /\ (forall resp,
         key_missing w = false ->
         session_post w messages = inl resp -> status resp <> 200%Z ->
         r = (Ok (mk_content (JStr (provider_error_text resp))),
              [GroqPost messages]))
  /\ (forall msg,
         key_missing w = false -> session_post w messages = inr msg ->
         r = (Raise (HTTPException 500 msg), [GroqPost messages])).
Proof.
  unfold provider_answer_usable.
  destruct (get_groq_response_cases w messages)
    as [[Hk ->]|[Hk [(msg & Hp & ->)|[(resp & Hp & Hs & ->)
       |[(resp & Hp & Hs & Hl & e & ->)|(resp & data & v & Hp & Hs & Hl & ->)]]]]];
    cbn; (split; [|split; [|split; [|split]]]).
  (* no key *)
  - now left.
  - split; [intros _; now left | reflexivity].
  - reflexivity.
  - intros; congruence.
  - intros; congruence.
  (* the transport fails *)
  - now right.
  - split; [discriminate|].
    intros [Hk'|(resp & Hp' & _)]; congruence.
  - intros; congruence.
  - intros; congruence.
  - intros; congruence.
  (* the provider answers with an error status *)
  - now left.
  - split; [|reflexivity]. intros _. right. exists resp. auto.
  - intros; congruence.
  - intros resp' _ Hp' _. rewrite Hp in Hp'. now injection Hp' as <-.
  - intros; congruence.
  (* the provider answers 200 with a body that is not JSON *)
  - now right.
  - split; [discriminate|].
    intros [Hk'|(resp' & Hp' & [Hs'|Hl'])];
      first [ congruence
            | rewrite Hp in Hp'; injection Hp' as <-; contradiction ].
  - intros; congruence.
  - intros resp' _ Hp' Hs'. rewrite Hp in Hp'. injection Hp' as <-.
    contradiction.
  - intros; congruence.
  (* the provider answers 200 with JSON *)
  - now left.
  - split; [|reflexivity]. intros _. right. exists resp.
    split; [exact Hp|]. right. congruence.
  - intros; congruence.
  - intros resp' _ Hp' Hs'. rewrite Hp in Hp'. injection Hp' as <-.
    contradiction.
  - intros; congruence.
Qed.

(** X10: [POST /api/chat] answers 200 or 500, and 500 only when the
    transport fails or a 200 answer of the provider is not JSON.  Without
    an API key it answers 200 with the sentinel text and makes no request;
    when the provider answers with an error status it still answers 200,
    the error text being the content. *)
Theorem chat_completion_status (w : world) (messages : list message) :
  let r := chat_completion w messages in
  (http_status (fst r) = 200%Z \/ http_status (fst r) = 500%Z)
  /\ (http_status (fst r) = 200%Z
      <-> key_missing w = true \/ provider_answer_usable w messages)
  /\ (key_missing w = true -> r = (Ok (mk_content (JStr no_key_sentinel)), []))
  /\ (forall resp,
         key_missing w = false ->
         session_post w messages = inl resp -> status resp <> 200%Z ->
         r = (Ok (mk_content (JStr (provider_error_text resp))),
              [GroqPost messages]))
  /\ (forall msg,
         key_missing w = false -> session_post w messages = inr msg ->
         r = (Raise (HTTPException 500 msg), [GroqPost messages])).
Proof. exact (llm_endpoint w messages). Qed.

Lemma chat_completion_status_witness :
  chat_completion
    (mk_world (Some "secret") (fun _ => inr "unused")
       (fun _ => inl (mk_response 401 "Invalid API Key"))
       Demo.loads (fun _ => "{}") (fun _ => "None"))
    [mk_message "user" "hello"]
  = (Ok (mk_content
           (JStr "Error generating response: 401 - Invalid API Key")),
     [GroqPost [mk_message "user" "hello"]]).
Proof.
  apply (proj1 (proj2 (proj2 (proj2
           (chat_completion_status
              (mk_world (Some "secret") (fun _ => inr "unused")
                 (fun _ => inl (mk_response 401 "Invalid API Key"))
                 Demo.loads (fun _ => "{}") (fun _ => "None"))
              [mk_message "user" "hello"]))))
           (mk_response 401 "Invalid API Key")).
  - reflexivity.
  - reflexivity.
  - discriminate.
Defined.

(** X11: [POST /api/summary] sends the provider one message, of role
    [user], holding the overview prompt built from the body (the dump of
    [{}] and the empty text standing in for a missing ["tree"] or
    ["summaries"]); like the chat endpoint it answers 200 or 500, 200 also
    when the provider answers with an error status. *)
Theorem generate_summary_status (w : world) (body : list (string * json)) :
  let messages := [mk_message "user" (overview_prompt w body)] in
  let r := generate_summary w body in
  (snd r = [] \/ snd r = [GroqPost messages])
  /\ (http_status (fst r) = 200%Z \/ http_status (fst r) = 500%Z)
  /\ (http_status (fst r) = 200%Z
      <-> key_missing w = true \/ provider_answer_usable w messages)
  /\ (forall resp,
         key_missing w = false ->
         session_post w messages = inl resp -> status resp <> 200%Z ->
         r = (Ok (mk_content (JStr (provider_error_text resp))),
              [GroqPost messages]))
  /\ (assoc "tree" body = None -> assoc "summaries" body = None ->
      overview_prompt w body
      = ("Provide a professional overview of this repository. Analyze structure, tech stack, key components, and suggestions. Repo structure:"
         ++ nl ++ json_dumps w (JObj []) ++ nl ++ "Summaries:" ++ nl)%string).
Proof.
  intros messages r.
  destruct (llm_endpoint w messages) as (H1 & H2 & H3 & H4 & H5).
  fold r in H1, H2, H3, H4, H5.
  repeat split; try assumption; try (apply H2).
  - destruct (get_groq_response_failures w messages) as (_ & _ & Hlog).
    unfold r, generate_summary. cbv zeta. fold messages.
    destruct (catch_all_status
                (response <- get_groq_response w messages ;;
                 ret (mk_content response))) as (_ & _ & ->).
    unfold bind, ret. destruct (get_groq_response w messages) as [[v|e] l];
      simpl in *; rewrite ?app_nil_r; exact Hlog.
  - intros Ht Hs. unfold overview_prompt, body_get. rewrite Ht, Hs.
    cbv zeta. cbn [fmt]. now rewrite !append_empty.
Qed.

Lemma generate_summary_status_witness :
  generate_summary
    (mk_world (Some "secret") (fun _ => inr "unused")
       (fun _ => inl (mk_response 429 "Rate limit reached"))
       Demo.loads (fun _ => "{}") (fun _ => "None"))
    []
  = (Ok (mk_content
           (JStr "Error generating response: 429 - Rate limit reached")),
     [GroqPost
        [mk_message "user"
           (overview_prompt
              (mk_world (Some "secret") (fun _ => inr "unused")
                 (fun _ => inl (mk_response 429 "Rate limit reached"))
                 Demo.loads (fun _ => "{}") (fun _ => "None"))
              [])]]).
Proof.
  apply (proj1 (proj2 (proj2 (proj2
           (generate_summary_status
              (mk_world (Some "secret") (fun _ => inr "unused")
                 (fun _ => inl (mk_response 429 "Rate limit reached"))
                 Demo.loads (fun _ => "{}") (fun _ => "None"))
              []))))
           (mk_response 429 "Rate limit reached")).
  - reflexivity.
  - reflexivity.
  - discriminate.
Defined.

(** ** The event loop neither stalls nor runs for ever *)

Module RunFacts.
Import Schedule Run ScheduleFacts.

Lemma unfinished_task (ps : list pc) :
  forallb finished ps = true
  \/ exists i p, nth_error ps i = Some p /\ finished p = false.
Proof.
  induction ps as [|q ps IH]; [now left|].
  destruct (finished q) eqn:E.
  - destruct IH as [IH|(i & p & Hi & Hp)].
    + left. simpl. now rewrite E, IH.
    + right. exists (S i), p. auto.
  - right. exists 0, q. auto.
Qed.

Lemma holding_task (ps : list pc) :
  0 < List.length (filter is_holding ps) ->
  exists i p, nth_error ps i = Some p /\ is_holding p = true.
Proof.
  induction ps as [|q ps IH]; simpl; [lia|].
  destruct (is_holding q) eqn:E.
  - intros _. exists 0, q. auto.
  - intros H. destruct (IH H) as (i & p & Hi & Hp).
    exists (S i), p. auto.
Qed.

(** A task inside the block can always move on. *)
Lemma holding_steps (v : nat) (h : list nat) (ps : list pc) (i : nat) (p : pc) :
  nth_error ps i = Some p -> is_holding p = true ->
  exists s', step (mk_state v h ps) s'.
Proof.
  intros Hi Hp. destruct p; try discriminate.
  - eexists. apply (step_fetch_returns v h ps i None Hi).
  - eexists. apply (step_release v h ps i txt Hi).
Qed.

Lemma weight_set_pc (ps : list pc) :
  forall i p q,
    nth_error ps i = Some q ->
    list_sum (map rank (set_pc i p ps)) + rank q
    = list_sum (map rank ps) + rank p.
Proof.
  induction ps as [|x ps IH]; intros [|i] p q H; simpl in *;
    try discriminate.
  - injection H as ->. lia.
  - specialize (IH i p q H). lia.
Qed.

Lemma step_weight (s s' : state) : step s s' -> weight s' < weight s.
Proof.
  intros Hstep. unfold weight.
  destruct Hstep as
    [v h ps i Hi | v h ps i txt Hi | v h ps i txt Hi
     | v h ps i txt Hi Ht | v h ps i txt Hi Ht | v h ps i Hi
     | v h ps i Hi | v h ps i Hi]; cbn [pcs];
    match goal with
    | |- list_sum (map rank (set_pc _ ?p _)) < _ =>
        match type of Hi with
        | _ = Some ?q =>
            pose proof (weight_set_pc ps i p q Hi) as Hw; simpl in Hw; lia
        end
    end.
Qed.

Lemma initial_weight (capacity : nat) (root : node) :
  weight (initial capacity root) = 5 * List.length (file_tasks root).
Proof.
  unfold weight, initial; simpl.
  induction (file_tasks root) as [|t ts IH]; simpl in *; lia.
Qed.

Lemma reachable_in_reachable (s0 s : state) (n : nat) :
  reachable_in s0 n s -> reachable s0 s.
Proof.
  induction 1 as [|n s s' Hr IH Hstep]; [constructor|].
  exact (reach_step s0 s s' IH Hstep).
Qed.

End RunFacts.

(** X12: with a semaphore of positive capacity the summariser never
    stalls: in every state the event loop can reach, either every file
    task has ended (its summary assigned, or an exception raised) or a
    step is possible: a waiting task acquires the semaphore, a request in
    flight is answered, or a task goes on after its fetch.  When the
    semaphore is exhausted, some task holds a slot and is about to give
    it back. *)
Theorem summariser_never_stalls
        (capacity : nat) (root : node) (s : Schedule.state) :
  0 < capacity ->
  Schedule.reachable (Schedule.initial capacity root) s ->
  forallb Run.finished (Schedule.pcs s) = true
  \/ exists s', Schedule.step s s'.
Proof.
  intros Hcap Hreach.
  destruct (ScheduleFacts.reachable_consistent capacity root s Hreach)
    as (Hsum & _ & _).
  destruct s as [v h ps]. cbn [Schedule.pcs Schedule.value] in *.
  destruct (RunFacts.unfinished_task ps) as [Hall|(i & p & Hi & Hp)];
    [now left|].
  right. destruct p; try discriminate.
  - destruct v as [|v].
    + destruct (RunFacts.holding_task ps) as (j & q & Hj & Hq); [lia|].
      exact (RunFacts.holding_steps 0 h ps j q Hj Hq).
    + eexists. apply (Schedule.step_acquire v h ps i Hi).
  - exact (RunFacts.holding_steps v h ps i _ Hi eq_refl).
  - exact (RunFacts.holding_steps v h ps i _ Hi eq_refl).
  - destruct (txt_truthy txt) eqn:Et.
    + eexists. apply (Schedule.step_call_llm v h ps i txt Hi Et).
    + eexists. apply (Schedule.step_no_content v h ps i txt Hi Et).
  - eexists. apply (Schedule.step_llm_returns v h ps i Hi).
Qed.

Lemma summariser_never_stalls_witness :
  exists s',
    Schedule.step
      (Schedule.mk_state 0 [0]
         [Schedule.Fetching; Schedule.Unvisited; Schedule.Unvisited;
          Schedule.Unvisited; Schedule.Unvisited; Schedule.Unvisited;
          Schedule.Unvisited])
      s'.
Proof.
  assert (R : Schedule.reachable (Schedule.initial 1 Demo.seven_files)
                (Schedule.mk_state 0 [0]
                   [Schedule.Fetching; Schedule.Unvisited; Schedule.Unvisited;
                    Schedule.Unvisited; Schedule.Unvisited; Schedule.Unvisited;
                    Schedule.Unvisited])).
  { apply (Schedule.reach_step _ (Schedule.initial 1 Demo.seven_files)).
    - constructor.
    - exact (Schedule.step_acquire 0 []
               [Schedule.Unvisited; Schedule.Unvisited; Schedule.Unvisited;
                Schedule.Unvisited; Schedule.Unvisited; Schedule.Unvisited;
                Schedule.Unvisited] 0 eq_refl). }
  destruct (summariser_never_stalls 1 Demo.seven_files _ (Nat.lt_0_succ 0) R)
    as [Hall|Hstep].
  - discriminate Hall.
  - exact Hstep.
Defined.

(** X13: the summariser ends: a run of the event loop takes at most five
    steps for each file task, whatever the schedule and whatever the
    services answer. *)
Theorem summariser_run_is_bounded
        (capacity : nat) (root : node) (n : nat) (s : Schedule.state) :
  Run.reachable_in (Schedule.initial capacity root) n s ->
  n + Run.weight s <= 5 * List.length (Schedule.file_tasks root).
Proof.
  intros H. rewrite <- (RunFacts.initial_weight capacity root).
  induction H as [|n s s' Hr IH Hstep]; [lia|].
  pose proof (RunFacts.step_weight s s' Hstep). lia.
Qed.

Lemma summariser_run_is_bounded_witness :
  let s1 := Schedule.mk_state 5 [0]
              [Schedule.Fetching; Schedule.Unvisited; Schedule.Unvisited;
               Schedule.Unvisited; Schedule.Unvisited; Schedule.Unvisited;
               Schedule.Unvisited] in
  Run.reachable_in (Schedule.initial semaphore_capacity Demo.seven_files) 1 s1
  /\ 1 + Run.weight s1 <= 5 * 7.
Proof.
  intros s1.
  assert (R : Run.reachable_in
                (Schedule.initial semaphore_capacity Demo.seven_files) 1 s1).
  { apply (Run.reach_next _ 0
             (Schedule.initial semaphore_capacity Demo.seven_files) s1).
    - constructor.
    - exact (Schedule.step_acquire 5 []
               [Schedule.Unvisited; Schedule.Unvisited; Schedule.Unvisited;
                Schedule.Unvisited; Schedule.Unvisited; Schedule.Unvisited;
                Schedule.Unvisited] 0 eq_refl). }
  split; [exact R|].
  exact (summariser_run_is_bounded semaphore_capacity Demo.seven_files 1 s1 R).
Defined.

(** ** The first two calls of the metadata chain *)

Lemma bind_log {A B : Type} (m : io A) (f : A -> io B) :
  snd (bind m f)
  = snd m ++ match fst m with Ok a => snd (f a) | Raise _ => [] end.
Proof.
  unfold bind. destruct m as [[a|e] l]; cbn [fst snd].
  - now destruct (f a).
  - now rewrite app_nil_r.
Qed.

Lemma reraise_log {A : Type} (m : io A) : snd (reraise m) = snd m.
Proof. now destruct m as [[a|[code detail|msg]] l]. Qed.

Lemma fetch_json_value w url (resp : response) (v : json) :
  session_get w url = inl resp ->
  (status resp < 400)%Z ->
  json_loads w (text resp) = Some v ->
  fetch_json w url = (Ok v, [FetchJson url]).
Proof.
  intros Hget Hstatus Hloads. unfold fetch_json, do_get, bind.
  rewrite Hget.
  destruct (status resp >=? 400)%Z eqn:E; [lia|].
  now rewrite Hloads.
Qed.

(** X14: once the URL is parsed, the handler's first request is for the
    repository's metadata, at the URL made of the owner and the
    repository; when that answer has a status below 400 and decodes to a
    JSON object, the second request is for the ref of the branch the
    object names under [default_branch], and of [main] when the object
    has no such key. *)
Theorem get_repo_resolves_default_branch
        (w : world) (url : string) (parsed : parsed_url)
        (resp : response) (fields : list (string * json)) :
  parse_github_url url = Some parsed ->
  session_get w (api (owner parsed) (repo parsed)) = inl resp ->
  (status resp < 400)%Z ->
  json_loads w (text resp) = Some (JObj fields) ->
  exists rest,
    snd (get_repo w url)
    = FetchJson (api (owner parsed) (repo parsed))
      :: FetchJson (api (owner parsed) (repo parsed) ++ "/git/refs/heads/"
                    ++ match assoc "default_branch" fields with
                       | Some b => fmt w b
                       | None => "main"
                       end)
      :: rest.
Proof.
  intros Hparse Hget Hstatus Hloads.
  unfold get_repo. rewrite Hparse, reraise_log.
  unfold get_repo_body. rewrite bind_log.
  unfold fetch_tree. rewrite bind_log.
  rewrite (fetch_json_value _ _ _ _ Hget Hstatus Hloads). cbn [fst snd].
  rewrite bind_log. cbn [lift dict_get fst snd app].
  destruct (assoc "default_branch" fields) as [b|];
    rewrite bind_log, fetch_json_log; cbn [app]; eexists; reflexivity.
Qed.

Lemma get_repo_resolves_default_branch_witness :
  let w := mk_world None (fun _ => inl (mk_response 200 "{}"))
             (fun _ => inr "unreachable") (fun _ => Some (JObj []))
             (fun _ => "{}") (fun _ => "None") in
  exists rest,
    snd (get_repo w "github.com/foo/bar")
    = FetchJson "https://api.github.com/repos/foo/bar"
      :: FetchJson "https://api.github.com/repos/foo/bar/git/refs/heads/main"
      :: rest.
Proof.
  intros w.
  exact (get_repo_resolves_default_branch w "github.com/foo/bar"
           (mk_parsed "foo" "bar") (mk_response 200 "{}") []
           eq_refl eq_refl eq_refl eq_refl).
Defined.

(** ** What a match of the URL pattern tells *)

Lemma plus_class_many_inv {R : Type} (cls : ascii -> bool)
      (caps : Re.captures) (k : string -> Re.captures -> option R) (x : R) :
  forall t,
    (fix many (t : string) : option R :=
       match t with
       | String e t' =>
           if cls e then
             match many t' with
             | Some x => Some x
             | None => k t caps
             end
           else k t caps
       | EmptyString => k t caps
       end) t = Some x ->
    exists a rest,
      t = (a ++ rest)%string /\ all_chars cls a = true
      /\ k rest caps = Some x.
Proof.
  induction t as [|e t IH]; intros H.
  - exists EmptyString, EmptyString. auto.
  - destruct (cls e) eqn:He.
    + match type of H with
      | match ?m with _ => _ end = _ => destruct m as [y|] eqn:Em
      end.
      * injection H as ->. destruct (IH eq_refl) as (a & rest & -> & Ha & Hk).
        exists (String e a), rest. cbn [all_chars append].
        rewrite He, Ha. auto.
      * exists EmptyString, (String e t). auto.
    + exists EmptyString, (String e t). auto.
Qed.

Lemma rmatch_plus_inv {R : Type} (cls : ascii -> bool) (s : string)
      (caps : Re.captures) (k : string -> Re.captures -> option R) (x : R) :
  Re.rmatch (Re.PlusClass cls) s caps k = Some x ->
  exists a rest,
    s = (a ++ rest)%string /\ PyStr.truthy a = true
    /\ all_chars cls a = true /\ k rest caps = Some x.
Proof.
  destruct s as [|d s]; cbn [Re.rmatch]; [discriminate|].
  destruct (cls d) eqn:Hd; [|discriminate].
  intros H. apply plus_class_many_inv in H.
  destruct H as (a & rest & -> & Ha & Hk).
  exists (String d a), rest. cbn [all_chars append PyStr.truthy].
  rewrite Hd, Ha. auto.
Qed.

Lemma rmatch_lit_inv {R : Type} (c : ascii) (s : string)
      (caps : Re.captures) (k : string -> Re.captures -> option R) (x : R) :
  Re.rmatch (Re.Lit c) s caps k = Some x ->
  exists rest, s = String c rest /\ k rest caps = Some x.
Proof.
  destruct s as [|d s]; cbn [Re.rmatch]; [discriminate|].
  destruct (Ascii.eqb c d) eqn:E; [|discriminate].
  apply Ascii.eqb_eq in E. subst d. intros H. now exists s.
Qed.

Lemma rmatch_lits_inv {R : Type} (l : string) :
  forall (s : string) (caps : Re.captures)
         (k : string -> Re.captures -> option R) (x : R),
    Re.rmatch (Re.lits l) s caps k = Some x ->
    exists rest, s = (l ++ rest)%string /\ k rest caps = Some x.
Proof.
  induction l as [|c l IH]; intros s caps k x H.
  - now exists s.
  - cbn [Re.lits] in H. rewrite rmatch_seq in H.
    apply rmatch_lit_inv in H. destruct H as (s' & -> & H).
    apply IH in H. destruct H as (rest & -> & H). now exists rest.
Qed.

(** A pattern without groups hands its continuation a suffix of the
    input and the captures it was given. *)
Lemma rmatch_passes {R : Type} (r : Re.regex) :
  captures_nothing r = true ->
  forall (s : string) (caps : Re.captures)
         (k : string -> Re.captures -> option R) (x : R),
    Re.rmatch r s caps k = Some x ->
    exists pre rest, s = (pre ++ rest)%string /\ k rest caps = Some x.
Proof.
  induction r as [|c|r1 IH1 r2 IH2|r1 IH1|cls|nm r1 IH1];
    cbn [captures_nothing]; intros Hr s caps k x H.
  - now exists EmptyString, s.
  - apply rmatch_lit_inv in H. destruct H as (rest & -> & H).
    now exists (String c EmptyString), rest.
  - apply andb_true_iff in Hr. destruct Hr as [Hr1 Hr2].
    rewrite rmatch_seq in H.
    destruct (IH1 Hr1 _ _ _ _ H) as (pre1 & rest1 & -> & H1).
    destruct (IH2 Hr2 _ _ _ _ H1) as (pre2 & rest2 & -> & H2).
    exists (pre1 ++ pre2)%string, rest2. now rewrite append_assoc.
  - cbn [Re.rmatch] in H.
    destruct (Re.rmatch r1 s caps k) as [y|] eqn:E.
    + injection H as ->. exact (IH1 Hr _ _ _ _ E).
    + now exists EmptyString, s.
  - apply rmatch_plus_inv in H.
    destruct H as (a & rest & -> & _ & _ & H). now exists a, rest.
  - discriminate.
Qed.

(** Where the pattern matches, the text holds [github.com/], a non-empty
    owner, a slash and a non-empty repository name, both free of slashes
    and white space, and these two are the groups. *)
Lemma github_pattern_inv {R : Type} (s : string)
      (k : string -> Re.captures -> option R) (x : R) :
  Re.rmatch github_pattern s [] k = Some x ->
  exists pre o rp rest,
    s = (pre ++ "github.com/" ++ o ++ "/" ++ rp ++ rest)%string
    /\ PyStr.truthy o = true /\ all_chars not_slash_space o = true
    /\ PyStr.truthy rp = true /\ all_chars not_slash_space rp = true
    /\ k rest [("repo", rp); ("owner", o)] = Some x.
Proof.
  unfold github_pattern. intros H.
  rewrite rmatch_seq in H.
  apply rmatch_passes in H; [|reflexivity].
  destruct H as (pre1 & s1 & -> & H).
  rewrite rmatch_seq in H.
  apply rmatch_passes in H; [|reflexivity].
  destruct H as (pre2 & s2 & -> & H).
  rewrite rmatch_seq in H.
  apply rmatch_lits_inv in H. destruct H as (s3 & -> & H).
  rewrite rmatch_seq, rmatch_group in H.
  apply rmatch_plus_inv in H.
  destruct H as (o & s4 & -> & Ho & Ho' & H).
  rewrite consumed_app, rmatch_seq in H.
  apply rmatch_lit_inv in H. destruct H as (s5 & -> & H).
  rewrite rmatch_group in H.
  apply rmatch_plus_inv in H.
  destruct H as (rp & rest & -> & Hr & Hr' & H).
  rewrite consumed_app in H.
  exists (pre1 ++ pre2)%string, o, rp, rest.
  rewrite append_assoc. repeat split; assumption.
Qed.

Lemma search_inv (r : Re.regex) (s : string) (caps : Re.captures) :
  Re.search r s = Some caps ->
  exists pre t,
    s = (pre ++ t)%string
    /\ Re.rmatch r t [] (fun _ caps => Some caps) = Some caps.
Proof.
  induction s as [|c s IH]; cbn [Re.search].
  - destruct (Re.rmatch r "" [] (fun _ caps => Some caps)) as [y|] eqn:E;
      [|discriminate].
    intros H. injection H as ->. now exists EmptyString, EmptyString.
  - destruct (Re.rmatch r (String c s) [] (fun _ caps => Some caps))
      as [y|] eqn:E.
    + intros H. injection H as ->. now exists EmptyString, (String c s).
    + intros H. destruct (IH H) as (pre & t & -> & Ht).
      now exists (String c pre), t.
Qed.

(** The text [parse_github_url] searches. *)
Lemma parse_github_url_inv (url : string) (p : parsed_url) :
  parse_github_url url = Some p ->
  exists pre o rp rest,
    PyStr.replace "github.com:" "github.com/"
      (PyStr.replace "git@github.com:" "https://github.com/"
         (PyStr.strip url))
    = (pre ++ "github.com/" ++ o ++ "/" ++ rp ++ rest)%string
    /\ PyStr.truthy o = true /\ all_chars not_slash_space o = true
    /\ PyStr.truthy rp = true /\ all_chars not_slash_space rp = true
    /\ p = mk_parsed o (PyStr.replace ".git" "" rp).
Proof.
  unfold parse_github_url.
  destruct (negb (PyStr.truthy url)); [discriminate|]. cbv zeta.
  destruct (Re.search github_pattern _) as [m|] eqn:E; [|discriminate].
  apply search_inv in E. destruct E as (pre & t & Hs & Ht).
  apply github_pattern_inv in Ht.
  destruct Ht as (pre' & o & rp & rest & -> & Ho & Ho' & Hr & Hr' & Hm).
  injection Hm as <-. cbn [Re.group String.eqb Ascii.eqb Bool.eqb].
  intros H. injection H as <-.
  exists (pre ++ pre')%string, o, rp, rest.
  rewrite Hs, append_assoc. repeat split; assumption.
Qed.

Lemma drop_prefix_all_chars (f : ascii -> bool) (old : string) :
  forall s rest,
    PyStr.drop_prefix old s = Some rest ->
    all_chars f s = true -> all_chars f rest = true.
Proof.
  induction old as [|a old IH]; intros s rest H Hs.
  - destruct s; injection H as <-; exact Hs.
  - destruct s as [|b s]; cbn [PyStr.drop_prefix] in H; [discriminate|].
    destruct (Ascii.eqb a b); [|discriminate].
    cbn [all_chars] in Hs. apply andb_true_iff in Hs.
    exact (IH _ _ H (proj2 Hs)).
Qed.

Lemma replace_fuel_deletes (f : ascii -> bool) (old : string) (n : nat) :
  forall s,
    all_chars f s = true ->
    all_chars f (PyStr.replace_fuel n old "" s) = true.
Proof.
  induction n as [|n IH]; intros s Hs; [exact Hs|].
  cbn [PyStr.replace_fuel].
  destruct (PyStr.drop_prefix old s) as [rest|] eqn:E.
  - cbn [append]. apply IH. exact (drop_prefix_all_chars f old s rest E Hs).
  - destruct s as [|c s]; [reflexivity|].
    cbn [all_chars] in *. apply andb_true_iff in Hs.
    destruct Hs as [Hc Hs]. now rewrite Hc, (IH s Hs).
Qed.

(** X15: whatever [parse_github_url] returns, the owner is not empty, and
    neither the owner nor the repository name holds a slash or a white
    space character. *)
Theorem parse_github_url_names (url : string) (p : parsed_url) :
  parse_github_url url = Some p ->
  PyStr.truthy (owner p) = true
  /\ all_chars not_slash_space (owner p) = true
  /\ all_chars not_slash_space (repo p) = true.
Proof.
  intros H. apply parse_github_url_inv in H.
  destruct H as (pre & o & rp & rest & _ & Ho & Ho' & _ & Hr' & ->).
  cbn [owner repo]. repeat split; try assumption.
  apply replace_fuel_deletes. exact Hr'.
Qed.

Lemma parse_github_url_names_witness :
  PyStr.truthy "foo" = true
  /\ all_chars not_slash_space "foo" = true
  /\ all_chars not_slash_space "bar" = true.
Proof.
  exact (parse_github_url_names " git@github.com:foo/bar.git/tree/main "
           (mk_parsed "foo" "bar") eq_refl).
Defined.

(** ** URLs that do not name the host *)

Lemma drop_prefix_app (x rest : string) :
  PyStr.drop_prefix x (x ++ rest) = Some rest.
Proof.
  induction x as [|c x IH]; cbn [append PyStr.drop_prefix].
  - now destruct rest.
  - now rewrite Ascii.eqb_refl.
Qed.

Lemma drop_prefix_Some (x : string) :
  forall s rest, PyStr.drop_prefix x s = Some rest -> s = (x ++ rest)%string.
Proof.
  induction x as [|a x IH]; intros s rest H.
  - destruct s; injection H as <-; reflexivity.
  - destruct s as [|b s]; cbn [PyStr.drop_prefix] in H; [discriminate|].
    destruct (Ascii.eqb a b) eqn:E; [|discriminate].
    apply Ascii.eqb_eq in E. subst b. cbn [append].
    now rewrite (IH _ _ H).
Qed.

Lemma occurs_app_intro (x rest : string) (pre : string) :
  occurs x (pre ++ x ++ rest) = true.
Proof.
  induction pre as [|c pre IH]; cbn [append].
  - destruct (x ++ rest)%string eqn:E; cbn [occurs];
      rewrite <- E, drop_prefix_app; reflexivity.
  - cbn [occurs]. rewrite IH.
    now destruct (PyStr.drop_prefix x (String c (pre ++ x ++ rest))).
Qed.

Lemma occurs_inv (x s : string) :
  occurs x s = true -> exists pre rest, s = (pre ++ x ++ rest)%string.
Proof.
  induction s as [|c s IH]; cbn [occurs].
  - destruct (PyStr.drop_prefix x "") as [rest|] eqn:E; [|discriminate].
    intros _. exists EmptyString, rest. exact (drop_prefix_Some _ _ _ E).
  - destruct (PyStr.drop_prefix x (String c s)) as [rest|] eqn:E.
    + intros _. exists EmptyString, rest. exact (drop_prefix_Some _ _ _ E).
    + intros H. destruct (IH H) as (pre & rest & ->).
      now exists (String c pre), rest.
Qed.

(** An occurrence of a text holds an occurrence of each of its parts. *)
Lemma occurs_inside (a x b s : string) :
  occurs (a ++ x ++ b) s = true -> occurs x s = true.
Proof.
  intros H. apply occurs_inv in H. destruct H as (pre & rest & ->).
  rewrite !append_assoc, <- (append_assoc pre a).
  apply occurs_app_intro.
Qed.

Lemma lstrip_suffix (s : string) :
  exists pre, s = (pre ++ PyStr.lstrip s)%string.
Proof.
  induction s as [|c s IH]; [now exists EmptyString|].
  cbn [PyStr.lstrip]. destruct (PyStr.isspace c).
  - destruct IH as [pre IH]. exists (String c pre). cbn [append].
    now rewrite <- IH.
  - now exists EmptyString.
Qed.

Lemma rstrip_prefix (s : string) :
  exists post, s = (PyStr.rstrip s ++ post)%string.
Proof.
  induction s as [|c s IH]; [now exists EmptyString|].
  cbn [PyStr.rstrip]. destruct IH as [post IH].
  destruct (PyStr.rstrip s) as [|d r] eqn:E.
  - destruct (PyStr.isspace c).
    + now exists (String c s).
    + exists post. cbn [append] in *. now rewrite <- IH.
  - exists post. cbn [append] in *. now rewrite <- IH.
Qed.

Lemma occurs_strip (x s : string) :
  occurs x (PyStr.strip s) = true -> occurs x s = true.
Proof.
  intros H. apply occurs_inv in H. destruct H as (p & q & H).
  unfold PyStr.strip in H.
  destruct (lstrip_suffix s) as [pre Hpre].
  destruct (rstrip_prefix (PyStr.lstrip s)) as [post Hpost].
  rewrite Hpre, Hpost, H, !append_assoc, <- (append_assoc pre p).
  apply occurs_app_intro.
Qed.

(** What occurs after a replacement occurred before it, unless the
    replaced text did. *)
Lemma occurs_replace (x old new s : string) :
  occurs x (PyStr.replace old new s) = true ->
  occurs x s = true \/ occurs old s = true.
Proof.
  destruct (occurs old s) eqn:E; [now right|].
  rewrite (replace_absent old new s E). now left.
Qed.

Lemma parse_github_url_needs_host (url : string) (p : parsed_url) :
  parse_github_url url = Some p -> occurs "github.com" url = true.
Proof.
  intros H. apply parse_github_url_inv in H.
  destruct H as (pre & o & rp & rest & H & _).
  assert (H2 : occurs "github.com"
                 (PyStr.replace "github.com:" "github.com/"
                    (PyStr.replace "git@github.com:" "https://github.com/"
                       (PyStr.strip url))) = true).
  { rewrite H.
    exact (occurs_app_intro "github.com" ("/" ++ o ++ "/" ++ rp ++ rest) pre). }
  assert (H1 : occurs "github.com"
                 (PyStr.replace "git@github.com:" "https://github.com/"
                    (PyStr.strip url)) = true).
  { apply occurs_replace in H2. destruct H2 as [H2|H2]; [exact H2|].
    exact (occurs_inside "" "github.com" ":" _ H2). }
  apply occurs_strip.
  apply occurs_replace in H1. destruct H1 as [H1|H1]; [exact H1|].
  exact (occurs_inside "git@" "github.com" ":" _ H1).
Qed.

(** X16: a URL in which the text [github.com] does not occur is not
    parsed, and [GET /api/repo] answers it with status 400 and the detail
    [Invalid GitHub URL] without sending a request. *)
Theorem get_repo_without_host (w : world) (url : string) :
  occurs "github.com" url = false ->
  parse_github_url url = None
  /\ get_repo w url = (Raise (HTTPException 400 "Invalid GitHub URL"), []).
Proof.
  intros H.
  assert (Hp : parse_github_url url = None).
  { destruct (parse_github_url url) as [p|] eqn:E; [|reflexivity].
    rewrite (parse_github_url_needs_host url p E) in H. discriminate. }
  split; [exact Hp|]. unfold get_repo. now rewrite Hp.
Qed.

Lemma get_repo_without_host_witness :
  parse_github_url "https://gitlab.com/foo/bar" = None
  /\ get_repo Demo.healthy "https://gitlab.com/foo/bar"
     = (Raise (HTTPException 400 "Invalid GitHub URL"), []).
Proof.
  exact (get_repo_without_host Demo.healthy "https://gitlab.com/foo/bar"
           eq_refl).
Defined.

(** ** Metadata failures are fatal; which content failures are contained *)

Section RawFetchRaises.

Variable w : world.
Variable u : string.
Variable failure : string.

(** The request for [u] raises: the connection fails, or the body cannot
    be read. *)
Hypothesis raises : session_get w u = inr failure.

Lemma stops_at_bind {A B : Type} (m : io A) (f : A -> io B) :
  stops_at u m -> (forall a, stops_at u (f a)) -> stops_at u (bind m f).
Proof.
  unfold stops_at, bind. intros Hm Hf.
  destruct m as [[a|e] l]; cbn [fst snd] in *.
  - specialize (Hf a). destruct (f a) as [o l']; cbn [fst snd] in *.
    intros Hin. apply in_app_or in Hin. destruct Hin as [Hin|Hin].
    + destruct (Hm Hin) as [msg H]. discriminate.
    + exact (Hf Hin).
  - intros Hin. destruct (Hm Hin) as [msg H]. injection H as ->.
    now exists msg.
Qed.

Lemma stops_at_ret {A : Type} (a : A) : stops_at u (ret a).
Proof. intros []. Qed.

Lemma stops_at_summarize_file o r sha (n : node) :
  stops_at u (summarize_file w o r sha n).
Proof.
  intros Hin.
  destruct (summarize_file_log w o r sha n) as (posts & Hlog & Hposts).
  rewrite Hlog in Hin.
  assert (Hu : raw_url o r sha n = u).
  { destruct Hin as [H|Hin]; [now injection H|].
    destruct Hposts as [->|[msgs ->]]; [destruct Hin|].
    destruct Hin as [H|[]]. discriminate. }
  exists failure. unfold summarize_file, fetch_text, do_get.
  now rewrite Hu, raises.
Qed.

Lemma stops_at_gather_with {A B : Type} (f : A -> io B) (l : list A) :
  Forall (fun x => stops_at u (f x)) l -> stops_at u (gather_with f l).
Proof.
  induction 1 as [|x l Hx Hl IH]; cbn [gather_with]; [apply stops_at_ret|].
  apply stops_at_bind; [exact Hx|]. intros b.
  apply stops_at_bind; [exact IH|]. intros bs. apply stops_at_ret.
Qed.

Lemma stops_at_generate_summaries o r sha (n : node) :
  stops_at u (generate_summaries w o r sha n).
Proof.
  induction n as [nm cs p f s IH] using node_induction.
  destruct (get_isFile (mk_node nm cs p f s)) eqn:E.
  - rewrite (generate_summaries_file _ _ _ _ _ E).
    apply stops_at_summarize_file.
  - rewrite (generate_summaries_dir _ _ _ _ _ E).
    apply stops_at_bind; [now apply stops_at_gather_with|].
    intros cs'. apply stops_at_ret.
Qed.

End RawFetchRaises.

Lemma fetch_json_same_metadata (w : world)
      (get' : string -> response + string) (v : string) :
  get' v = session_get w v ->
  fetch_json (with_session_get w get') v = fetch_json w v.
Proof. intros H. unfold fetch_json, do_get. simpl. now rewrite H. Qed.

Lemma fetch_tree_same_metadata (w : world)
      (get' : string -> response + string) o r :
  (forall v, is_raw_url v = false -> get' v = session_get w v) ->
  fetch_tree (with_session_get w get') o r = fetch_tree w o r.
Proof.
  intros Hsame. unfold fetch_tree.
  change (fmt (with_session_get w get')) with (fmt w).
  rewrite (fetch_json_same_metadata _ _ _ (Hsame _ (api_not_raw o r))).
  apply bind_ext. intros repo_meta.
  apply bind_ext. intros default_branch.
  rewrite (fetch_json_same_metadata _ _ _
             (Hsame _ (api_path_not_raw o r _))).
  apply bind_ext. intros ref.
  apply bind_ext. intros ref_object.
  apply bind_ext. intros commit_sha.
  rewrite (fetch_json_same_metadata _ _ _
             (Hsame _ (api_path_not_raw o r _))).
  apply bind_ext. intros commit_obj.
  apply bind_ext. intros commit_tree.
  apply bind_ext. intros tree_sha.
  now rewrite (fetch_json_same_metadata _ _ _
                 (Hsame _ (api_path_not_raw o r _))).
Qed.

Lemma bind_fst_from_Ok {A B : Type} (a : A) (l : list call) (f : A -> io B) :
  fst (bind (Ok a, l) f) = fst (f a).
Proof. unfold bind. now destruct (f a). Qed.

Lemma bind_fst_lift {A B : Type} (o : outcome A) (a : A) (f : A -> io B) :
  o = Ok a -> fst (bind (lift o) f) = fst (f a).
Proof. intros ->. apply bind_fst_from_Ok. Qed.

(** A request that succeeds stops with a plain exception once one of the
    raw-content requests it made raises instead. *)
Lemma raw_fetch_exception_fatal (w : world)
      (get' : string -> response + string) (url u failure : string)
      (resp : repo_response) :
  fst (get_repo w url) = Ok resp ->
  In (FetchText u) (snd (get_repo w url)) ->
  (forall v, is_raw_url v = false -> get' v = session_get w v) ->
  get' u = inr failure ->
  exists detail,
    fst (get_repo (with_session_get w get') url)
    = Raise (HTTPException 500 detail).
Proof.
  intros Hok Hin Hsame Hfail.
  destruct (get_repo w url) as [out calls] eqn:H. cbn [fst snd] in *.
  subst out. unfold get_repo in *.
  destruct (parse_github_url url) as [parsed|]; [|discriminate].
  apply reraise_Ok in H. unfold get_repo_body in H.
  run_step H fetched Htree. destruct fetched as [tree_sha tree_resp].
  cbv zeta in H. cbn [fst snd] in H.
  run_step H listing Hlisting.
  run_step H entries Hentries.
  run_step H blobs Hblobs.
  run_step H items Hitems.
  run_step H root Hroot.
  unfold ret in H. injection H as _ <-.
  destruct (fetch_tree_log _ _ _ _ _ Htree) as [_ Hmeta].
  cbn [app] in Hin. rewrite app_nil_r in Hin.
  apply in_app_or in Hin. destruct Hin as [Hin|Hin].
  { rewrite Forall_forall in Hmeta. specialize (Hmeta _ Hin). discriminate. }
  assert (Hfile : In (FetchText u)
                    (map (fun f => FetchText (raw_url (owner parsed)
                                                (repo parsed)
                                                (fmt w tree_sha) f))
                         (Schedule.file_tasks (build_hierarchy items)))).
  { rewrite <- (generate_summaries_fetches w _ _ _ _ root
                  (f_equal fst Hroot)).
    rewrite Hroot. cbn [snd]. apply filter_In. auto. }
  set (w' := with_session_get w get').
  assert (Hbody : exists msg,
             fst (get_repo_body w' (owner parsed) (repo parsed))
             = Raise (Exception msg)).
  { unfold get_repo_body. unfold w'.
    rewrite (fetch_tree_same_metadata w get' _ _ Hsame), Htree.
    fold w'. rewrite bind_fst_from_Ok. cbv zeta. cbn [fst snd].
    rewrite (bind_fst_lift _ _ _ Hlisting).
    rewrite (bind_fst_lift _ _ _ Hentries).
    rewrite (bind_fst_lift _ _ _ Hblobs).
    rewrite (bind_fst_lift _ _ _ Hitems).
    change (fmt w' tree_sha) with (fmt w tree_sha).
    pose proof (stops_at_generate_summaries w' u failure Hfail
                  (owner parsed) (repo parsed) (fmt w tree_sha)
                  (build_hierarchy items)) as Hstop.
    pose proof (generate_summaries_fetches w' (owner parsed) (repo parsed)
                  (fmt w tree_sha) (build_hierarchy items)) as Hfetches.
    pose proof (proj1 (quiet_generate_summaries w' (owner parsed)
                         (repo parsed) (fmt w tree_sha)
                         (build_hierarchy items))) as Hplain.
    destruct (generate_summaries w' (owner parsed) (repo parsed)
                (fmt w tree_sha) (build_hierarchy items))
      as [[root'|[code detail|msg]] log'] eqn:E; cbn [fst snd] in *.
    - specialize (Hfetches root' eq_refl).
      rewrite <- Hfetches in Hfile. apply filter_In in Hfile.
      destruct (Hstop (proj1 Hfile)) as [msg Hmsg]. discriminate.
    - now destruct (Hplain code detail).
    - exists msg. reflexivity. }
  destruct Hbody as [msg Hbody]. exists msg.
  destruct (reraise_cases (get_repo_body w' (owner parsed) (repo parsed)))
    as [_ Hout].
  rewrite Hbody in Hout. exact Hout.
Qed.

(** C5 (as the code has it): a metadata call ([fetch_json]) of the
    request that is answered with a status of 400 or above makes the
    request fail with that status and a detail holding the first 300
    characters of the upstream body; answering raw-content requests with
    a status other than 200 never turns a request that succeeds into one
    that fails; but a raw-content request that raises (the connection
    fails, or the body cannot be read) is caught nowhere: a request that
    succeeds is answered 500 once one of the raw-content requests it made
    raises instead, the answers of the metadata calls being the same. *)
Theorem metadata_fatal_content_contained (w : world) (url : string) :
  (forall u resp,
      In (FetchJson u) (snd (get_repo w url)) ->
      session_get w u = inl resp ->
      (status resp >= 400)%Z ->
      fst (get_repo w url)
      = Raise (HTTPException (status resp)
                 ("HTTP " ++ PyStr.of_Z (status resp) ++ " from " ++ u
                  ++ ": " ++ PyStr.take 300 (text resp))))
  /\ (forall get' : string -> response + string,
         (forall u, get' u = session_get w u
                    \/ (is_raw_url u = true
                        /\ exists r, get' u = inl r /\ status r <> 200%Z)) ->
         forall resp,
           fst (get_repo w url) = Ok resp ->
           exists resp',
             fst (get_repo (with_session_get w get') url) = Ok resp')
  /\ (forall (get' : string -> response + string) (u failure : string)
             (resp : repo_response),
         fst (get_repo w url) = Ok resp ->
         In (FetchText u) (snd (get_repo w url)) ->
         (forall v, is_raw_url v = false -> get' v = session_get w v) ->
         get' u = inr failure ->
         exists detail,
           fst (get_repo (with_session_get w get') url)
           = Raise (HTTPException 500 detail)).
Proof.
  split; [|split].
  - exact (upstream_fatal_get_repo w url).
  - intros get' Hdeg resp Hresp.
    apply (get_repo_degraded w get' Hdeg url). now exists resp.
  - intros get' u failure resp.
    exact (raw_fetch_exception_fatal w get' url u failure resp).
Qed.

Lemma metadata_fatal_content_contained_witness :
  fst (get_repo Demo.healthy Demo.url_missing_repo)
  = Raise (HTTPException 404
             "HTTP 404 from https://api.github.com/repos/foo/baz: Not Found")
  /\ (exists resp',
         fst (get_repo
                (with_session_get Demo.healthy
                   (Demo.get (mk_response 200 "# bar")
                      (mk_response 404 "Not Found")))
                Demo.url_bar) = Ok resp')
  /\ exists detail,
       fst (get_repo
              (with_session_get Demo.healthy
                 (fun v =>
                    if String.eqb v
                         "https://raw.githubusercontent.com/foo/bar/7ee/README.md"
                    then inr "Connection reset by peer"
                    else session_get Demo.healthy v))
              Demo.url_bar)
       = Raise (HTTPException 500 detail).
Proof.
  split; [|split].
  - apply (proj1 (metadata_fatal_content_contained
                    Demo.healthy Demo.url_missing_repo)
             "https://api.github.com/repos/foo/baz"
             (mk_response 404 "Not Found")).
    + vm_compute. left. reflexivity.
    + reflexivity.
    + simpl. lia.
  - eapply (proj1 (proj2 (metadata_fatal_content_contained
                            Demo.healthy Demo.url_bar))).
    + intros u. unfold Demo.healthy, Demo.world_with, Demo.get. simpl.
      destruct (String.eqb_spec u
                  "https://raw.githubusercontent.com/foo/bar/7ee/src/main.py")
        as [->|Hne].
      * right. split; [reflexivity|].
        exists (mk_response 404 "Not Found"). split; [reflexivity|].
        simpl. discriminate.
      * left. reflexivity.
    + vm_compute. reflexivity.
  - eapply (proj2 (proj2 (metadata_fatal_content_contained
                            Demo.healthy Demo.url_bar))
              _ "https://raw.githubusercontent.com/foo/bar/7ee/README.md"
              "Connection reset by peer").
    + vm_compute. reflexivity.
    + vm_compute. auto 10.
    + intros v Hv.
      destruct (String.eqb_spec v
                  "https://raw.githubusercontent.com/foo/bar/7ee/README.md")
        as [->|Hne]; [discriminate Hv | reflexivity].
    + reflexivity.
Defined.

(** C5 fails as stated: with the hosting API answering every metadata
    call as before, the connection to the raw-content host breaking on
    one file makes the whole request fail, with status 500. *)
Lemma raw_fetch_exception_aborts_request :
  let get' := fun v =>
                if String.eqb v
                     "https://raw.githubusercontent.com/foo/bar/7ee/README.md"
                then inr "Connection reset by peer"
                else session_get Demo.healthy v in
  http_status (fst (get_repo Demo.healthy Demo.url_bar)) = 200%Z
  /\ fst (get_repo (with_session_get Demo.healthy get') Demo.url_bar)
     = Raise (HTTPException 500 "Connection reset by peer")
  /\ In (FetchText "https://raw.githubusercontent.com/foo/bar/7ee/README.md")
        (snd (get_repo (with_session_get Demo.healthy get') Demo.url_bar)).
Proof.
  cbv zeta. split; [|split].
  - vm_compute. reflexivity.
  - vm_compute. reflexivity.
  - vm_compute. auto 10.
Qed.
